(** * Pen-test report anonymiser: the masker, the document walker and the batch

    A shallow embedding of [pen_test_report_anonymiser.py].

    - Text is a Python [str]: a sequence of Unicode code points.
    - The six compiled patterns are terms of a small regular-expression
      syntax; they are run by a backtracking matcher that tries the
      alternatives in the order Python's [re] engine does (greedy repeats
      take as many iterations as they can and give them back one by one).
    - [pattern.sub(repl, text)] is the leftmost, non-overlapping scan.
    - The Unicode character database consulted by [\d], [\s], [\b] and
      [re.IGNORECASE] outside the ASCII range belongs to the Python runtime;
      it is a parameter of the development ([UnicodeData]). *)

From Stdlib Require Import String Ascii List Bool Arith NArith Lia.
Import ListNotations.

(** ** Text *)

(** A character is a code point, a text a list of them. *)
Definition char := N.
Definition text := list char.

(** Code point of an ASCII character, and the text of an ASCII literal. *)
Definition chr (a : ascii) : char := N_of_ascii a.
Definition str (s : string) : text := map chr (list_ascii_of_string s).

(** [s[i:j]] *)
Definition slice (s : text) (i j : nat) : text := firstn (j - i) (skipn i s).

(** [c] lies in the inclusive range [lo-hi] of a character class. *)
Definition in_range (lo hi : ascii) (c : char) : bool :=
  (chr lo <=? c)%N && (c <=? chr hi)%N.

Definition is_chr (a : ascii) (c : char) : bool := (c =? chr a)%N.

(** The printable ASCII characters from [%] to [z], where every class of
    the email, MAC and hostname patterns lies. *)
Definition printable (c : char) : bool := (37 <=? c)%N && (c <=? 122)%N.

(** Lower-casing of the ASCII letters; every other character stays. *)
Definition ascii_lower (c : char) : char :=
  if in_range "A" "Z" c then (c + 32)%N else c.

(** ** The Unicode tables of the runtime

    What [unicodedata] answers for code points from 128 on.  Below 128 the
    answers are fixed by the definitions that follow. *)
Record UnicodeData := {
  uni_isalpha : char -> bool;
  uni_isdecimal : char -> bool;
  uni_isdigit : char -> bool;
  uni_isnumeric : char -> bool;
  uni_isspace : char -> bool;
  uni_str_lower : list char -> list char
}.

(** The database with nothing outside ASCII. *)
Definition ascii_only : UnicodeData :=
  {| uni_isalpha := fun _ => false;
     uni_isdecimal := fun _ => false;
     uni_isdigit := fun _ => false;
     uni_isnumeric := fun _ => false;
     uni_isspace := fun _ => false;
     uni_str_lower := fun t => t |}.

(** ** Regular expressions *)

Inductive regex :=
| Cls (cls : char -> bool)                 (* one character of a class *)
| Bnd                                     (* \b *)
| Cat (r1 r2 : regex)                     (* r1 r2 *)
| Rep (r : regex) (lo : nat) (hi : option nat).  (* greedy r{lo,hi}; + is {1,} *)

Infix "+++" := Cat (at level 60, right associativity).

(** Whether a repeat that has done [n] iterations may do one more. *)
Definition below (hi : option nat) (n : nat) : bool :=
  match hi with
  | None => true
  | Some h => n <? h
  end.

(** Whether [n] iterations satisfy the upper bound. *)
Definition within (hi : option nat) (n : nat) : Prop :=
  match hi with
  | None => True
  | Some h => n <= h
  end.

(** The least number of characters a match of [r] consumes. *)
Fixpoint min_len (r : regex) : nat :=
  match r with
  | Cls _ => 1
  | Bnd => 0
  | Cat a b => min_len a + min_len b
  | Rep a lo _ => lo * min_len a
  end.

(** Every repeated body consumes at least one character. *)
Fixpoint progressive (r : regex) : bool :=
  match r with
  | Cls _ | Bnd => true
  | Cat a b => progressive a && progressive b
  | Rep a _ _ => (0 <? min_len a) && progressive a
  end.

(** Every character class of [r] lies within [P]. *)
Fixpoint classes_in (P : char -> bool) (r : regex) : Prop :=
  match r with
  | Cls cls => forall c, cls c = true -> P c = true
  | Bnd => True
  | Cat a b => classes_in P a /\ classes_in P b
  | Rep a _ _ => classes_in P a
  end.

(** The first character of every match of [r] lies within [P]. *)
Fixpoint first_in (P : char -> bool) (r : regex) : Prop :=
  match r with
  | Cls cls => forall c, cls c = true -> P c = true
  | Bnd => False
  | Cat Bnd b => first_in P b
  | Cat a _ => first_in P a
  | Rep a lo _ => 1 <= lo /\ first_in P a
  end.

(** The last character of every match of [r] lies within [P]. *)
Fixpoint last_in (P : char -> bool) (r : regex) : Prop :=
  match r with
  | Cls cls => forall c, cls c = true -> P c = true
  | Bnd => False
  | Cat a Bnd => last_in P a
  | Cat _ b => last_in P b
  | Rep a lo _ => 1 <= lo /\ last_in P a
  end.

(** Every match of [r] has a character within [P]. *)
Fixpoint must_have (P : char -> bool) (r : regex) : Prop :=
  match r with
  | Cls cls => forall c, cls c = true -> P c = true
  | Bnd => False
  | Cat a b => must_have P a \/ must_have P b
  | Rep a lo _ => 1 <= lo /\ must_have P a
  end.

(** [r] begins, or ends, with [\b]. *)
Definition starts_bnd (r : regex) : bool :=
  match r with
  | Bnd | Cat Bnd _ => true
  | _ => false
  end.

Fixpoint ends_bnd (r : regex) : bool :=
  match r with
  | Bnd => true
  | Cat _ b => ends_bnd b
  | _ => false
  end.

Section Engine.

Variable ucd : UnicodeData.

(** *** Character categories of the [re] module for [str] patterns *)

(** [\d]: a Unicode decimal digit. *)
Definition is_digit (c : char) : bool :=
  if (c <? 128)%N then in_range "0" "9" c else uni_isdecimal ucd c.

(** [\s]: Unicode whitespace; in ASCII that is tab to carriage return,
    the four separators 28-31 and the space. *)
Definition is_space (c : char) : bool :=
  if (c <? 128)%N
  then ((9 <=? c)%N && (c <=? 13)%N) || ((28 <=? c)%N && (c <=? 32)%N)
  else uni_isspace ucd c.

(** [str.isalnum] of one character: alphabetic, decimal, digit or numeric. *)
Definition is_alnum (c : char) : bool :=
  if (c <? 128)%N
  then in_range "a" "z" c || in_range "A" "Z" c || in_range "0" "9" c
  else uni_isalpha ucd c || uni_isdecimal ucd c || uni_isdigit ucd c
       || uni_isnumeric ucd c.

(** [\w]: alphanumeric or the underscore. *)
Definition is_word (c : char) : bool := is_alnum c || is_chr "_" c.

(** A literal letter under [re.IGNORECASE]: the engine compares simple
    lower-case mappings, and no code point but the two ASCII cases
    lower-cases to an ASCII letter of the word [port]. *)
Definition is_chr_nocase (a : ascii) (c : char) : bool :=
  (ascii_lower c =? ascii_lower (chr a))%N.

(** *** The backtracking matcher *)

Section Match.

Variable s : text.

Definition word_at (o : option char) : bool :=
  match o with
  | Some c => is_word c
  | None => false
  end.

(** The character before position [i], if any. *)
Definition before (i : nat) : option char :=
  match i with
  | 0 => None
  | S p => nth_error s p
  end.

(** [\b] holds at [i] when exactly one of the two neighbours is a word
    character; outside the text counts as a non-word character. *)
Definition at_boundary (i : nat) : bool :=
  xorb (word_at (before i)) (word_at (nth_error s i)).

(** A greedy repeat of a body [ma] that has done [n] iterations and stands at
    [i]: one more iteration first, the continuation [k] when that fails or
    is not allowed.  Every body of the patterns below consumes a character,
    so [fuel = length s] iterations are never exhausted. *)
Fixpoint rep (ma : nat -> (nat -> option nat) -> option nat)
    (lo : nat) (hi : option nat) (fuel n i : nat)
    (k : nat -> option nat) : option nat :=
  let stop := if lo <=? n then k i else None in
  match fuel with
  | 0 => stop
  | S f =>
      if below hi n
      then match ma i (fun j => rep ma lo hi f (S n) j k) with
           | Some e => Some e
           | None => stop
           end
      else stop
  end.

(** [m r i k]: match [r] at position [i], then the continuation [k] at the
    position reached; the end of the first complete match in priority
    order. *)
Fixpoint m (r : regex) (i : nat) (k : nat -> option nat) : option nat :=
  match r with
  | Cls cls =>
      match nth_error s i with
      | Some c => if cls c then k (S i) else None
      | None => None
      end
  | Bnd => if at_boundary i then k i else None
  | Cat a b => m a i (fun j => m b j k)
  | Rep a lo hi => rep (m a) lo hi (length s) 0 i k
  end.

(** [pattern.match(s, i)]: the end of the match that starts at [i]. *)
Definition match_at (r : regex) (i : nat) : option nat :=
  m r i (fun j => Some j).

(** [pattern.search(s, i)]: the first position from [i] on, among [n + 1],
    at which a match starts, with its end. *)
Fixpoint search (r : regex) (n i : nat) : option (nat * nat) :=
  match match_at r i with
  | Some e => Some (i, e)
  | None =>
      match n with
      | 0 => None
      | S n' => search r n' (S i)
      end
  end.

(** The loop of [pattern.sub(repl, s)] from position [i]: copy the text up
    to the next match, append the replacement of the match, continue after
    it.  None of the six patterns matches the empty string, so the rule for
    empty matches is not needed: an empty match ends the loop. *)
Fixpoint sub_loop (r : regex) (repl : text -> text) (fuel i : nat) : text :=
  match fuel with
  | 0 => skipn i s
  | S f =>
      match search r (length s - i) i with
      | None => skipn i s
      | Some (b, e) =>
          if b <? e
          then slice s i b ++ repl (slice s b e) ++ sub_loop r repl f e
          else skipn i s
      end
  end.

(** The spans [pattern.finditer(s)] yields from position [i] on: the same
    loop, collecting [(m.start(), m.end())]. *)
Fixpoint find_loop (r : regex) (fuel i : nat) : list (nat * nat) :=
  match fuel with
  | 0 => []
  | S f =>
      match search r (length s - i) i with
      | None => []
      | Some (b, e) => if b <? e then (b, e) :: find_loop r f e else []
      end
  end.

(** *** What a match is

    [Matches r i j]: the characters from [i] up to [j] can be read as [r],
    whatever the order in which the matcher tries the readings. *)
Fixpoint iter (R : nat -> nat -> Prop) (c i j : nat) : Prop :=
  match c with
  | 0 => i = j
  | S c' => exists j1, R i j1 /\ iter R c' j1 j
  end.

Fixpoint Matches (r : regex) (i j : nat) : Prop :=
  match r with
  | Cls cls => exists c, nth_error s i = Some c /\ cls c = true /\ j = S i
  | Bnd => at_boundary i = true /\ j = i
  | Cat a b => exists j1, Matches a i j1 /\ Matches b j1 j
  | Rep a lo hi => exists c, lo <= c /\ within hi c /\ iter (Matches a) c i j
  end.

(** The character at [p] belongs to the class. *)
Definition char_in (cls : char -> bool) (p : nat) : Prop :=
  exists c, nth_error s p = Some c /\ cls c = true.

(** Every character from [i] up to [j] belongs to the class. *)
Definition run (cls : char -> bool) (i j : nat) : Prop :=
  forall p, i <= p < j -> char_in cls p.

(** What an IPv4 match looks like: four groups of one to three digits
    between word boundaries, a dot after each of the first three. *)
Definition dgroup (i j : nat) : Prop :=
  i < j <= i + 3 /\ run is_digit i j.

Definition lit_at (a : ascii) (p : nat) : Prop :=
  nth_error s p = Some (chr a).

Definition dot_at (p : nat) : Prop := lit_at "." p.

Definition ipv4_shape (b e : nat) : Prop :=
  at_boundary b = true /\ at_boundary e = true
  /\ exists j1 j2 j3,
       dgroup b j1 /\ dot_at j1 /\ dgroup (S j1) j2 /\ dot_at j2
       /\ dgroup (S j2) j3 /\ dot_at j3 /\ dgroup (S j3) e.

(** What the fixed part of a URL match looks like: [http://] or [https://]
    after a word boundary, up to position [k]. *)
Definition url_shape (b k : nat) : Prop :=
  at_boundary b = true
  /\ lit_at "h" b /\ lit_at "t" (b + 1) /\ lit_at "t" (b + 2)
  /\ lit_at "p" (b + 3)
  /\ ((k = b + 7 /\ lit_at ":" (b + 4) /\ lit_at "/" (b + 5)
       /\ lit_at "/" (b + 6))
      \/ (k = b + 8 /\ lit_at "s" (b + 4) /\ lit_at ":" (b + 5)
          /\ lit_at "/" (b + 6) /\ lit_at "/" (b + 7))).

End Match.

(** [pattern.finditer(text)], as spans. *)
Definition finditer (r : regex) (t : text) : list (nat * nat) :=
  find_loop t r (length t) 0.

(** The spans follow one another from [i] on without overlap, and none is
    empty. *)
Fixpoint spans_ordered (i : nat) (spans : list (nat * nat)) : Prop :=
  match spans with
  | [] => True
  | (b, e) :: rest => i <= b /\ b < e /\ spans_ordered e rest
  end.

(** Position [i] lies in one of the spans. *)
Definition covered (spans : list (nat * nat)) (i : nat) : bool :=
  existsb (fun be => (fst be <=? i) && (i <? snd be)) spans.

(** The text with every covered position replaced by [x]; [i] is the
    position of the head of [l]. *)
Fixpoint mask_from (spans : list (nat * nat)) (i : nat) (l : text) : text :=
  match l with
  | [] => []
  | c :: l' =>
      (if covered spans i then chr "x" else c) :: mask_from spans (S i) l'
  end.

Definition mask_spans (spans : list (nat * nat)) (t : text) : text :=
  mask_from spans 0 t.

(** [u] is [t] with [x] written over some positions. *)
Definition masked_of (t u : text) : Prop :=
  length u = length t
  /\ forall p c, nth_error t p = Some c ->
       nth_error u p = Some c \/ nth_error u p = Some (chr "x").

(** [u] has the length of [t] and the same characters from the position
    before [n] to position [q]. *)
Definition same_region (t : text) (n q : nat) (u : text) : Prop :=
  length u = length t
  /\ forall p, n <= S p -> p <= q -> nth_error u p = nth_error t p.

(** [pattern.sub(repl, text)] *)
Definition re_sub (r : regex) (repl : text -> text) (t : text) : text :=
  sub_loop t r repl (length t) 0.

(** ** The anonymiser *)

(** *** [_compile_patterns] *)

Definition lit (a : ascii) : regex := Cls (is_chr a).
Definition lit_nocase (a : ascii) : regex := Cls (is_chr_nocase a).
Definition plus (r : regex) : regex := Rep r 1 None.

(** [[a-zA-Z]] *)
Definition cls_alpha (c : char) : bool :=
  in_range "a" "z" c || in_range "A" "Z" c.

(** [[a-zA-Z0-9._%+-]] *)
Definition cls_local (c : char) : bool :=
  in_range "a" "z" c || in_range "A" "Z" c || in_range "0" "9" c
  || is_chr "." c || is_chr "_" c || is_chr "%" c || is_chr "+" c
  || is_chr "-" c.

(** [[a-zA-Z0-9.-]] *)
Definition cls_domain (c : char) : bool :=
  in_range "a" "z" c || in_range "A" "Z" c || in_range "0" "9" c
  || is_chr "." c || is_chr "-" c.

(** [[0-9A-Fa-f]] *)
Definition cls_hex (c : char) : bool :=
  in_range "0" "9" c || in_range "A" "F" c || in_range "a" "f" c.

(** [[a-zA-Z0-9-]] *)
Definition cls_label (c : char) : bool :=
  in_range "a" "z" c || in_range "A" "Z" c || in_range "0" "9" c
  || is_chr "-" c.

(** A digit of [\d] or a dot: what an IPv4 match is made of. *)
Definition digit_or_dot (c : char) : bool := is_digit c || is_chr "." c.

(** [[^\s]] *)
Definition cls_nonspace (c : char) : bool := negb (is_space c).

(** [\b(?:\d{1,3}\.){3}\d{1,3}\b] *)
Definition ipv4_re : regex :=
  Bnd +++ Rep (Rep (Cls is_digit) 1 (Some 3) +++ lit ".") 3 (Some 3)
      +++ Rep (Cls is_digit) 1 (Some 3) +++ Bnd.

(** [\bhttps?://[^\s]+] *)
Definition url_re : regex :=
  Bnd +++ lit "h" +++ lit "t" +++ lit "t" +++ lit "p"
      +++ Rep (lit "s") 0 (Some 1)
      +++ lit ":" +++ lit "/" +++ lit "/" +++ plus (Cls cls_nonspace).

(** [\b[a-zA-Z0-9._%+-]+@[a-zA-Z0-9.-]+\.[a-zA-Z]{2,}\b] *)
Definition email_re : regex :=
  Bnd +++ plus (Cls cls_local) +++ lit "@" +++ plus (Cls cls_domain)
      +++ lit "." +++ Rep (Cls cls_alpha) 2 None +++ Bnd.

(** [\b(?:[0-9A-Fa-f]{2}:){5}[0-9A-Fa-f]{2}\b] *)
Definition mac_re : regex :=
  Bnd +++ Rep (Rep (Cls cls_hex) 2 (Some 2) +++ lit ":") 5 (Some 5)
      +++ Rep (Cls cls_hex) 2 (Some 2) +++ Bnd.

(** [\bport\s+\d{1,5}\b] with [re.IGNORECASE] *)
Definition port_re : regex :=
  Bnd +++ lit_nocase "p" +++ lit_nocase "o" +++ lit_nocase "r"
      +++ lit_nocase "t" +++ plus (Cls is_space)
      +++ Rep (Cls is_digit) 1 (Some 5) +++ Bnd.

(** [\b(?:[a-zA-Z0-9-]+\.)+[a-zA-Z]{2,}\b] *)
Definition host_re : regex :=
  Bnd +++ plus (plus (Cls cls_label) +++ lit ".")
      +++ Rep (Cls cls_alpha) 2 None +++ Bnd.

Definition _compile_patterns : list regex :=
  [ipv4_re; url_re; email_re; mac_re; port_re; host_re].

(** *** [_mask_match]: ["x" * len(match.group())] *)
Definition _mask_match (group : text) : text :=
  repeat (chr "x") (length group).

(** *** [anonymise_text]: the patterns one after the other, each on the
    text the previous one left. *)
Definition anonymise_text (t : text) : text :=
  fold_left (fun text pattern => re_sub pattern _mask_match text)
            _compile_patterns t.

(** The two parts of the hostname pattern: a label with its dot, and the
    final letters with the closing word boundary. *)
Definition host_group : regex := plus (Cls cls_label) +++ lit ".".
Definition host_tld : regex := Rep (Cls cls_alpha) 2 None +++ Bnd.

(** What a hostname match looks like: between two word boundaries,
    letters, digits, hyphens and dots; the first character is no dot, no
    two dots are adjacent, and after the last dot come two letters or
    more. *)
Definition host_shape (s : text) (b e : nat) : Prop :=
  at_boundary s b = true /\ at_boundary s e = true
  /\ run s cls_domain b e
  /\ char_in s cls_label b
  /\ (forall p, b <= p -> S p < e -> dot_at s p -> dot_at s (S p) -> False)
  /\ exists d,
       b < d /\ dot_at s d /\ d + 3 <= e /\ run s cls_alpha (S d) e.

(** *** The characters the matches of each pattern are made of *)

Definition email_chars (c : char) : bool := cls_local c || is_chr "@" c.

Definition mac_chars (c : char) : bool := cls_hex c || is_chr ":" c.

Definition port_chars (c : char) : bool :=
  is_chr_nocase "p" c || is_chr_nocase "o" c || is_chr_nocase "r" c
  || is_chr_nocase "t" c || is_space c || is_digit c.

(** No match of [r] in [u]. *)
Definition quiet (u : text) (r : regex) : Prop :=
  forall b e, ~ Matches u r b e.

(** *** Vocabulary of the claims about CVE identifiers *)

Definition ascii_digit (c : char) : bool := in_range "0" "9" c.

(** [CVE-<year>-<number>] *)
Definition cve_text (year number : text) : text :=
  str "CVE-" ++ year ++ chr "-" :: number.

(** Four digits, then at least four digits. *)
Definition cve_shape (year number : text) : bool :=
  (length year =? 4) && forallb ascii_digit year
  && (4 <=? length number) && forallb ascii_digit number.

(** The characters of a CVE identifier. *)
Definition cve_char (c : char) : bool :=
  is_chr "C" c || is_chr "V" c || is_chr "E" c || is_chr "-" c
  || ascii_digit c.

(** The text before ends, if it has a last character, with whitespace. *)
Definition ends_space (pre : text) : bool :=
  match rev pre with
  | [] => true
  | c :: _ => is_space c
  end.

(** The text after starts, if it has a first character, with whitespace. *)
Definition starts_space (post : text) : bool :=
  match post with
  | [] => true
  | c :: _ => is_space c
  end.

(** *** Vocabulary of the claims about IPv4-shaped text *)

(** A group of one to three digits, as text. *)
Definition digit_group (g : text) : bool :=
  (1 <=? length g) && (length g <=? 3) && forallb is_digit g.

(** Four groups separated by dots. *)
Definition ipv4_text (g1 g2 g3 g4 : text) : text :=
  g1 ++ chr "." :: g2 ++ chr "." :: g3 ++ chr "." :: g4.

(** The text before ends, if it has a last character, with one that is
    neither a word character nor a dot. *)
Definition ends_clear (pre : text) : bool :=
  match rev pre with
  | [] => true
  | c :: _ => negb (is_word c) && negb (is_chr "." c)
  end.

(** The text after starts, if it has a first character, with one that is
    not a word character. *)
Definition starts_clear (post : text) : bool :=
  match post with
  | [] => true
  | c :: _ => negb (is_word c)
  end.

End Engine.

(** ** The document walker *)

Section Walker.

Variable ucd : UnicodeData.

(** Modelled from the spec: the document tree that the external document
    library exposes (section 3 of the specification).  Containment is
    ownership: a tree, every node owned by one parent.  [RunFmt] and
    [ParFmt] stand for everything a run or a paragraph carries besides the
    run texts (bold, italic, font, style); the program never reads them. *)
Variables RunFmt ParFmt : Type.

Record Run := { run_text : text; run_fmt : RunFmt }.

Record Paragraph := { par_runs : list Run; par_fmt : ParFmt }.

Inductive Table := Tbl (rows : list Row)
with Row := Rw (cells : list Cell)
with Cell := Cl (cell_paragraphs : list Paragraph) (cell_tables : list Table).

(** A header or a footer: paragraphs and tables, like a cell. *)
Record HeaderFooter := {
  hf_paragraphs : list Paragraph;
  hf_tables : list Table
}.

Record DocSection := { header : HeaderFooter; footer : HeaderFooter }.

Record Document := {
  doc_paragraphs : list Paragraph;
  doc_tables : list Table;
  doc_sections : list DocSection
}.

(** The body of the loop of [_process_runs]:
    [if run.text: run.text = self.anonymise_text(run.text)]. *)
Definition process_run (run : Run) : Run :=
  match run_text run with
  | [] => run
  | _ :: _ =>
      {| run_text := anonymise_text ucd (run_text run);
         run_fmt := run_fmt run |}
  end.

Definition _process_runs (paragraph : Paragraph) : Paragraph :=
  {| par_runs := map process_run (par_runs paragraph);
     par_fmt := par_fmt paragraph |}.

Definition _process_paragraphs (paragraphs : list Paragraph)
  : list Paragraph :=
  map _process_runs paragraphs.

(** [_process_tables]: rows, cells, the paragraphs of each cell, then its
    nested tables. *)
Fixpoint process_table (table : Table) : Table :=
  match table with
  | Tbl rows => Tbl (map process_row rows)
  end
with process_row (row : Row) : Row :=
  match row with
  | Rw cells => Rw (map process_cell cells)
  end
with process_cell (cell : Cell) : Cell :=
  match cell with
  | Cl paragraphs tables =>
      Cl (_process_paragraphs paragraphs) (map process_table tables)
  end.

Definition _process_tables (tables : list Table) : list Table :=
  map process_table tables.

Definition process_header_footer (hf : HeaderFooter) : HeaderFooter :=
  {| hf_paragraphs := _process_paragraphs (hf_paragraphs hf);
     hf_tables := _process_tables (hf_tables hf) |}.

Definition process_section (section : DocSection) : DocSection :=
  {| header := process_header_footer (header section);
     footer := process_header_footer (footer section) |}.

(** [_process_headers_footers] touches the sections only. *)
Definition _process_headers_footers (doc : Document) : Document :=
  {| doc_paragraphs := doc_paragraphs doc;
     doc_tables := doc_tables doc;
     doc_sections := map process_section (doc_sections doc) |}.

(** The traversal of [anonymise_docx], between loading and saving: body
    paragraphs, body tables, headers and footers. *)
Definition anonymise_document (doc : Document) : Document :=
  _process_headers_footers
    {| doc_paragraphs := _process_paragraphs (doc_paragraphs doc);
       doc_tables := _process_tables (doc_tables doc);
       doc_sections := doc_sections doc |}.

(** The paragraphs of a document, in traversal order. *)
Fixpoint table_paragraphs (table : Table) : list Paragraph :=
  match table with
  | Tbl rows => flat_map row_paragraphs rows
  end
with row_paragraphs (row : Row) : list Paragraph :=
  match row with
  | Rw cells => flat_map cell_all_paragraphs cells
  end
with cell_all_paragraphs (cell : Cell) : list Paragraph :=
  match cell with
  | Cl paragraphs tables => paragraphs ++ flat_map table_paragraphs tables
  end.

Definition hf_all_paragraphs (hf : HeaderFooter) : list Paragraph :=
  hf_paragraphs hf ++ flat_map table_paragraphs (hf_tables hf).

Definition section_paragraphs (section : DocSection) : list Paragraph :=
  hf_all_paragraphs (header section) ++ hf_all_paragraphs (footer section).

Definition all_paragraphs (doc : Document) : list Paragraph :=
  doc_paragraphs doc ++ flat_map table_paragraphs (doc_tables doc)
  ++ flat_map section_paragraphs (doc_sections doc).

(** What the claims say of a run and of a paragraph after the pass. *)
Definition run_processed (run run' : Run) : Prop :=
  run_fmt run' = run_fmt run
  /\ run_text run' = match run_text run with
                     | [] => []
                     | _ :: _ => anonymise_text ucd (run_text run)
                     end.

Definition paragraph_processed (p p' : Paragraph) : Prop :=
  par_fmt p' = par_fmt p /\ Forall2 run_processed (par_runs p) (par_runs p').

End Walker.

Arguments run_text {RunFmt} _.
Arguments run_fmt {RunFmt} _.
Arguments Build_Run {RunFmt} _ _.
Arguments par_runs {RunFmt ParFmt} _.
Arguments par_fmt {RunFmt ParFmt} _.
Arguments Build_Paragraph {RunFmt ParFmt} _ _.
Arguments Tbl {RunFmt ParFmt} _.
Arguments Rw {RunFmt ParFmt} _.
Arguments Cl {RunFmt ParFmt} _ _.
Arguments hf_paragraphs {RunFmt ParFmt} _.
Arguments hf_tables {RunFmt ParFmt} _.
Arguments Build_HeaderFooter {RunFmt ParFmt} _ _.
Arguments header {RunFmt ParFmt} _.
Arguments footer {RunFmt ParFmt} _.
Arguments Build_DocSection {RunFmt ParFmt} _ _.
Arguments doc_paragraphs {RunFmt ParFmt} _.
Arguments doc_tables {RunFmt ParFmt} _.
Arguments doc_sections {RunFmt ParFmt} _.
Arguments Build_Document {RunFmt ParFmt} _ _ _.
Arguments process_run ucd {RunFmt} _.
Arguments _process_runs ucd {RunFmt ParFmt} _.
Arguments _process_paragraphs ucd {RunFmt ParFmt} _.
Arguments process_table ucd {RunFmt ParFmt} _.
Arguments process_row ucd {RunFmt ParFmt} _.
Arguments process_cell ucd {RunFmt ParFmt} _.
Arguments _process_tables ucd {RunFmt ParFmt} _.
Arguments process_header_footer ucd {RunFmt ParFmt} _.
Arguments process_section ucd {RunFmt ParFmt} _.
Arguments _process_headers_footers ucd {RunFmt ParFmt} _.
Arguments anonymise_document ucd {RunFmt ParFmt} _.
Arguments table_paragraphs {RunFmt ParFmt} _.
Arguments row_paragraphs {RunFmt ParFmt} _.
Arguments cell_all_paragraphs {RunFmt ParFmt} _.
Arguments hf_all_paragraphs {RunFmt ParFmt} _.
Arguments section_paragraphs {RunFmt ParFmt} _.
Arguments all_paragraphs {RunFmt ParFmt} _.
Arguments run_processed ucd {RunFmt} _ _.
Arguments paragraph_processed ucd {RunFmt ParFmt} _ _.

(** ** The batch *)

(** What a call can raise: an instance of [Exception] (or of a subclass)
    with its message [str(e)], or the operator's interrupt, which is a
    [BaseException] outside [Exception]. *)
Inductive exn :=
| Exception (msg : text)
| KeyboardInterrupt.

Inductive result (A : Type) :=
| Ok (a : A)
| Raise (e : exn).

Arguments Ok {A} a.
Arguments Raise {A} e.

(** A path is its list of components; [name] is the last one. *)
Definition Path := list text.
Definition path_name (p : Path) : text := last p [].
Definition path_parent (p : Path) : Path := removelast p.
Definition path_join (p : Path) (n : text) : Path := p ++ [n].

Fixpoint text_eqb (a b : text) : bool :=
  match a, b with
  | [], [] => true
  | x :: a', y :: b' => (x =? y)%N && text_eqb a' b'
  | _, _ => false
  end.

(** [t.startswith(pre)] *)
Fixpoint startswith (pre t : text) : bool :=
  match pre, t with
  | [], _ => true
  | x :: pre', y :: t' => (x =? y)%N && startswith pre' t'
  | _ :: _, [] => false
  end.

(** [t.rfind(c)] *)
Fixpoint rfind (c : char) (t : text) : option nat :=
  match t with
  | [] => None
  | a :: t' =>
      match rfind c t' with
      | Some i => Some (S i)
      | None => if (a =? c)%N then Some 0 else None
      end
  end.

(** [PurePath.suffix] on the name: from the last dot on, unless that dot is
    the first or the last character of the name. *)
Definition suffix (name : text) : text :=
  match rfind (chr ".") name with
  | Some i => if (0 <? i) && (i <? length name - 1) then skipn i name else []
  | None => []
  end.

Section Batch.

Variable ucd : UnicodeData.
Variables RunFmt ParFmt : Type.

(** [str.lower()]: character by character on ASCII text, the runtime's
    tables otherwise. *)
Definition lower (t : text) : text :=
  if forallb (fun c => (c <? 128)%N) t then map ascii_lower t
  else uni_str_lower ucd t.

(** The file system and the document library, as far as the batch uses
    them. *)
Variable World : Type.
Variable path_exists : World -> Path -> bool.
Variable path_is_dir : World -> Path -> bool.
Variable path_is_file : World -> Path -> bool.
(** The names [iterdir] enumerates, in its order. *)
Variable listdir : World -> Path -> list text.
(** [Document(file_path)] *)
Variable load : World -> Path -> result (Document RunFmt ParFmt).
(** [doc.save(path)]: the file system afterwards, and how the call ended. *)
Variable save : World -> Path -> Document RunFmt ParFmt -> World * result unit.

(** The file system and what has been printed so far. *)
Definition State : Type := World * list text.

Definition print (line : text) (st : State) : State :=
  (fst st, snd st ++ [line]).

Definition newline : char := 10%N.

(** The [try] block of [anonymise_docx]. *)
Definition anonymise_docx_try (file_path : Path) (w : World)
  : World * result unit :=
  match load w file_path with
  | Raise e => (w, Raise e)
  | Ok doc =>
      let doc := anonymise_document ucd doc in
      let new_file_name := str "Anonymised_" ++ path_name file_path in
      let new_file_path := path_join (path_parent file_path) new_file_name in
      save w new_file_path doc
  end.

(** [anonymise_docx]: the [try] block under [except Exception as e]. *)
Definition anonymise_docx (file_path : Path) (st : State)
  : State * result unit :=
  match anonymise_docx_try file_path (fst st) with
  | (w, Ok _) => ((w, snd st), Ok tt)
  | (w, Raise (Exception e)) =>
      (print (newline :: str "Error processing " ++ path_name file_path
                ++ str ": " ++ e) (w, snd st), Ok tt)
  | (w, Raise KeyboardInterrupt) => ((w, snd st), Raise KeyboardInterrupt)
  end.

(** The condition of the list comprehension of [process_folder]. *)
Definition eligible (w : World) (f : Path) : bool :=
  path_is_file w f
  && text_eqb (lower (suffix (path_name f))) (str ".docx")
  && negb (startswith (str "Anonymised_") (path_name f)).

Definition iterdir (w : World) (folder : Path) : list Path :=
  map (path_join folder) (listdir w folder).

Definition collect_files (w : World) (folder : Path) : list Path :=
  filter (eligible w) (iterdir w folder).

(** [for file in files: self.anonymise_docx(file)] *)
Fixpoint for_each_file (files : list Path) (st : State)
  : State * result unit :=
  match files with
  | [] => (st, Ok tt)
  | file :: rest =>
      match anonymise_docx file st with
      | (st', Ok _) => for_each_file rest st'
      | (st', Raise e) => (st', Raise e)
      end
  end.

(** The state after every file of the list has had its turn. *)
Definition after_all (files : list Path) (st : State) : State :=
  fold_left (fun st file => fst (anonymise_docx file st)) files st.

(** What [anonymise_docx] prints for a file that failed with message [e]. *)
Definition error_line (file_path : Path) (e : text) : text :=
  newline :: str "Error processing " ++ path_name file_path ++ str ": " ++ e.

Definition process_folder (folder : Path) (st : State) : State :=
  if negb (path_exists (fst st) folder) || negb (path_is_dir (fst st) folder)
  then print (str "Invalid folder path provided.") st
  else
    let files := collect_files (fst st) folder in
    match files with
    | [] => print (str "No DOCX reports found.") st
    | _ :: _ =>
        match for_each_file files st with
        | (st', Ok _) => print (newline :: str "Anonymisation complete") st'
        | (st', Raise KeyboardInterrupt) =>
            print (newline :: str "Process interrupted by user.") st'
        | (st', Raise (Exception e)) =>
            print (newline :: str "Unexpected error occurred: " ++ e) st'
        end
    end.

End Batch.

(** ** Vocabulary of the further properties *)

(** The most characters a match of [r] consumes, when there is a bound. *)
Fixpoint max_len (r : regex) : option nat :=
  match r with
  | Cls _ => Some 1
  | Bnd => Some 0
  | Cat a b =>
      match max_len a, max_len b with
      | Some x, Some y => Some (x + y)
      | _, _ => None
      end
  | Rep a _ hi =>
      match max_len a, hi with
      | Some x, Some h => Some (h * x)
      | _, _ => None
      end
  end.

(** The runtime's tables call no whitespace character alphanumeric, as the
    Unicode character database does. *)
Definition space_not_word (ucd : UnicodeData) : Prop :=
  forall c, is_space ucd c = true -> is_word ucd c = false.

(** At [p] the text has whitespace, or has ended. *)
Definition gap_at (ucd : UnicodeData) (u : text) (p : nat) : Prop :=
  forall c, nth_error u p = Some c -> is_space ucd c = true.

(** The stretch from [n] to [e] stands between whitespace or the ends of
    the text. *)
Definition framed (ucd : UnicodeData) (u : text) (n e : nat) : Prop :=
  (0 < n -> gap_at ucd u (n - 1)) /\ gap_at ucd u e.

(** The text before ends, if it has a last character, with a non-word
    character. *)
Definition ends_nonword (ucd : UnicodeData) (pre : text) : bool :=
  match rev pre with
  | [] => true
  | c :: _ => negb (is_word ucd c)
  end.

(** [http://<rest>] or [https://<rest>] *)
Definition url_text (secure : bool) (rest : text) : text :=
  str "http" ++ (if secure then str "s" else []) ++ str "://" ++ rest.

(** The number of dots of a text. *)
Definition dots (t : text) : nat := length (filter (is_chr ".") t).

(** Two hexadecimal digits. *)
Definition hex_pair (o : text) : bool :=
  (length o =? 2) && forallb cls_hex o.

(** Six groups separated by colons. *)
Definition mac_text (o1 o2 o3 o4 o5 o6 : text) : text :=
  o1 ++ chr ":" :: o2 ++ chr ":" :: o3 ++ chr ":" :: o4 ++ chr ":" :: o5
     ++ chr ":" :: o6.

(** The word [port] in any mix of cases, whitespace, one to five digits. *)
Definition port_text (word gap digits : text) : text := word ++ gap ++ digits.

Definition port_parts (ucd : UnicodeData) (word gap digits : text) : bool :=
  text_eqb (map ascii_lower word) (str "port")
  && (1 <=? length gap) && forallb (is_space ucd) gap
  && (1 <=? length digits) && (length digits <=? 5)
  && forallb (is_digit ucd) digits.

(** [<local>@<domain>.<tld>] *)
Definition email_text (local domain tld : text) : text :=
  local ++ chr "@" :: domain ++ chr "." :: tld.

(** A local part that starts with a word character, a domain, and two
    letters or more after the last dot. *)
Definition email_parts (ucd : UnicodeData) (local domain tld : text) : bool :=
  match local with
  | c :: _ => is_word ucd c
  | [] => false
  end
  && forallb cls_local local
  && (1 <=? length domain) && forallb cls_domain domain
  && (2 <=? length tld) && forallb cls_alpha tld.

(** [[a-zA-Z0-9]] *)
Definition cls_alnum (c : char) : bool :=
  in_range "a" "z" c || in_range "A" "Z" c || in_range "0" "9" c.

(** Labels, each followed by a dot, and the final letters. *)
Definition host_text (labels : list text) (tld : text) : text :=
  concat (map (fun l => l ++ [chr "."]) labels) ++ tld.

(** At least one label; every label has a character; the name starts with
    a letter or a digit and ends with two letters or more. *)
Definition host_parts (labels : list text) (tld : text) : bool :=
  match labels with
  | (c :: _) :: _ => cls_alnum c
  | _ => false
  end
  && forallb (fun l => (1 <=? length l) && forallb cls_label l) labels
  && (2 <=? length tld) && forallb cls_alpha tld.

(** No two dots side by side. *)
Fixpoint no_double_dot (t : text) : bool :=
  match t with
  | c1 :: t' =>
      match t' with
      | c2 :: _ => negb (is_chr "." c1 && is_chr "." c2) && no_double_dot t'
      | [] => true
      end
  | [] => true
  end.

(** [file_path.parent / f"Anonymised_{file_path.name}"]: where
    [anonymise_docx] saves the copy of [file_path]. *)
Definition new_file_path (file_path : Path) : Path :=
  path_join (path_parent file_path) (str "Anonymised_" ++ path_name file_path).

Section Blank.

Variables RunFmt ParFmt : Type.

(** A document with every character of every run replaced by [x]: what is
    left is the tree, the formatting and the length of each run. *)
Definition blank_run (run : Run RunFmt) : Run RunFmt :=
  {| run_text := repeat (chr "x") (length (run_text run));
     run_fmt := run_fmt run |}.

Definition blank_paragraph (p : Paragraph RunFmt ParFmt)
  : Paragraph RunFmt ParFmt :=
  {| par_runs := map blank_run (par_runs p); par_fmt := par_fmt p |}.

Fixpoint blank_table (table : Table RunFmt ParFmt) : Table RunFmt ParFmt :=
  match table with
  | Tbl rows => Tbl (map blank_row rows)
  end
with blank_row (row : Row RunFmt ParFmt) : Row RunFmt ParFmt :=
  match row with
  | Rw cells => Rw (map blank_cell cells)
  end
with blank_cell (cell : Cell RunFmt ParFmt) : Cell RunFmt ParFmt :=
  match cell with
  | Cl paragraphs tables =>
      Cl (map blank_paragraph paragraphs) (map blank_table tables)
  end.

Definition blank_header_footer (hf : HeaderFooter RunFmt ParFmt)
  : HeaderFooter RunFmt ParFmt :=
  {| hf_paragraphs := map blank_paragraph (hf_paragraphs hf);
     hf_tables := map blank_table (hf_tables hf) |}.

Definition blank_section (section : DocSection RunFmt ParFmt)
  : DocSection RunFmt ParFmt :=
  {| header := blank_header_footer (header section);
     footer := blank_header_footer (footer section) |}.

Definition blank_document (doc : Document RunFmt ParFmt)
  : Document RunFmt ParFmt :=
  {| doc_paragraphs := map blank_paragraph (doc_paragraphs doc);
     doc_tables := map blank_table (doc_tables doc);
     doc_sections := map blank_section (doc_sections doc) |}.

End Blank.

Arguments blank_run {RunFmt} _.
Arguments blank_paragraph {RunFmt ParFmt} _.
Arguments blank_table {RunFmt ParFmt} _.
Arguments blank_row {RunFmt ParFmt} _.
Arguments blank_cell {RunFmt ParFmt} _.
Arguments blank_header_footer {RunFmt ParFmt} _.
Arguments blank_section {RunFmt ParFmt} _.
Arguments blank_document {RunFmt ParFmt} _.

(** * Properties *)

(** ** Lists and slices *)

Lemma skipn_slice (s : text) (i b : nat) :
  i <= b -> b <= length s -> skipn i s = slice s i b ++ skipn b s.
Proof.
  intros Hib Hb. unfold slice.
  replace b with ((b - i) + i) at 2 by lia.
  rewrite <- skipn_skipn. symmetry. apply firstn_skipn.
Qed.

Lemma length_slice (s : text) (b e : nat) :
  b <= e -> e <= length s -> length (slice s b e) = e - b.
Proof.
  intros Hbe He. unfold slice.
  rewrite length_firstn, length_skipn. lia.
Qed.

Lemma mask_from_length spans i l : length (mask_from spans i l) = length l.
Proof.
  revert i. induction l as [|c l IH]; intros i; simpl; [reflexivity|].
  now rewrite IH.
Qed.

Lemma mask_from_app spans i l1 l2 :
  mask_from spans i (l1 ++ l2)
  = mask_from spans i l1 ++ mask_from spans (i + length l1) l2.
Proof.
  revert i. induction l1 as [|c l1 IH]; intros i; simpl.
  - now rewrite Nat.add_0_r.
  - rewrite IH. now replace (S i + length l1) with (i + S (length l1)) by lia.
Qed.

Lemma mask_from_ext spans spans' i l :
  (forall p, i <= p < i + length l -> covered spans p = covered spans' p) ->
  mask_from spans i l = mask_from spans' i l.
Proof.
  revert i. induction l as [|c l IH]; intros i H; simpl; [reflexivity|].
  rewrite (H i) by (simpl; lia). f_equal.
  apply IH. intros p Hp. apply H. simpl. lia.
Qed.

Lemma mask_from_none spans i l :
  (forall p, i <= p < i + length l -> covered spans p = false) ->
  mask_from spans i l = l.
Proof.
  revert i. induction l as [|c l IH]; intros i H; simpl; [reflexivity|].
  rewrite (H i) by (simpl; lia). f_equal.
  apply IH. intros p Hp. apply H. simpl. lia.
Qed.

Lemma mask_from_all spans i l :
  (forall p, i <= p < i + length l -> covered spans p = true) ->
  mask_from spans i l = repeat (chr "x") (length l).
Proof.
  revert i. induction l as [|c l IH]; intros i H; simpl; [reflexivity|].
  rewrite (H i) by (simpl; lia). f_equal.
  apply IH. intros p Hp. apply H. simpl. lia.
Qed.

Lemma nth_error_mask_from spans i l p :
  nth_error (mask_from spans i l) p
  = match nth_error l p with
    | Some c => Some (if covered spans (i + p) then chr "x" else c)
    | None => None
    end.
Proof.
  revert i p. induction l as [|c l IH]; intros i [|p]; simpl; try reflexivity.
  - now rewrite Nat.add_0_r.
  - rewrite IH. now replace (S i + p) with (i + S p) by lia.
Qed.

Lemma covered_In spans p :
  covered spans p = true <-> exists b e, In (b, e) spans /\ b <= p < e.
Proof.
  unfold covered. rewrite existsb_exists. split.
  - intros ([b e] & Hin & H). simpl in H.
    apply andb_true_iff in H as [H1 H2].
    apply Nat.leb_le in H1. apply Nat.ltb_lt in H2. eauto.
  - intros (b & e & Hin & H1 & H2). exists (b, e). split; [exact Hin|].
    simpl. apply andb_true_iff. split; [now apply Nat.leb_le|now apply Nat.ltb_lt].
Qed.

(** ** Texts with [x] written over some positions *)

Lemma masked_of_refl t : masked_of t t.
Proof. split; auto. Qed.

Lemma masked_of_trans t u v : masked_of t u -> masked_of u v -> masked_of t v.
Proof.
  intros [L1 H1] [L2 H2]. split; [congruence|].
  intros p c Hc. destruct (H1 _ _ Hc) as [H|H];
    destruct (H2 _ _ H); auto.
Qed.

(** An [x] stays an [x]. *)
Lemma masked_of_keeps_x t u p :
  masked_of t u -> nth_error t p = Some (chr "x") ->
  nth_error u p = Some (chr "x").
Proof. intros [_ H] Hx. destruct (H _ _ Hx); auto. Qed.

(** Where the masked text has something else than [x], the original has
    the same; after the end both have nothing. *)
Lemma masked_of_agree t u p :
  masked_of t u -> nth_error u p <> Some (chr "x") ->
  nth_error t p = nth_error u p.
Proof.
  intros [L H] Hx. destruct (nth_error t p) as [c|] eqn:Hc.
  - destruct (H _ _ Hc) as [E|E]; [now rewrite E|contradiction].
  - apply nth_error_None in Hc. symmetry. apply nth_error_None. lia.
Qed.

Lemma masked_of_app_inv a b out :
  masked_of (a ++ b) out ->
  masked_of a (firstn (length a) out) /\ masked_of b (skipn (length a) out).
Proof.
  intros [L H]. rewrite length_app in L. split; split.
  - rewrite length_firstn. lia.
  - intros p c Hc.
    assert (Hp : p < length a) by (apply nth_error_Some; congruence).
    rewrite nth_error_firstn. destruct (Nat.ltb_spec p (length a)); [|lia].
    apply H. now rewrite nth_error_app1.
  - rewrite length_skipn. lia.
  - intros p c Hc. rewrite nth_error_skipn. apply H.
    rewrite nth_error_app2 by lia. now replace (length a + p - length a) with p by lia.
Qed.

(** The masked text splits like the original. *)
Lemma masked_of_split a mid b out :
  masked_of (a ++ mid ++ b) out ->
  exists a' mid' b',
    out = a' ++ mid' ++ b' /\ masked_of a a' /\ masked_of mid mid'
    /\ masked_of b b'.
Proof.
  intros H. apply masked_of_app_inv in H as [Ha H].
  apply masked_of_app_inv in H as [Hm Hb].
  exists (firstn (length a) out),
         (firstn (length mid) (skipn (length a) out)),
         (skipn (length mid) (skipn (length a) out)).
  repeat split; try apply Ha; try apply Hm; try apply Hb.
  now rewrite !firstn_skipn.
Qed.

Lemma all_x_repeat (l : text) :
  (forall p, p < length l -> nth_error l p = Some (chr "x")) ->
  l = repeat (chr "x") (length l).
Proof.
  induction l as [|c l IH]; intros H; simpl; [reflexivity|].
  f_equal.
  - specialize (H 0 ltac:(simpl; lia)). simpl in H. congruence.
  - apply IH. intros p Hp. apply (H (S p)). simpl. lia.
Qed.

(** ** The matcher against the declarative reading *)

Section MatcherTheory.

Variable ucd : UnicodeData.
Variable s : text.

Lemma iter_mono (R R' : nat -> nat -> Prop) c i j :
  (forall a b, R a b -> R' a b) -> iter R c i j -> iter R' c i j.
Proof.
  intros HR. revert i. induction c as [|c IH]; intros i; simpl; [auto|].
  intros (j1 & H1 & H2). exists j1. auto.
Qed.

Lemma iter_app (R : nat -> nat -> Prop) c1 c2 i j k :
  iter R c1 i j -> iter R c2 j k -> iter R (c1 + c2) i k.
Proof.
  revert i. induction c1 as [|c1 IH]; intros i; simpl.
  - now intros ->.
  - intros (j1 & H1 & H2) H3. exists j1. auto.
Qed.

(** A match moves forward, by at least [min_len] characters, and never
    past the end of the text once it has consumed something. *)
Lemma Matches_bounds r : forall i j,
  Matches ucd s r i j -> i + min_len r <= j /\ (i < j -> j <= length s).
Proof.
  induction r as [cls| |a IHa b IHb|a IHa lo hi]; intros i j; simpl.
  - intros (c & Hc & _ & ->). split; [lia|]. intros _.
    assert (i < length s) by (apply nth_error_Some; rewrite Hc; discriminate).
    lia.
  - intros [_ ->]. lia.
  - intros (j1 & Ha & Hb).
    destruct (IHa _ _ Ha) as [Ha1 Ha2], (IHb _ _ Hb) as [Hb1 Hb2].
    split; [lia|]. intros Hij.
    destruct (Nat.eq_dec j1 j) as [->|Hne]; [apply Ha2; lia|apply Hb2; lia].
  - intros (c & Hlo & _ & Hit).
    assert (H : i + c * min_len a <= j /\ (i < j -> j <= length s)).
    { clear Hlo. revert i Hit. induction c as [|c IHc]; intros i; simpl.
      - intros ->. lia.
      - intros (j1 & H1 & H2).
        destruct (IHa _ _ H1) as [Ha1 Ha2], (IHc _ H2) as [Hc1 Hc2].
        split; [lia|]. intros Hij.
        destruct (Nat.eq_dec j1 j) as [->|Hne]; [apply Ha2; lia|apply Hc2; lia]. }
    destruct H as [H1 H2]. split; [|exact H2].
    assert (lo * min_len a <= c * min_len a) by (apply Nat.mul_le_mono_r; lia).
    lia.
Qed.

Lemma rep_sound (ma : nat -> (nat -> option nat) -> option nat)
    (Ra : nat -> nat -> Prop) lo hi :
  (forall i k e, ma i k = Some e -> exists j, Ra i j /\ k j = Some e) ->
  forall fuel n i k e,
    within hi n ->
    rep ma lo hi fuel n i k = Some e ->
    exists c j, iter Ra c i j /\ lo <= n + c /\ within hi (n + c)
                /\ k j = Some e.
Proof.
  intros Hma.
  assert (Hstop : forall n i (k : nat -> option nat) e, within hi n ->
            (if lo <=? n then k i else None) = Some e ->
            exists c j, iter Ra c i j /\ lo <= n + c /\ within hi (n + c)
                        /\ k j = Some e).
  { intros n i k e Hn H. destruct (Nat.leb_spec lo n); [|discriminate].
    exists 0, i. rewrite Nat.add_0_r. simpl. auto. }
  induction fuel as [|f IH]; intros n i k e Hn; simpl; [now apply Hstop|].
  destruct (below hi n) eqn:Hb; [|now apply Hstop].
  destruct (ma i (fun j => rep ma lo hi f (S n) j k)) as [e'|] eqn:Hm;
    [|now apply Hstop].
  intros [= ->].
  destruct (Hma _ _ _ Hm) as (j1 & H1 & H2).
  assert (Hn' : within hi (S n)).
  { destruct hi as [h|]; simpl in *; [|exact I].
    apply Nat.ltb_lt in Hb. lia. }
  destruct (IH _ _ _ _ Hn' H2) as (c & j & Hit & Hlo & Hhi & Hk).
  exists (S c), j. replace (n + S c) with (S n + c) by lia.
  repeat split; auto. simpl. eauto.
Qed.

(** Soundness: what the matcher returns is the end of a match. *)
Lemma m_sound r : forall i k e,
  m ucd s r i k = Some e ->
  exists j, Matches ucd s r i j /\ k j = Some e.
Proof.
  induction r as [cls| |a IHa b IHb|a IHa lo hi]; intros i k e; simpl.
  - destruct (nth_error s i) as [c|] eqn:Hc; [|discriminate].
    destruct (cls c) eqn:Hcls; [|discriminate].
    intros H. exists (S i). split; [|exact H]. exists c. auto.
  - destruct (at_boundary ucd s i) eqn:Hb; [|discriminate].
    intros H. exists i. auto.
  - intros H. destruct (IHa _ _ _ H) as (j1 & H1 & H2).
    destruct (IHb _ _ _ H2) as (j & H3 & H4). exists j. eauto.
  - intros H.
    destruct (rep_sound (m ucd s a) (Matches ucd s a) lo hi IHa
                (length s) 0 i k e) as (c & j & Hit & Hlo & Hhi & Hk).
    + destruct hi; simpl; [lia|exact I].
    + exact H.
    + exists j. split; [|exact Hk]. exists c. auto.
Qed.

Lemma rep_complete (ma : nat -> (nat -> option nat) -> option nat)
    (Ra : nat -> nat -> Prop) lo hi :
  (forall i j k, Ra i j -> k j <> None -> ma i k <> None) ->
  forall c fuel n i j k,
    iter Ra c i j -> lo <= n + c -> within hi (n + c) -> c <= fuel ->
    k j <> None ->
    rep ma lo hi fuel n i k <> None.
Proof.
  intros Hma. induction c as [|c IH]; intros fuel n i j k; simpl.
  - intros -> Hlo _ _ Hk.
    assert (Hstop : (if lo <=? n then k j else None) <> None).
    { destruct (Nat.leb_spec lo n); [exact Hk|lia]. }
    destruct fuel as [|f]; simpl; [exact Hstop|].
    destruct (below hi n); [|exact Hstop].
    destruct (ma j _); [discriminate|exact Hstop].
  - intros (j1 & H1 & H2) Hlo Hhi Hf Hk.
    destruct fuel as [|f]; [lia|]. simpl.
    assert (Hb : below hi n = true).
    { destruct hi as [h|]; simpl in *; [|reflexivity].
      apply Nat.ltb_lt. lia. }
    rewrite Hb.
    assert (Hne : ma i (fun j0 => rep ma lo hi f (S n) j0 k) <> None).
    { apply Hma with j1; [exact H1|].
      apply IH with j; auto; try lia.
      now replace (S n + c) with (n + S c) by lia. }
    destruct (ma i _); [discriminate|contradiction].
Qed.

Lemma iter_bounds (R : nat -> nat -> Prop) c i j :
  (forall a b, R a b -> a < b /\ b <= length s) ->
  iter R c i j -> i + c <= j /\ (0 < c -> j <= length s).
Proof.
  intros HR. revert i. induction c as [|c IH]; intros i; simpl.
  - intros ->. lia.
  - intros (j1 & H1 & H2). destruct (HR _ _ H1), (IH _ H2).
    split; [lia|]. intros _. destruct c; simpl in H2; [subst; lia|lia].
Qed.

(** Completeness: where there is a match that the continuation accepts,
    the matcher finds one. *)
Lemma m_complete r :
  progressive r = true ->
  forall i j k,
    Matches ucd s r i j -> k j <> None -> m ucd s r i k <> None.
Proof.
  induction r as [cls| |a IHa b IHb|a IHa lo hi]; intros Hp i j k; simpl.
  - intros (c & Hc & Hcls & ->) Hk. now rewrite Hc, Hcls.
  - intros [Hb ->] Hk. now rewrite Hb.
  - simpl in Hp. apply andb_true_iff in Hp as [Hpa Hpb].
    intros (j1 & H1 & H2) Hk.
    apply IHa with j1; auto. apply IHb with j; auto.
  - simpl in Hp. apply andb_true_iff in Hp as [Hlen Hpa].
    apply Nat.ltb_lt in Hlen.
    intros (c & Hlo & Hhi & Hit) Hk.
    apply rep_complete with (Ra := Matches ucd s a) (c := c) (j := j);
      auto; [now apply IHa|].
    assert (HR : forall x y, Matches ucd s a x y -> x < y /\ y <= length s).
    { intros x y Hxy. destruct (Matches_bounds _ _ _ Hxy) as [Hx Hy].
      split; [lia|]. apply Hy. lia. }
    destruct (iter_bounds _ c i j HR Hit) as [H1 H2].
    destruct c; [lia|]. specialize (H2 ltac:(lia)). lia.
Qed.

(** [pattern.match] succeeds at [i] exactly when some match starts there. *)
Lemma match_at_Some r i e :
  match_at ucd s r i = Some e -> Matches ucd s r i e.
Proof.
  unfold match_at. intros H.
  destruct (m_sound _ _ _ _ H) as (j & Hj & [= ->]). exact Hj.
Qed.

Lemma match_at_None r i j :
  progressive r = true ->
  match_at ucd s r i = None -> ~ Matches ucd s r i j.
Proof.
  unfold match_at. intros Hp H Hm.
  apply (m_complete r Hp i j (fun j => Some j) Hm); [discriminate|exact H].
Qed.

End MatcherTheory.

(** ** The scan of [pattern.sub] *)

Section ScanTheory.

Variable ucd : UnicodeData.
Variable s : text.
Variable r : regex.

Lemma match_at_bounds b e :
  match_at ucd s r b = Some e -> b + min_len r <= e /\ (b < e -> e <= length s).
Proof. intros H. apply Matches_bounds with ucd, match_at_Some. exact H. Qed.

Lemma search_Some n i b e :
  search ucd s r n i = Some (b, e) ->
  i <= b <= i + n /\ match_at ucd s r b = Some e
  /\ forall p, i <= p < b -> match_at ucd s r p = None.
Proof.
  revert i. induction n as [|n IH]; intros i; simpl.
  - destruct (match_at ucd s r i) as [e'|] eqn:Hm; [|discriminate].
    intros [= <- <-]. repeat split; auto; try lia; intros p Hp; lia.
  - destruct (match_at ucd s r i) as [e'|] eqn:Hm.
    + intros [= <- <-]. repeat split; auto; try lia; intros p Hp; lia.
    + intros H. destruct (IH _ H) as (H1 & H2 & H3).
      repeat split; try lia; auto.
      intros p Hp. destruct (Nat.eq_dec p i) as [->|]; [exact Hm|].
      apply H3. lia.
Qed.

Lemma search_None n i :
  search ucd s r n i = None ->
  forall p, i <= p <= i + n -> match_at ucd s r p = None.
Proof.
  revert i. induction n as [|n IH]; intros i; simpl.
  - destruct (match_at ucd s r i) eqn:Hm; [discriminate|].
    intros _ p Hp. now replace p with i by lia.
  - destruct (match_at ucd s r i) eqn:Hm; [discriminate|].
    intros H p Hp. destruct (Nat.eq_dec p i) as [->|]; [exact Hm|].
    apply (IH _ H). lia.
Qed.

(** Every span of the scan is a match, lies in the text and begins at or
    after the position the scan started from. *)
Lemma find_loop_spans fuel : forall i b e,
  In (b, e) (find_loop ucd s r fuel i) ->
  i <= b /\ b < e /\ e <= length s /\ match_at ucd s r b = Some e.
Proof.
  induction fuel as [|f IH]; intros i b e; simpl; [tauto|].
  destruct (search ucd s r (length s - i) i) as [[b0 e0]|] eqn:Hs;
    [|simpl; tauto].
  destruct (Nat.ltb_spec b0 e0) as [Hlt|]; [|simpl; tauto].
  destruct (search_Some _ _ _ _ Hs) as (H1 & H2 & _).
  destruct (match_at_bounds _ _ H2) as [_ H3].
  intros [[= <- <-]|Hin].
  - repeat split; auto; lia.
  - destruct (IH _ _ _ Hin) as (H4 & H5 & H6 & H7). repeat split; auto; lia.
Qed.

Lemma find_loop_before fuel i p :
  p < i -> covered (find_loop ucd s r fuel i) p = false.
Proof.
  intros Hp. unfold covered.
  destruct (existsb _ _) eqn:E; [|reflexivity].
  apply existsb_exists in E as ([b e] & Hin & Hbe). simpl in Hbe.
  apply find_loop_spans in Hin.
  apply andb_true_iff in Hbe as [H1 H2].
  apply Nat.leb_le in H1. lia.
Qed.

Lemma find_loop_ordered fuel : forall i,
  spans_ordered i (find_loop ucd s r fuel i).
Proof.
  induction fuel as [|f IH]; intros i; simpl; [exact I|].
  destruct (search ucd s r (length s - i) i) as [[b e]|] eqn:Hs; [|exact I].
  destruct (Nat.ltb_spec b e) as [Hlt|]; [|exact I].
  destruct (search_Some _ _ _ _ Hs) as (H1 & _). simpl. repeat split; auto.
  lia.
Qed.

(** [pattern.sub] with [_mask_match] writes [x] over the spans of the scan
    and copies the rest. *)
Lemma sub_loop_mask fuel : forall i,
  i <= length s ->
  sub_loop ucd s r _mask_match fuel i
  = mask_from (find_loop ucd s r fuel i) i (skipn i s).
Proof.
  induction fuel as [|f IH]; intros i Hi; simpl.
  - symmetry. apply mask_from_none. reflexivity.
  - destruct (search ucd s r (length s - i) i) as [[b e]|] eqn:Hs.
    2:{ symmetry. apply mask_from_none. reflexivity. }
    destruct (Nat.ltb_spec b e) as [Hlt|].
    2:{ symmetry. apply mask_from_none. reflexivity. }
    destruct (search_Some _ _ _ _ Hs) as (H1 & H2 & _).
    destruct (match_at_bounds _ _ H2) as [_ H3]. specialize (H3 Hlt).
    rewrite (skipn_slice s i b) by lia.
    rewrite (skipn_slice s b e) by lia.
    rewrite !mask_from_app, !length_slice by lia.
    replace (i + (b - i)) with b by lia.
    replace (b + (e - b)) with e by lia.
    f_equal; [|f_equal].
    + symmetry. apply mask_from_none. intros p Hp.
      rewrite length_slice in Hp by lia. simpl.
      rewrite find_loop_before by lia.
      destruct (Nat.leb_spec b p); [lia|reflexivity].
    + unfold _mask_match. symmetry. apply mask_from_all. intros p Hp.
      rewrite length_slice in Hp by lia. simpl.
      destruct (Nat.leb_spec b p); [|lia].
      destruct (Nat.ltb_spec p e); [reflexivity|lia].
    + rewrite IH by lia. apply mask_from_ext. intros p Hp. simpl.
      destruct (Nat.ltb_spec p e); [lia|]. now rewrite andb_false_r.
Qed.

(** With enough fuel the scan covers every position at which a match
    starts, when the pattern cannot match the empty string. *)
Lemma find_loop_covers :
  0 < min_len r ->
  forall fuel i p e,
    length s - i <= fuel -> i <= p ->
    match_at ucd s r p = Some e ->
    covered (find_loop ucd s r fuel i) p = true.
Proof.
  intros Hne. induction fuel as [|f IH]; intros i p e Hf Hip Hm.
  - destruct (match_at_bounds _ _ Hm) as [H1 H2]. lia.
  - simpl. destruct (match_at_bounds _ _ Hm) as [H1 H2].
    destruct (search ucd s r (length s - i) i) as [[b0 e0]|] eqn:Hs.
    + destruct (search_Some _ _ _ _ Hs) as (H3 & H4 & H5).
      destruct (match_at_bounds _ _ H4) as [H6 H7].
      destruct (Nat.ltb_spec b0 e0) as [Hlt|]; [|lia].
      destruct (Nat.lt_ge_cases p b0) as [Hpb|Hpb].
      { rewrite H5 in Hm by lia. discriminate. }
      simpl. destruct (Nat.leb_spec b0 p); [|lia].
      destruct (Nat.ltb_spec p e0); [reflexivity|]. simpl.
      apply IH with e; auto; lia.
    + rewrite (search_None _ _ Hs) in Hm by lia. discriminate.
Qed.

End ScanTheory.

Section SubTheory.

Variable ucd : UnicodeData.

Lemma re_sub_mask r t :
  re_sub ucd r _mask_match t = mask_spans (finditer ucd r t) t.
Proof. unfold re_sub, mask_spans, finditer. now rewrite sub_loop_mask by lia. Qed.

Lemma re_sub_length r t : length (re_sub ucd r _mask_match t) = length t.
Proof. rewrite re_sub_mask. apply mask_from_length. Qed.

Lemma nth_error_re_sub r t p :
  nth_error (re_sub ucd r _mask_match t) p
  = match nth_error t p with
    | Some c => Some (if covered (finditer ucd r t) p then chr "x" else c)
    | None => None
    end.
Proof. rewrite re_sub_mask. apply nth_error_mask_from. Qed.

(** A covered position lies in a span that is a match. *)
Lemma covered_span r t p :
  covered (finditer ucd r t) p = true ->
  exists b e, b <= p < e /\ e <= length t /\ match_at ucd t r b = Some e.
Proof.
  unfold covered. intros E.
  apply existsb_exists in E as ([b e] & Hin & Hbe). simpl in Hbe.
  apply find_loop_spans in Hin.
  apply andb_true_iff in Hbe as [H1 H2].
  apply Nat.leb_le in H1. apply Nat.ltb_lt in H2.
  exists b, e. intuition.
Qed.

(** A position where a match starts is covered. *)
Lemma match_covered r t p e :
  0 < min_len r ->
  match_at ucd t r p = Some e -> covered (finditer ucd r t) p = true.
Proof.
  intros Hne Hm. apply find_loop_covers with e; auto; lia.
Qed.

End SubTheory.

(** ** The masker on every text *)

Section MaskerTheory.

Variable ucd : UnicodeData.

Lemma anonymise_text_passes t :
  anonymise_text ucd t
  = re_sub ucd host_re _mask_match
      (re_sub ucd (port_re ucd) _mask_match
         (re_sub ucd mac_re _mask_match
            (re_sub ucd email_re _mask_match
               (re_sub ucd (url_re ucd) _mask_match
                  (re_sub ucd (ipv4_re ucd) _mask_match t))))).
Proof. reflexivity. Qed.

Lemma anonymise_text_length t : length (anonymise_text ucd t) = length t.
Proof. rewrite anonymise_text_passes. now rewrite !re_sub_length. Qed.

(** One pass leaves a character as it is or writes [x] over it. *)
Lemma re_sub_masked_of r t : masked_of t (re_sub ucd r _mask_match t).
Proof.
  split; [apply re_sub_length|].
  intros p c H. rewrite nth_error_re_sub, H.
  destruct (covered _ p); auto.
Qed.

Lemma anonymise_text_masked_of t : masked_of t (anonymise_text ucd t).
Proof.
  rewrite anonymise_text_passes.
  repeat (eapply masked_of_trans; [|apply re_sub_masked_of]).
  apply masked_of_refl.
Qed.

(** A pass on a text the pattern finds nothing in returns the text. *)
Lemma re_sub_no_match r repl t :
  search ucd t r (length t) 0 = None -> re_sub ucd r repl t = t.
Proof.
  intros H. unfold re_sub.
  assert (G : forall fuel, sub_loop ucd t r repl fuel 0 = t).
  { intros [|f]; cbn [sub_loop]; [reflexivity|].
    now rewrite Nat.sub_0_r, H. }
  apply G.
Qed.

(** A text in which no pattern finds anything goes through the six passes
    unchanged. *)
Lemma no_match_fixed (t : text) :
  (forall r, In r (_compile_patterns ucd) ->
             search ucd t r (length t) 0 = None) ->
  anonymise_text ucd t = t.
Proof.
  intros H. rewrite anonymise_text_passes.
  rewrite (re_sub_no_match (ipv4_re ucd)) by (apply H; simpl; tauto).
  rewrite (re_sub_no_match (url_re ucd)) by (apply H; simpl; tauto).
  rewrite (re_sub_no_match email_re) by (apply H; simpl; tauto).
  rewrite (re_sub_no_match mac_re) by (apply H; simpl; tauto).
  rewrite (re_sub_no_match (port_re ucd)) by (apply H; simpl; tauto).
  apply re_sub_no_match. apply H. simpl. tauto.
Qed.

End MaskerTheory.

(** ** The shape of the matches of each pattern *)

Section ShapeTheory.

Variable ucd : UnicodeData.
Variable s : text.

Local Abbreviation Matches := (Matches ucd s).
Local Abbreviation at_boundary := (at_boundary ucd s).
Local Abbreviation char_in := (char_in s).
Local Abbreviation run := (run s).
Local Abbreviation dgroup := (dgroup ucd s).
Local Abbreviation dot_at := (dot_at s).
Local Abbreviation ipv4_shape := (ipv4_shape ucd s).

Lemma run_nil cls i : run cls i i.
Proof. intros p Hp. lia. Qed.

Lemma run_app cls i j k : run cls i j -> run cls j k -> run cls i k.
Proof.
  intros H1 H2 p Hp. destruct (Nat.lt_ge_cases p j); [apply H1|apply H2]; lia.
Qed.

Lemma run_sub cls i j i' j' : run cls i j -> i <= i' -> j' <= j -> run cls i' j'.
Proof. intros H Hi Hj p Hp. apply H. lia. Qed.

Lemma run_weaken (cls cls' : char -> bool) i j :
  (forall c, cls c = true -> cls' c = true) -> run cls i j -> run cls' i j.
Proof.
  intros Hc H p Hp. destruct (H p Hp) as (c & H1 & H2). exists c. auto.
Qed.

Lemma iter_cls cls c i j :
  iter (Matches (Cls cls)) c i j <-> j = i + c /\ run cls i j.
Proof.
  revert i. induction c as [|c IH]; intros i; simpl.
  - split.
    + intros ->. split; [lia|apply run_nil].
    + intros [-> _]. lia.
  - split.
    + intros (j1 & (ch & Hch & Hcls & ->) & Hit).
      apply IH in Hit as [-> Hrun]. split; [lia|].
      intros p Hp. destruct (Nat.eq_dec p i) as [->|].
      * exists ch. auto.
      * apply Hrun. lia.
    + intros [-> Hrun]. exists (S i). split.
      * destruct (Hrun i ltac:(lia)) as (ch & Hch & Hcls). exists ch. auto.
      * apply IH. split; [lia|]. intros p Hp. apply Hrun. lia.
Qed.

Lemma Matches_rep_cls cls lo hi i j :
  Matches (Rep (Cls cls) lo hi) i j
  <-> i <= j /\ lo <= j - i /\ within hi (j - i) /\ run cls i j.
Proof.
  simpl. split.
  - intros (c & Hlo & Hhi & Hit). apply iter_cls in Hit as [-> Hrun].
    replace (i + c - i) with c by lia. repeat split; auto. lia.
  - intros (Hij & Hlo & Hhi & Hrun). exists (j - i). repeat split; auto.
    apply iter_cls. split; [lia|exact Hrun].
Qed.

Lemma Matches_lit a i j :
  Matches (lit a) i j <-> nth_error s i = Some (chr a) /\ j = S i.
Proof.
  unfold lit, is_chr. simpl. split.
  - intros (c & Hc & Heq & ->). apply N.eqb_eq in Heq. subst. auto.
  - intros [Hc ->]. exists (chr a). rewrite N.eqb_refl. auto.
Qed.

(** *** What the syntax of a pattern says of its matches *)

Lemma iter_last (R : nat -> nat -> Prop) c i j :
  iter R (S c) i j -> exists j1, iter R c i j1 /\ R j1 j.
Proof.
  revert i. induction c as [|c IH]; intros i.
  - simpl. intros (j1 & H1 & ->). exists i. auto.
  - intros (j1 & H1 & H2). apply IH in H2 as (j2 & H3 & H4).
    exists j2. split; [|exact H4]. exists j1. auto.
Qed.

Lemma Matches_classes P r : forall i j,
  classes_in P r -> Matches r i j -> run P i j.
Proof.
  induction r as [cls| |a IHa b IHb|a IHa lo hi]; intros i j; simpl.
  - intros Hc (c & H1 & H2 & ->) p Hp. replace p with i by lia.
    exists c. auto.
  - intros _ [_ ->]. apply run_nil.
  - intros [Ha Hb] (j1 & H1 & H2). eapply run_app; eauto.
  - intros Ha (c & _ & _ & Hit). revert i Hit.
    induction c as [|c IHc]; intros i; simpl.
    + intros ->. apply run_nil.
    + intros (j1 & H1 & H2). eapply run_app; eauto.
Qed.

Lemma Matches_first P r : forall i j,
  first_in P r -> Matches r i j -> char_in P i.
Proof.
  induction r as [cls| |a IHa b IHb|a IHa lo hi]; intros i j.
  - simpl. intros Hc (c & H1 & H2 & ->). exists c. auto.
  - simpl. tauto.
  - intros Hf (j1 & H1 & H2).
    destruct a; try (eapply IHa; [exact Hf|exact H1]).
    destruct H1 as [_ ->]. eapply IHb; [exact Hf|exact H2].
  - simpl. intros [Hlo Hf] (c & Hc & _ & Hit).
    destruct c as [|c]; [lia|]. destruct Hit as (j1 & H1 & _).
    eapply IHa; eauto.
Qed.

Lemma Matches_last P r : forall i j,
  last_in P r -> Matches r i j -> i < j /\ char_in P (j - 1).
Proof.
  induction r as [cls| |a IHa b IHb|a IHa lo hi]; intros i j.
  - simpl. intros Hc (c & H1 & H2 & ->). split; [lia|].
    replace (S i - 1) with i by lia. exists c. auto.
  - simpl. tauto.
  - intros Hl (j1 & H1 & H2).
    pose proof (Matches_bounds ucd s a i j1 H1) as [Ba _].
    pose proof (Matches_bounds ucd s b j1 j H2) as [Bb _].
    destruct b; try (destruct (IHb j1 j Hl H2); split; [lia|assumption]).
    destruct H2 as [_ ->]. apply IHa; assumption.
  - simpl. intros [Hlo Hl] (c & Hc & _ & Hit).
    destruct c as [|c]; [lia|]. apply iter_last in Hit as (j1 & H1 & H2).
    destruct (IHa j1 j Hl H2) as [H3 H4]. split; [|exact H4].
    assert (i <= j1); [|lia].
    clear - H1. revert i H1. induction c as [|c IHc]; intros i; simpl.
    + intros ->. lia.
    + intros (k & Hk & Hit). apply IHc in Hit.
      pose proof (Matches_bounds ucd s a i k Hk). lia.
Qed.

Lemma Matches_must P r : forall i j,
  must_have P r -> Matches r i j -> exists p, i <= p < j /\ char_in P p.
Proof.
  induction r as [cls| |a IHa b IHb|a IHa lo hi]; intros i j; simpl.
  - intros Hc (c & H1 & H2 & ->). exists i. split; [lia|]. exists c. auto.
  - tauto.
  - intros Hm (j1 & H1 & H2).
    pose proof (Matches_bounds ucd s a i j1 H1) as [Ba _].
    pose proof (Matches_bounds ucd s b j1 j H2) as [Bb _].
    destruct Hm as [Hm|Hm].
    + destruct (IHa _ _ Hm H1) as (p & Hp & Hc). exists p. split; [lia|auto].
    + destruct (IHb _ _ Hm H2) as (p & Hp & Hc). exists p. split; [lia|auto].
  - intros [Hlo Hm] (c & Hc & _ & Hit).
    destruct c as [|c]; [lia|]. destruct Hit as (j1 & H1 & H2).
    destruct (IHa _ _ Hm H1) as (p & Hp & Hcp). exists p. split; [|exact Hcp].
    assert (j1 <= j); [|lia].
    clear - H2. revert j1 H2. induction c as [|c IHc]; intros i; simpl.
    + intros ->. lia.
    + intros (k & Hk & Hit). apply IHc in Hit.
      pose proof (Matches_bounds ucd s a i k Hk). lia.
Qed.

Lemma Matches_starts r i j :
  starts_bnd r = true -> Matches r i j -> at_boundary i = true.
Proof.
  destruct r as [cls| |a b|a lo hi]; simpl; try discriminate.
  - intros _ [H _]. exact H.
  - destruct a; try discriminate. intros _ (j1 & [H _] & _). exact H.
Qed.

Lemma Matches_ends r : forall i j,
  ends_bnd r = true -> Matches r i j -> at_boundary j = true.
Proof.
  induction r as [cls| |a IHa b IHb|a IHa lo hi]; intros i j; simpl;
    try discriminate.
  - intros _ [H ->]. exact H.
  - intros He (j1 & _ & H2). eapply IHb; eauto.
Qed.

(** *** IPv4 *)

Lemma Matches_dgroup i j :
  Matches (Rep (Cls (is_digit ucd)) 1 (Some 3)) i j <-> dgroup i j.
Proof.
  rewrite Matches_rep_cls. unfold dgroup. simpl. intuition lia.
Qed.

Lemma Matches_dgroup_dot i j :
  Matches (Rep (Cls (is_digit ucd)) 1 (Some 3) +++ lit ".") i j
  <-> exists j1, dgroup i j1 /\ dot_at j1 /\ j = S j1.
Proof.
  simpl. split.
  - intros (j1 & H1 & H2). apply Matches_dgroup in H1.
    apply Matches_lit in H2. exists j1. tauto.
  - intros (j1 & H1 & H2 & ->). exists j1. split.
    + now apply Matches_dgroup.
    + now apply Matches_lit.
Qed.

Lemma ipv4_Matches b e : Matches (ipv4_re ucd) b e <-> ipv4_shape b e.
Proof.
  unfold ipv4_re, ipv4_shape. split.
  - intros (j0 & [Hb ->] & j & (c & Hlo & Hhi & Hit) & j' & Hg & [He ->]).
    simpl in Hhi. assert (c = 3) by lia. subst c.
    destruct Hit as (k1 & G1 & k2 & G2 & k3 & G3 & ->).
    apply Matches_dgroup_dot in G1 as (j1 & A1 & B1 & ->).
    apply Matches_dgroup_dot in G2 as (j2 & A2 & B2 & ->).
    apply Matches_dgroup_dot in G3 as (j3 & A3 & B3 & ->).
    apply Matches_dgroup in Hg.
    repeat split; auto. exists j1, j2, j3. tauto.
  - intros (Hb & He & j1 & j2 & j3 & A1 & B1 & A2 & B2 & A3 & B3 & A4).
    exists b. split; [split; auto|].
    exists (S j3). split.
    + exists 3. repeat split; simpl; auto.
      exists (S j1). split; [apply Matches_dgroup_dot; eauto|].
      exists (S j2). split; [apply Matches_dgroup_dot; eauto|].
      exists (S j3). split; [apply Matches_dgroup_dot; eauto|reflexivity].
    + exists e. split; [now apply Matches_dgroup|split; auto].
Qed.

Lemma digit_is_digit_or_dot c : is_digit ucd c = true -> digit_or_dot ucd c = true.
Proof. unfold digit_or_dot. now intros ->. Qed.

Lemma char_in_dot p : dot_at p -> char_in (digit_or_dot ucd) p.
Proof. intros H. exists (chr "."). split; [exact H|reflexivity]. Qed.

(** An IPv4 match consists of digits and dots. *)
Lemma ipv4_chars b e :
  ipv4_shape b e -> run (digit_or_dot ucd) b e.
Proof.
  intros (_ & _ & j1 & j2 & j3 & [L1 A1] & B1 & [L2 A2] & B2 & [L3 A3] & B3
          & [L4 A4]) p Hp.
  assert (D : forall i j, run (is_digit ucd) i j -> i <= p < j ->
                          char_in (digit_or_dot ucd) p).
  { intros i j Hr Hij. destruct (Hr p Hij) as (c & H1 & H2).
    exists c. split; [exact H1|now apply digit_is_digit_or_dot]. }
  destruct (Nat.lt_ge_cases p j1); [apply (D _ _ A1); lia|].
  destruct (Nat.eq_dec p j1) as [->|]; [now apply char_in_dot|].
  destruct (Nat.lt_ge_cases p j2); [apply (D _ _ A2); lia|].
  destruct (Nat.eq_dec p j2) as [->|]; [now apply char_in_dot|].
  destruct (Nat.lt_ge_cases p j3); [apply (D _ _ A3); lia|].
  destruct (Nat.eq_dec p j3) as [->|]; [now apply char_in_dot|].
  apply (D _ _ A4); lia.
Qed.

(** *** URL *)

Lemma url_Matches b e :
  Matches (url_re ucd) b e
  <-> exists k, url_shape ucd s b k /\ k < e /\ run (cls_nonspace ucd) k e.
Proof.
  unfold url_re, url_shape, lit_at, plus. split.
  - intros (j0 & [Hb ->] & j1 & Hh & j2 & Ht1 & j3 & Ht2 & j4 & Hp & j5 & Hs
            & j6 & Hc & j7 & Hs1 & j8 & Hs2 & Hplus).
    apply Matches_lit in Hh as [Hh ->], Ht1 as [Ht1 ->], Ht2 as [Ht2 ->],
      Hp as [Hp ->], Hc as [Hc ->], Hs1 as [Hs1 ->], Hs2 as [Hs2 ->].
    apply Matches_rep_cls in Hplus as (H1 & H2 & _ & H3).
    destruct Hs as (c & _ & Hc1 & Hit). simpl in Hc1.
    replace (b + 1) with (S b) by lia.
    replace (b + 2) with (S (S b)) by lia.
    replace (b + 3) with (S (S (S b))) by lia.
    destruct c as [|[|c]]; [| |lia].
    + simpl in Hit. subst j5. exists (b + 7).
      replace (b + 4) with (S (S (S (S b)))) by lia.
      replace (b + 5) with (S (S (S (S (S b))))) by lia.
      replace (b + 6) with (S (S (S (S (S (S b)))))) by lia.
      replace (b + 7) with (S (S (S (S (S (S (S b))))))) by lia.
      repeat split; auto; try lia; left; repeat split; auto; lia.
    + destruct Hit as (j & Hs & ->). apply Matches_lit in Hs as [Hs ->].
      exists (b + 8).
      replace (b + 4) with (S (S (S (S b)))) by lia.
      replace (b + 5) with (S (S (S (S (S b))))) by lia.
      replace (b + 6) with (S (S (S (S (S (S b)))))) by lia.
      replace (b + 7) with (S (S (S (S (S (S (S b))))))) by lia.
      replace (b + 8) with (S (S (S (S (S (S (S (S b)))))))) by lia.
      repeat split; auto; try lia; right; repeat split; auto; lia.
  - intros (k & (Hb & Hh & Ht1 & Ht2 & Hp & Hrest) & Hk & Hrun).
    exists b. split; [split; auto|].
    exists (b + 1). split; [apply Matches_lit; split; [auto|lia]|].
    exists (b + 2). split; [apply Matches_lit; split; [auto|lia]|].
    exists (b + 3). split; [apply Matches_lit; split; [auto|lia]|].
    exists (b + 4). split; [apply Matches_lit; split; [auto|lia]|].
    destruct Hrest as [(-> & Hc & Hs1 & Hs2)|(-> & Hs & Hc & Hs1 & Hs2)].
    + exists (b + 4). split; [exists 0; simpl; auto|].
      exists (b + 5). split; [apply Matches_lit; split; [auto|lia]|].
      exists (b + 6). split; [apply Matches_lit; split; [auto|lia]|].
      exists (b + 7). split; [apply Matches_lit; split; [auto|lia]|].
      apply Matches_rep_cls. simpl. repeat split; auto; lia.
    + exists (b + 5). split.
      { exists 1. simpl. repeat split; auto.
        exists (b + 5). split; [apply Matches_lit; split; [auto|lia]|auto]. }
      exists (b + 6). split; [apply Matches_lit; split; [auto|lia]|].
      exists (b + 7). split; [apply Matches_lit; split; [auto|lia]|].
      exists (b + 8). split; [apply Matches_lit; split; [auto|lia]|].
      apply Matches_rep_cls. simpl. repeat split; auto; lia.
Qed.

End ShapeTheory.


(** ** Reading a text at a position *)

Section Positions.

Variable ucd : UnicodeData.

Lemma nth_error_skipn_add (t : text) i k :
  nth_error (skipn i t) k = nth_error t (i + k).
Proof.
  revert t. induction i as [|i IH]; intros [|c t]; simpl; auto.
  now destruct k.
Qed.

Lemma skipn_cons_inv (t : text) i c rest :
  skipn i t = c :: rest -> nth_error t i = Some c /\ skipn (S i) t = rest.
Proof.
  intros H. split.
  - rewrite <- (Nat.add_0_r i), <- nth_error_skipn_add, H. reflexivity.
  - replace (S i) with (1 + i) by lia. rewrite <- skipn_skipn, H. reflexivity.
Qed.

Lemma skipn_app_inv (t : text) i g rest :
  skipn i t = g ++ rest -> skipn (i + length g) t = rest.
Proof.
  intros H. rewrite Nat.add_comm, <- skipn_skipn, H.
  rewrite skipn_app, skipn_all, Nat.sub_diag. reflexivity.
Qed.

Lemma skipn_run (t : text) cls i g rest :
  skipn i t = g ++ rest -> forallb cls g = true ->
  run t cls i (i + length g).
Proof.
  intros H Hg p Hp. unfold char_in.
  replace p with (i + (p - i)) by lia.
  rewrite <- nth_error_skipn_add, H, nth_error_app1 by lia.
  destruct (nth_error g (p - i)) as [c|] eqn:Hc.
  - exists c. split; [reflexivity|].
    rewrite forallb_forall in Hg. apply Hg. eapply nth_error_In, Hc.
  - apply nth_error_None in Hc. lia.
Qed.

Lemma skipn_app_self (pre rest : text) : skipn (length pre) (pre ++ rest) = rest.
Proof. rewrite skipn_app, skipn_all, Nat.sub_diag. reflexivity. Qed.

(** The character before position [length pre] is the last one of [pre]. *)
Lemma before_app (pre rest : text) :
  before (pre ++ rest) (length pre)
  = match rev pre with [] => None | c :: _ => Some c end.
Proof.
  destruct (rev pre) as [|c r] eqn:Hr.
  - apply (f_equal (@rev _)) in Hr. rewrite rev_involutive in Hr. now subst.
  - apply (f_equal (@rev _)) in Hr. rewrite rev_involutive in Hr. subst pre.
    simpl. rewrite length_app. simpl.
    replace (length (rev r) + 1) with (S (length (rev r))) by lia.
    simpl. rewrite <- app_assoc. simpl.
    rewrite nth_error_app2, Nat.sub_diag by lia. reflexivity.
Qed.

Lemma before_pred (u : text) i : 0 < i -> before u i = nth_error u (i - 1).
Proof. destruct i; [lia|]. intros _. simpl. now rewrite Nat.sub_0_r. Qed.

Lemma digit_word c : is_digit ucd c = true -> is_word ucd c = true.
Proof.
  unfold is_digit, is_word, is_alnum.
  destruct (c <? 128)%N; intros ->; now rewrite ?orb_true_r.
Qed.

Lemma boundary_between_words (u : text) p :
  0 < p -> char_in u (is_word ucd) (p - 1) -> char_in u (is_word ucd) p ->
  at_boundary ucd u p = false.
Proof.
  intros Hp (c1 & H1 & W1) (c2 & H2 & W2). unfold at_boundary.
  rewrite before_pred, H1, H2 by lia. simpl. now rewrite W1, W2.
Qed.

Lemma char_in_both (u : text) (P Q : char -> bool) p :
  char_in u P p -> char_in u Q p ->
  exists c, nth_error u p = Some c /\ P c = true /\ Q c = true.
Proof.
  intros (c & Hc & HP) (c' & Hc' & HQ). rewrite Hc in Hc'.
  injection Hc' as <-. eauto.
Qed.

Lemma lit_char_in (u : text) a (P : char -> bool) p :
  lit_at u a p -> char_in u P p -> P (chr a) = true.
Proof.
  unfold lit_at. intros H (c & Hc & HP). rewrite H in Hc.
  injection Hc as <-. exact HP.
Qed.

Lemma lit_at_char_in (u : text) a (P : char -> bool) p :
  P (chr a) = true -> lit_at u a p -> char_in u P p.
Proof. intros HP H. exists (chr a). auto. Qed.

Lemma char_in_weaken (u : text) (P Q : char -> bool) p :
  (forall c, P c = true -> Q c = true) -> char_in u P p -> char_in u Q p.
Proof. intros H (c & Hc & HP). exists c. auto. Qed.

Lemma digit_not_dot : is_digit ucd (chr ".") = false.
Proof. reflexivity. Qed.

End Positions.

(** ** An IPv4-shaped substring in its context *)

Section Ipv4Embedded.

Variable ucd : UnicodeData.
Variables pre g1 g2 g3 g4 post : text.

Hypothesis G1 : digit_group ucd g1 = true.
Hypothesis G2 : digit_group ucd g2 = true.
Hypothesis G3 : digit_group ucd g3 = true.
Hypothesis G4 : digit_group ucd g4 = true.
Hypothesis Hpre : ends_clear ucd pre = true.
Hypothesis Hpost : starts_clear ucd post = true.

Local Abbreviation t := (pre ++ ipv4_text g1 g2 g3 g4 ++ post).
Local Abbreviation n := (length pre).
Local Abbreviation e := (length pre + length (ipv4_text g1 g2 g3 g4)).

Lemma digit_group_inv g :
  digit_group ucd g = true ->
  1 <= length g <= 3 /\ forallb (is_digit ucd) g = true.
Proof.
  unfold digit_group. intros H.
  apply andb_true_iff in H as [H H3]. apply andb_true_iff in H as [H1 H2].
  apply Nat.leb_le in H1, H2. auto.
Qed.

Lemma ipv4_text_length :
  length (ipv4_text g1 g2 g3 g4)
  = length g1 + length g2 + length g3 + length g4 + 3.
Proof. unfold ipv4_text. repeat (rewrite length_app; simpl). lia. Qed.

(** The groups and the dots, where they stand in the text. *)
Lemma emb_layout :
  let j1 := n + length g1 in
  let j2 := S j1 + length g2 in
  let j3 := S j2 + length g3 in
  run t (is_digit ucd) n j1 /\ dot_at t j1
  /\ run t (is_digit ucd) (S j1) j2 /\ dot_at t j2
  /\ run t (is_digit ucd) (S j2) j3 /\ dot_at t j3
  /\ run t (is_digit ucd) (S j3) e
  /\ e = S j3 + length g4
  /\ nth_error t e = nth_error post 0.
Proof.
  intros j1 j2 j3.
  destruct (digit_group_inv g1 G1) as [_ F1], (digit_group_inv g2 G2) as [_ F2],
           (digit_group_inv g3 G3) as [_ F3], (digit_group_inv g4 G4) as [_ F4].
  assert (H0 : skipn n t
               = g1 ++ chr "." :: g2 ++ chr "." :: g3 ++ chr "." :: g4 ++ post).
  { rewrite skipn_app_self. unfold ipv4_text.
    repeat (rewrite <- ?app_assoc, <- ?app_comm_cons). reflexivity. }
  pose proof (skipn_run _ _ _ _ _ H0 F1) as R1.
  apply skipn_app_inv, skipn_cons_inv in H0 as [D1 H0].
  pose proof (skipn_run _ _ _ _ _ H0 F2) as R2.
  apply skipn_app_inv, skipn_cons_inv in H0 as [D2 H0].
  pose proof (skipn_run _ _ _ _ _ H0 F3) as R3.
  apply skipn_app_inv, skipn_cons_inv in H0 as [D3 H0].
  pose proof (skipn_run _ _ _ _ _ H0 F4) as R4.
  apply skipn_app_inv in H0.
  assert (He : e = S j3 + length g4).
  { rewrite ipv4_text_length. unfold j3, j2, j1. lia. }
  repeat split; auto.
  - now rewrite He.
  - transitivity (nth_error (skipn (S j3 + length g4) t) 0).
    + rewrite nth_error_skipn_add. f_equal. lia.
    + unfold j3, j2, j1. now rewrite H0.
Qed.

Lemma group_end (u : text) i j j' :
  run u (is_digit ucd) i j -> dot_at u j ->
  run u (is_digit ucd) i j' -> dot_at u j' ->
  i <= j -> i <= j' -> j = j'.
Proof.
  intros R D R' D' Hj Hj'.
  assert (No : forall p, dot_at u p -> char_in u (is_digit ucd) p -> False).
  { intros p Hd (c & Hc & Hdig). unfold dot_at in Hd.
    rewrite Hd in Hc. injection Hc as <-. discriminate. }
  destruct (Nat.lt_trichotomy j j') as [H|[H|H]]; [|exact H|].
  - exfalso. apply (No j D), R'. lia.
  - exfalso. apply (No j' D'), R. lia.
Qed.

Lemma starts_clear_inv c :
  nth_error post 0 = Some c -> is_word ucd c = false.
Proof.
  unfold starts_clear in Hpost. destruct post as [|c0 l]; [discriminate|].
  simpl. intros [= <-]. now apply negb_true_iff.
Qed.

Lemma ends_clear_inv c :
  before t n = Some c -> is_word ucd c = false /\ c <> chr ".".
Proof.
  rewrite before_app. unfold ends_clear in Hpre.
  destruct (rev pre) as [|c0 l]; [discriminate|]. intros [= <-].
  apply andb_true_iff in Hpre as [H1 H2].
  apply negb_true_iff in H1, H2. split; [exact H1|].
  intros ->. discriminate.
Qed.

Lemma emb_sizes :
  1 <= length g1 <= 3 /\ 1 <= length g2 <= 3 /\ 1 <= length g3 <= 3
  /\ 1 <= length g4 <= 3.
Proof.
  destruct (digit_group_inv g1 G1), (digit_group_inv g2 G2),
           (digit_group_inv g3 G3), (digit_group_inv g4 G4). auto.
Qed.

(** The substring is a match of the IPv4 pattern where it stands. *)
Lemma emb_shape : ipv4_shape ucd t n e.
Proof.
  destruct emb_layout as (R1 & D1 & R2 & D2 & R3 & D3 & R4 & He & Hend).
  destruct emb_sizes as (S1 & S2 & S3 & S4).
  split; [|split].
  - unfold at_boundary.
    destruct (R1 n ltac:(lia)) as (c & Hc & Hd). rewrite Hc. simpl.
    rewrite (digit_word _ _ Hd).
    destruct (before t n) as [c0|] eqn:Hb; simpl; [|reflexivity].
    now rewrite (proj1 (ends_clear_inv _ Hb)).
  - unfold at_boundary. rewrite Hend, before_pred by lia.
    destruct (R4 (e - 1)) as (c & Hc & Hd); [lia|].
    rewrite Hc.
    destruct (nth_error post 0) as [c0|] eqn:Hp; simpl;
      rewrite (digit_word _ _ Hd); [|reflexivity].
    now rewrite (starts_clear_inv _ Hp).
  - exists (n + length g1), (S (n + length g1) + length g2),
           (S (S (n + length g1) + length g2) + length g3).
    unfold dgroup. rewrite He at 1. repeat split; auto; try lia.
Qed.

(** It is the only match that starts there. *)
Lemma emb_unique e' : ipv4_shape ucd t n e' -> e' = e.
Proof.
  destruct emb_layout as (R1 & D1 & R2 & D2 & R3 & D3 & R4 & He & Hend).
  destruct emb_sizes as (S1 & S2 & S3 & S4).
  intros (_ & Be & k1 & k2 & k3 & [L1 A1] & B1 & [L2 A2] & B2 & [L3 A3] & B3
          & [L4 A4]).
  assert (k1 = n + length g1) by (apply (group_end _ _ _ _ A1 B1 R1 D1); lia).
  subst k1.
  assert (k2 = S (n + length g1) + length g2)
    by (apply (group_end _ _ _ _ A2 B2 R2 D2); lia).
  subst k2.
  assert (k3 = S (S (n + length g1) + length g2) + length g3)
    by (apply (group_end _ _ _ _ A3 B3 R3 D3); lia).
  subst k3.
  set (j3 := S (S (n + length g1) + length g2) + length g3) in *.
  destruct (Nat.lt_trichotomy e' e) as [H|[H|H]]; [|exact H|]; exfalso.
  - unfold at_boundary in Be.
    destruct e' as [|e0]; [lia|]. simpl before in Be.
    destruct (A4 e0 ltac:(lia)) as (c & Hc & Hd).
    destruct (R4 (S e0) ltac:(lia)) as (c' & Hc' & Hd').
    rewrite Hc, Hc' in Be. simpl in Be.
    rewrite (digit_word _ _ Hd), (digit_word _ _ Hd') in Be. discriminate.
  - destruct (A4 e ltac:(lia)) as (c & Hc & Hd).
    rewrite Hend in Hc. apply starts_clear_inv in Hc.
    rewrite (digit_word _ _ Hd) in Hc. discriminate.
Qed.

Lemma ipv4_progressive : progressive (ipv4_re ucd) = true.
Proof. reflexivity. Qed.

Lemma ipv4_min_len : 0 < min_len (ipv4_re ucd).
Proof. simpl. lia. Qed.

Lemma emb_match : match_at ucd t (ipv4_re ucd) n = Some e.
Proof.
  destruct (match_at ucd t (ipv4_re ucd) n) as [e0|] eqn:Hm.
  - apply match_at_Some, ipv4_Matches, emb_unique in Hm. now subst.
  - exfalso. apply (match_at_None _ _ _ _ e ipv4_progressive Hm).
    apply ipv4_Matches, emb_shape.
Qed.

(** The scan of the IPv4 pass covers exactly the substring there. *)
Lemma emb_covered p :
  n <= p < e -> covered (finditer ucd (ipv4_re ucd) t) p = true.
Proof.
  intros Hp.
  pose proof (match_covered _ _ _ _ _ ipv4_min_len emb_match) as Hc.
  apply covered_In in Hc as (b & e0 & Hin & Hb).
  pose proof Hin as Hspan. apply find_loop_spans in Hspan as (_ & _ & _ & Hm).
  assert (b = n).
  { destruct (Nat.eq_dec b n) as [|Hne]; [assumption|exfalso].
    apply match_at_Some, ipv4_Matches, ipv4_chars in Hm.
    destruct n as [|n0] eqn:Hn; [lia|].
    destruct (Hm n0 ltac:(lia)) as (c & Hc & Hd).
    assert (Hbefore : before t (length pre) = Some c)
      by (rewrite Hn; exact Hc).
    destruct (ends_clear_inv _ Hbefore) as [Hw Hdot].
    unfold digit_or_dot in Hd. apply orb_true_iff in Hd as [Hd|Hd].
    - rewrite (digit_word _ _ Hd) in Hw. discriminate.
    - apply N.eqb_eq in Hd. contradiction. }
  subst b. rewrite emb_match in Hm. injection Hm as <-.
  apply covered_In. exists n, e. split; [exact Hin|lia].
Qed.

(** After the six passes the substring is a run of [x]. *)
Lemma emb_masked p :
  n <= p < e -> nth_error (anonymise_text ucd t) p = Some (chr "x").
Proof.
  intros Hp.
  assert (H1 : nth_error (re_sub ucd (ipv4_re ucd) _mask_match t) p
               = Some (chr "x")).
  { rewrite nth_error_re_sub, (emb_covered _ Hp).
    destruct (nth_error t p) eqn:Hc; [reflexivity|].
    apply nth_error_None in Hc. rewrite !length_app in Hc. lia. }
  rewrite anonymise_text_passes.
  do 5 apply (masked_of_keeps_x _ _ _ (re_sub_masked_of ucd _ _)).
  exact H1.
Qed.

End Ipv4Embedded.


(** ** Character classes *)

Section Classes.

Variable ucd : UnicodeData.

Ltac atoms :=
  repeat match goal with
  | |- context [in_range ?a ?b ?c] => destruct (in_range a b c)
  | |- context [is_chr ?a ?c] => destruct (is_chr a c)
  end; simpl; auto; try discriminate.

Lemma in_range_spec lo hi c :
  in_range lo hi c = true <-> (chr lo <= c <= chr hi)%N.
Proof.
  unfold in_range. rewrite andb_true_iff, !N.leb_le. tauto.
Qed.

Lemma is_chr_spec a c : is_chr a c = true <-> c = chr a.
Proof. unfold is_chr. apply N.eqb_eq. Qed.

Lemma cls_local_printable c : cls_local c = true -> printable c = true.
Proof.
  unfold cls_local, printable.
  rewrite !orb_true_iff, !in_range_spec, !is_chr_spec, andb_true_iff,
    !N.leb_le.
  unfold chr. simpl. lia.
Qed.

Lemma cls_domain_local c : cls_domain c = true -> cls_local c = true.
Proof. unfold cls_domain, cls_local. atoms. Qed.

Lemma cls_label_domain c : cls_label c = true -> cls_domain c = true.
Proof. unfold cls_domain, cls_label. atoms. Qed.

Lemma cls_alpha_label c : cls_alpha c = true -> cls_label c = true.
Proof. unfold cls_alpha, cls_label. atoms. Qed.

Lemma cls_hex_label c : cls_hex c = true -> cls_label c = true.
Proof.
  unfold cls_hex, cls_label.
  rewrite !orb_true_iff, !in_range_spec, !is_chr_spec.
  unfold chr. simpl. lia.
Qed.

Lemma printable_not_space c : printable c = true -> is_space ucd c = false.
Proof.
  unfold printable, is_space. rewrite andb_true_iff, !N.leb_le. intros [H1 H2].
  destruct (N.ltb_spec c 128); [|lia].
  apply orb_false_iff. split; apply andb_false_iff.
  - right. apply N.leb_gt. lia.
  - right. apply N.leb_gt. lia.
Qed.

Lemma printable_nonspace c : printable c = true -> cls_nonspace ucd c = true.
Proof. intros H. unfold cls_nonspace. now rewrite printable_not_space. Qed.

Lemma cls_label_word c :
  cls_label c = true -> c <> chr "-" -> is_word ucd c = true.
Proof.
  unfold cls_label, is_word, is_alnum. intros H Hne.
  rewrite !orb_true_iff, is_chr_spec in H.
  assert (G : in_range "a" "z" c = true \/ in_range "A" "Z" c = true
              \/ in_range "0" "9" c = true) by tauto.
  clear H.
  assert (Hc : (c < 128)%N).
  { rewrite !in_range_spec in G. unfold chr in *. simpl in *. lia. }
  apply N.ltb_lt in Hc. rewrite Hc.
  destruct G as [->|[->| ->]]; simpl; rewrite ?orb_true_r; reflexivity.
Qed.

Lemma cls_hex_word c : cls_hex c = true -> is_word ucd c = true.
Proof.
  intros H. apply cls_label_word; [now apply cls_hex_label|].
  intros ->. discriminate.
Qed.

Lemma nocase_spec a c :
  in_range "a" "z" (chr a) = true ->
  is_chr_nocase a c = true -> c = chr a \/ (c + 32 = chr a)%N.
Proof.
  unfold is_chr_nocase, ascii_lower. intros Ha. rewrite N.eqb_eq.
  assert (in_range "A" "Z" (chr a) = false) as ->.
  { apply in_range_spec in Ha. apply not_true_is_false.
    rewrite in_range_spec. unfold chr in *. simpl in *. lia. }
  destruct (in_range "A" "Z" c); auto.
Qed.

Lemma nocase_p_word c : is_chr_nocase "p" c = true -> is_word ucd c = true.
Proof.
  intros H. apply nocase_spec in H; [|reflexivity].
  unfold chr in H. simpl in H.
  assert (c = 112 \/ c = 80)%N as [-> | ->] by lia; reflexivity.
Qed.

Lemma nocase_p_nonspace c :
  is_chr_nocase "p" c = true -> cls_nonspace ucd c = true.
Proof.
  intros H. apply nocase_spec in H; [|reflexivity].
  unfold chr in H. simpl in H.
  assert (c = 112 \/ c = 80)%N as [-> | ->] by lia; reflexivity.
Qed.

Lemma ascii_digit_digit c : ascii_digit c = true -> is_digit ucd c = true.
Proof.
  unfold ascii_digit, is_digit. intros H.
  assert (Hc : (c < 128)%N).
  { apply in_range_spec in H. unfold chr in H. simpl in H. lia. }
  apply N.ltb_lt in Hc. now rewrite Hc.
Qed.

Lemma ascii_digit_word c : ascii_digit c = true -> is_word ucd c = true.
Proof. intros H. now apply digit_word, ascii_digit_digit. Qed.

Lemma ascii_digit_not_dot c : ascii_digit c = true -> is_chr "." c = false.
Proof.
  unfold ascii_digit. rewrite in_range_spec. intros H.
  apply not_true_is_false. rewrite is_chr_spec. unfold chr in *. simpl in *.
  lia.
Qed.

(** A CVE character is none of [. : @ p P]. *)
Lemma cve_char_spec c :
  cve_char c = true ->
  (c = 67 \/ c = 86 \/ c = 69 \/ c = 45 \/ 48 <= c <= 57)%N.
Proof.
  unfold cve_char, ascii_digit.
  rewrite !orb_true_iff, !is_chr_spec, in_range_spec.
  unfold chr. simpl. lia.
Qed.

Lemma cve_char_not a c :
  (chr a = 46 \/ chr a = 58 \/ chr a = 64)%N ->
  cve_char c = true -> is_chr a c = false.
Proof.
  intros Ha H. apply cve_char_spec in H. apply not_true_is_false.
  rewrite is_chr_spec. lia.
Qed.

Lemma cve_char_not_p c : cve_char c = true -> is_chr_nocase "p" c = false.
Proof.
  intros H. apply cve_char_spec in H. apply not_true_is_false. intros Hp.
  apply nocase_spec in Hp; [|reflexivity]. unfold chr in Hp. simpl in Hp. lia.
Qed.

Lemma space_not_printable c :
  is_space ucd c = true -> printable c = false.
Proof.
  intros H. apply not_true_is_false. intros Hp.
  apply printable_not_space in Hp. congruence.
Qed.

Lemma email_chars_printable c : email_chars c = true -> printable c = true.
Proof.
  unfold email_chars. intros H. apply orb_true_iff in H as [H|H].
  - now apply cls_local_printable.
  - apply is_chr_spec in H. now subst.
Qed.

Lemma mac_chars_printable c : mac_chars c = true -> printable c = true.
Proof.
  unfold mac_chars. intros H. apply orb_true_iff in H as [H|H].
  - now apply cls_local_printable, cls_domain_local, cls_label_domain,
      cls_hex_label.
  - apply is_chr_spec in H. now subst.
Qed.

Lemma cls_domain_printable c : cls_domain c = true -> printable c = true.
Proof. intros H. now apply cls_local_printable, cls_domain_local. Qed.

Lemma space_not_p c : is_space ucd c = true -> is_chr_nocase "p" c = false.
Proof.
  intros H. apply not_true_is_false. intros Hp.
  apply nocase_p_nonspace in Hp. unfold cls_nonspace in Hp.
  rewrite H in Hp. discriminate.
Qed.

Lemma x_is_word : is_word ucd (chr "x") = true.
Proof. reflexivity. Qed.

End Classes.

(** ** What the syntax of the six patterns gives *)

Section PatternFacts.

Variable ucd : UnicodeData.

Ltac lit_leaf :=
  let c := fresh "c" in let H := fresh "H" in
  intros c H; apply is_chr_spec in H; subst c; reflexivity.

Ltac leaf_by lem :=
  let c := fresh "c" in let H := fresh "H" in
  intros c H; apply lem; exact H.

Lemma is_digit_cls c : is_digit ucd c = true -> digit_or_dot ucd c = true.
Proof. unfold digit_or_dot. now intros ->. Qed.

Lemma ipv4_classes : classes_in (digit_or_dot ucd) (ipv4_re ucd).
Proof.
  simpl. repeat split; try lit_leaf; leaf_by is_digit_cls.
Qed.

Lemma ipv4_first : first_in (is_digit ucd) (ipv4_re ucd).
Proof. simpl. repeat split; auto. Qed.

Lemma ipv4_first_word : first_in (is_word ucd) (ipv4_re ucd).
Proof. simpl. repeat split; try lia. intros c H. now apply digit_word. Qed.

Lemma ipv4_last_word : last_in (is_word ucd) (ipv4_re ucd).
Proof. simpl. repeat split; try lia. intros c H. now apply digit_word. Qed.

Lemma ipv4_last : last_in (is_digit ucd) (ipv4_re ucd).
Proof. simpl. repeat split; auto. Qed.

Lemma url_progressive : progressive (url_re ucd) = true.
Proof. reflexivity. Qed.

Lemma url_min_len : 0 < min_len (url_re ucd).
Proof. simpl. lia. Qed.

Lemma url_classes : classes_in (cls_nonspace ucd) (url_re ucd).
Proof. simpl. repeat split; try lit_leaf; auto. Qed.

Lemma url_first : first_in (is_chr "h") (url_re ucd).
Proof. simpl. auto. Qed.

Lemma url_first_nonspace : first_in (cls_nonspace ucd) (url_re ucd).
Proof. simpl. lit_leaf. Qed.

Lemma url_must : must_have (is_chr ":") (url_re ucd).
Proof. simpl. do 6 right. left. auto. Qed.

Lemma email_classes : classes_in email_chars email_re.
Proof.
  assert (L : forall c, cls_local c = true -> email_chars c = true).
  { intros c H. unfold email_chars. now rewrite H. }
  simpl. repeat split; try lit_leaf; intros c H; auto.
  - now apply L, cls_domain_local.
  - now apply L, cls_domain_local, cls_label_domain, cls_alpha_label.
Qed.

Lemma email_first : first_in cls_local email_re.
Proof. simpl. split; auto. Qed.

Lemma email_first_nonspace : first_in (cls_nonspace ucd) email_re.
Proof.
  simpl. split; [lia|]. intros c H.
  now apply printable_nonspace, cls_local_printable.
Qed.

Lemma email_must : must_have (is_chr "@") email_re.
Proof. simpl. right. right. left. auto. Qed.

Lemma mac_progressive : progressive mac_re = true.
Proof. reflexivity. Qed.

Lemma mac_min_len : 0 < min_len mac_re.
Proof. simpl. lia. Qed.

Lemma mac_classes : classes_in mac_chars mac_re.
Proof.
  assert (L : forall c, cls_hex c = true -> mac_chars c = true).
  { intros c H. unfold mac_chars. now rewrite H. }
  simpl. repeat split; try lit_leaf; auto.
Qed.

Lemma mac_first : first_in cls_hex mac_re.
Proof. simpl. repeat split; auto. Qed.

Lemma label_nonspace c : cls_label c = true -> cls_nonspace ucd c = true.
Proof.
  intros H. now apply printable_nonspace, cls_local_printable,
    cls_domain_local, cls_label_domain.
Qed.

Lemma mac_first_nonspace : first_in (cls_nonspace ucd) mac_re.
Proof.
  simpl. repeat split; try lia. intros c H.
  now apply label_nonspace, cls_hex_label.
Qed.

Lemma mac_first_word : first_in (is_word ucd) mac_re.
Proof. simpl. repeat split; try lia. intros c H. now apply cls_hex_word. Qed.

Lemma mac_last_word : last_in (is_word ucd) mac_re.
Proof. simpl. repeat split; try lia. intros c H. now apply cls_hex_word. Qed.

Lemma mac_last : last_in cls_hex mac_re.
Proof. simpl. repeat split; auto. Qed.

Lemma mac_must : must_have (is_chr ":") mac_re.
Proof. simpl. right. left. split; [lia|]. right. auto. Qed.

Lemma port_progressive : progressive (port_re ucd) = true.
Proof. reflexivity. Qed.

Lemma port_min_len : 0 < min_len (port_re ucd).
Proof. simpl. lia. Qed.

Lemma port_classes : classes_in (port_chars ucd) (port_re ucd).
Proof.
  simpl. unfold port_chars.
  repeat split; intros c H; rewrite H; now rewrite ?orb_true_r.
Qed.

Lemma port_first : first_in (is_chr_nocase "p") (port_re ucd).
Proof. simpl. auto. Qed.

Lemma port_first_nonspace : first_in (cls_nonspace ucd) (port_re ucd).
Proof. simpl. intros c H. now apply nocase_p_nonspace. Qed.

Lemma port_first_word : first_in (is_word ucd) (port_re ucd).
Proof. simpl. intros c H. now apply nocase_p_word. Qed.

Lemma port_last_word : last_in (is_word ucd) (port_re ucd).
Proof. simpl. split; [lia|]. intros c H. now apply digit_word. Qed.

Lemma port_last : last_in (is_digit ucd) (port_re ucd).
Proof. simpl. split; auto. Qed.

Lemma host_classes : classes_in cls_domain host_re.
Proof.
  simpl. repeat split; try lit_leaf; intros c H.
  - now apply cls_label_domain.
  - now apply cls_label_domain, cls_alpha_label.
Qed.

Lemma host_first : first_in cls_label host_re.
Proof. simpl. repeat split; auto. Qed.

Lemma host_first_nonspace : first_in (cls_nonspace ucd) host_re.
Proof. simpl. repeat split; try lia. intros c H. now apply label_nonspace. Qed.

Lemma host_must : must_have (is_chr ".") host_re.
Proof. simpl. right. left. split; [lia|]. right. auto. Qed.

End PatternFacts.

(** ** Matches in a text and in a masked copy of it *)

Section Persistence.

Variable ucd : UnicodeData.

(** A match only looks at the characters it consumes and at the two
    neighbours of the positions it passes. *)
Lemma Matches_local (t u : text) b e r : forall i j,
  (forall p, b <= S p -> p <= e -> nth_error t p = nth_error u p) ->
  b <= i -> j <= e ->
  Matches ucd u r i j -> Matches ucd t r i j.
Proof.
  induction r as [cls| |a1 IH1 a2 IH2|a IHa lo hi]; intros i j Hag Hi Hj; simpl.
  - intros (c & Hc & Hcls & ->). exists c. rewrite Hag by lia. auto.
  - intros [Hb ->]. split; [|reflexivity].
    unfold at_boundary in *. rewrite (Hag i) by lia.
    destruct i as [|i']; simpl in *; [exact Hb|].
    rewrite (Hag i') by lia. exact Hb.
  - intros (j1 & H1 & H2).
    pose proof (Matches_bounds ucd u a1 i j1 H1) as [B1 _].
    pose proof (Matches_bounds ucd u a2 j1 j H2) as [B2 _].
    exists j1. split; [apply IH1|apply IH2]; auto; lia.
  - intros (c & Hlo & Hhi & Hit). exists c. repeat split; auto.
    clear Hlo Hhi. revert i Hi Hit.
    induction c as [|c IHc]; intros i Hi; simpl; [auto|].
    intros (j1 & H1 & H2).
    pose proof (Matches_bounds ucd u a i j1 H1) as [B1 _].
    assert (j1 <= j).
    { clear - H2. revert j1 H2. induction c as [|c IHc']; intros k; simpl.
      - intros ->. lia.
      - intros (k' & Hk & Hit). apply IHc' in Hit.
        pose proof (Matches_bounds ucd u a k k' Hk). lia. }
    exists j1. split; [apply IHa; auto; lia|apply IHc; auto; lia].
Qed.

Lemma quiet_search u r n i : quiet ucd u r -> search ucd u r n i = None.
Proof.
  intros Hq. revert i. induction n as [|n IH]; intros i; simpl.
  - destruct (match_at ucd u r i) as [e|] eqn:Hm; [|reflexivity].
    apply match_at_Some in Hm. now apply Hq in Hm.
  - destruct (match_at ucd u r i) as [e|] eqn:Hm; [|apply IH].
    apply match_at_Some in Hm. now apply Hq in Hm.
Qed.

Section Pattern.

(** A pattern between two [\b] whose matches begin and end with a word
    character and contain no [x]. *)
Variable r : regex.
Variable K : char -> bool.
Hypothesis r_classes : classes_in K r.
Hypothesis K_x : K (chr "x") = false.
Hypothesis r_first : first_in (is_word ucd) r.
Hypothesis r_last : last_in (is_word ucd) r.
Hypothesis r_starts : starts_bnd r = true.
Hypothesis r_ends : ends_bnd r = true.
Hypothesis r_progressive : progressive r = true.
Hypothesis r_min_len : 0 < min_len r.

(** A match in a masked copy was a match in the original. *)
Lemma persist t u b e :
  masked_of t u -> Matches ucd u r b e -> Matches ucd t r b e.
Proof.
  intros Hm H.
  pose proof (Matches_bounds ucd u r b e H) as [Hbe _].
  apply (Matches_local t u b e r b e); auto; try lia.
  intros p Hp1 Hp2. apply masked_of_agree; [exact Hm|].
  intros Hx.
  destruct (Nat.eq_dec (S p) b) as [Hb|Hb].
  - pose proof (Matches_starts ucd u r b e r_starts H) as HB.
    destruct (Matches_first ucd u (is_word ucd) r b e r_first H)
      as (c & Hc & Hw).
    unfold at_boundary in HB. rewrite Hc in HB. subst b. simpl in HB.
    rewrite Hx in HB. simpl in HB. rewrite Hw in HB. discriminate.
  - destruct (Nat.eq_dec p e) as [->|He].
    + pose proof (Matches_ends ucd u r b e r_ends H) as HE.
      destruct (Matches_last ucd u (is_word ucd) r b e r_last H)
        as (Hlt & c & Hc & Hw).
      unfold at_boundary in HE. rewrite before_pred, Hc, Hx in HE by lia.
      simpl in HE. rewrite Hw in HE. discriminate.
    + destruct (Matches_classes ucd u K r b e r_classes H p ltac:(lia))
        as (c & Hc & Hk).
      rewrite Hx in Hc. injection Hc as Hc. rewrite <- Hc in Hk.
      exact (eq_true_false_abs _ Hk K_x).
Qed.

(** After its own pass the pattern finds nothing. *)
Lemma quiet_after_pass t : quiet ucd (re_sub ucd r _mask_match t) r.
Proof.
  intros b e H.
  pose proof (persist t _ b e (re_sub_masked_of ucd r t) H) as Ht.
  pose proof (Matches_bounds ucd _ r b e H) as [Hbe _].
  destruct (match_at ucd t r b) as [e'|] eqn:Hm.
  - pose proof (match_covered ucd r t b e' r_min_len Hm) as Hc.
    destruct (Matches_classes ucd _ K r b e r_classes H b ltac:(lia))
      as (c & Hcb & Hk).
    rewrite nth_error_re_sub, Hc in Hcb.
    destruct (nth_error t b); [|discriminate].
    injection Hcb as Hcb. rewrite <- Hcb in Hk.
    exact (eq_true_false_abs _ Hk K_x).
  - exact (match_at_None ucd t r b e r_progressive Hm Ht).
Qed.

(** A later pass does not bring a match back. *)
Lemma quiet_kept r' t :
  quiet ucd t r -> quiet ucd (re_sub ucd r' _mask_match t) r.
Proof.
  intros Hq b e H. apply (Hq b e).
  exact (persist t _ b e (re_sub_masked_of ucd r' t) H).
Qed.

End Pattern.

(** *** The URL pattern, which has no [\b] at its end *)

Lemma lit_at_masked t u a p :
  masked_of t u -> chr a <> chr "x" -> lit_at u a p -> lit_at t a p.
Proof.
  unfold lit_at. intros Hm Ha Hu. rewrite <- Hu.
  apply masked_of_agree; [exact Hm|]. rewrite Hu. congruence.
Qed.

Lemma url_shape_masked t u b k :
  masked_of t u -> url_shape ucd u b k -> url_shape ucd t b k.
Proof.
  intros Hm (Hb & Hh & Ht1 & Ht2 & Hp & Hrest).
  assert (L : forall a p, chr a <> chr "x" -> lit_at u a p -> lit_at t a p)
    by (intros a p; apply lit_at_masked; exact Hm).
  split; [|repeat split; try (apply L; [discriminate|assumption])].
  - unfold at_boundary in *. unfold lit_at in Hh. rewrite Hh in Hb.
    rewrite (L "h"%char b ltac:(discriminate) Hh).
    destruct b as [|b']; [exact Hb|]. simpl in *.
    rewrite (masked_of_agree t u b' Hm); [exact Hb|].
    intros Hx. rewrite Hx in Hb. discriminate.
  - destruct Hrest as [(-> & Hc & Hs1 & Hs2)|(-> & Hs & Hc & Hs1 & Hs2)];
      [left|right]; repeat split; try (apply L; [discriminate|assumption]).
Qed.

(** A URL match after a pass of [r'] starts where one started before the
    pass, when the matches of [r'] begin with a non-space character. *)
Lemma persist_url r' t b e :
  first_in (cls_nonspace ucd) r' ->
  Matches ucd (re_sub ucd r' _mask_match t) (url_re ucd) b e ->
  exists e', Matches ucd t (url_re ucd) b e'.
Proof.
  intros Hfirst H.
  apply url_Matches in H as (k & Hshape & Hk & Hrun).
  pose proof (url_shape_masked t _ b k (re_sub_masked_of ucd r' t) Hshape)
    as Ht.
  exists (S k). apply url_Matches. exists k. split; [exact Ht|].
  split; [lia|]. intros p Hp. replace p with k by lia.
  destruct (Hrun k ltac:(lia)) as (c & Hc & Hns).
  rewrite nth_error_re_sub in Hc.
  destruct (nth_error t k) as [c0|] eqn:Hc0; [|discriminate].
  exists c0. split; [exact Hc0|].
  destruct (covered (finditer ucd r' t) k) eqn:Hcov;
    [|injection Hc as ->; exact Hns].
  apply covered_In in Hcov as (b' & e' & Hin & Hb').
  pose proof Hin as Hspan.
  apply find_loop_spans in Hspan as (_ & _ & _ & Hm).
  apply match_at_Some in Hm.
  destruct (Nat.eq_dec b' k) as [->|Hne].
  - destruct (Matches_first ucd t _ r' k e' Hfirst Hm) as (c1 & Hc1 & Hn1).
    rewrite Hc0 in Hc1. injection Hc1 as <-. exact Hn1.
  - exfalso.
    assert (Hprev : lit_at (re_sub ucd r' _mask_match t) "/" (k - 1)).
    { destruct Hshape as (_ & _ & _ & _ & _ & [(-> & _ & _ & Hs)|(-> & _ & _ & _ & Hs)]).
      - now replace (b + 7 - 1) with (b + 6) by lia.
      - now replace (b + 8 - 1) with (b + 7) by lia. }
    unfold lit_at in Hprev. rewrite nth_error_re_sub in Hprev.
    assert (Hcov : covered (finditer ucd r' t) (k - 1) = true).
    { apply covered_In. exists b', e'. split; [exact Hin|lia]. }
    rewrite Hcov in Hprev.
    destruct (nth_error t (k - 1)); discriminate.
Qed.

Lemma url_quiet_after_pass t :
  quiet ucd (re_sub ucd (url_re ucd) _mask_match t) (url_re ucd).
Proof.
  intros b e H.
  destruct (persist_url _ t b e (url_first_nonspace ucd) H) as (e' & Ht).
  destruct (match_at ucd t (url_re ucd) b) as [e''|] eqn:Hm.
  - pose proof (match_covered ucd _ t b e'' (url_min_len ucd) Hm) as Hc.
    apply url_Matches in H as (k & (_ & Hh & _) & _).
    unfold lit_at in Hh. rewrite nth_error_re_sub, Hc in Hh.
    destruct (nth_error t b); discriminate.
  - exact (match_at_None ucd t _ b e' (url_progressive ucd) Hm Ht).
Qed.

Lemma url_quiet_kept r' t :
  first_in (cls_nonspace ucd) r' ->
  quiet ucd t (url_re ucd) ->
  quiet ucd (re_sub ucd r' _mask_match t) (url_re ucd).
Proof.
  intros Hf Hq b e H. destruct (persist_url r' t b e Hf H) as (e' & Ht).
  exact (Hq b e' Ht).
Qed.

End Persistence.

(** ** The order in which a greedy repeat tries its iterations *)

Section Priority.

Variable ucd : UnicodeData.
Variable s : text.

Lemma iter_functional (R : nat -> nat -> Prop) :
  (forall i j j', R i j -> R i j' -> j = j') ->
  forall c i p p', iter R c i p -> iter R c i p' -> p = p'.
Proof.
  intros HR. induction c as [|c IH]; intros i p p'; simpl.
  - congruence.
  - intros (j & H1 & H2) (j' & H1' & H2').
    rewrite (HR _ _ _ H1 H1') in H2. eapply IH; eauto.
Qed.

(** Of two chains from the same position the longer one continues the
    shorter one. *)
Lemma iter_continue (R : nat -> nat -> Prop) :
  (forall i j j', R i j -> R i j' -> j = j') ->
  forall c d i p p',
    iter R c i p -> iter R (c + d) i p' -> iter R d p p'.
Proof.
  intros HR. induction c as [|c IH]; intros d i p p'; simpl.
  - now intros ->.
  - intros (j & H1 & H2) (j' & H1' & H2').
    rewrite <- (HR _ _ _ H1 H1') in H2'. eapply IH; eauto.
Qed.

(** A greedy repeat of a body that reads in one way only returns what its
    continuation gives after the largest number of iterations it accepts:
    where it would accept [c] iterations, the result comes from at least
    [c]. *)
Lemma rep_priority (ma : nat -> (nat -> option nat) -> option nat)
    (Ra : nat -> nat -> Prop) lo hi :
  (forall i k e, ma i k = Some e -> exists j, Ra i j /\ k j = Some e) ->
  (forall i j k, Ra i j -> k j <> None -> ma i k <> None) ->
  (forall i j j', Ra i j -> Ra i j' -> j = j') ->
  forall c fuel n i p k e,
    iter Ra c i p -> k p <> None -> lo <= n + c -> within hi (n + c) ->
    c <= fuel -> within hi n ->
    rep ma lo hi fuel n i k = Some e ->
    exists c' p', c <= c' /\ iter Ra c' i p' /\ k p' = Some e.
Proof.
  intros Hs Hc Hf. induction c as [|c IH]; intros fuel n i p k e.
  - intros _ _ _ _ _ Hn H.
    destruct (rep_sound ma Ra lo hi Hs fuel n i k e Hn H)
      as (c' & j & Hit & _ & _ & Hk).
    exists c', j. split; [lia|auto].
  - intros (j1 & H1 & H2) Hk Hlo Hhi Hfuel Hn H.
    destruct fuel as [|f]; [lia|]. simpl in H.
    assert (Hb : below hi n = true).
    { destruct hi as [h|]; simpl in *; [|reflexivity].
      apply Nat.ltb_lt. lia. }
    assert (Hn' : within hi (S n)).
    { destruct hi as [h|]; simpl in *; [lia|exact I]. }
    rewrite Hb in H.
    assert (Hne : ma i (fun j0 => rep ma lo hi f (S n) j0 k) <> None).
    { apply Hc with j1; [exact H1|].
      apply (rep_complete ma Ra lo hi Hc c f (S n) j1 p k); auto; try lia.
      now replace (S n + c) with (n + S c) by lia. }
    destruct (ma i (fun j0 => rep ma lo hi f (S n) j0 k)) as [e'|] eqn:Hm;
      [|contradiction].
    injection H as ->.
    destruct (Hs _ _ _ Hm) as (j1' & H1' & Hrep).
    rewrite <- (Hf _ _ _ H1 H1') in Hrep.
    destruct (IH f (S n) j1 p k e H2 Hk ltac:(lia)
                ltac:(now replace (S n + c) with (n + S c) by lia)
                ltac:(lia) Hn' Hrep) as (c' & p' & Hcc & Hit & Hk').
    exists (S c'), p'. split; [lia|]. split; [|exact Hk'].
    exists j1. auto.
Qed.

End Priority.

(** ** The hostname pattern *)

Section HostTheory.

Variable ucd : UnicodeData.
Variable s : text.

Local Abbreviation Matches := (Matches ucd s).
Local Abbreviation at_boundary := (at_boundary ucd s).
Local Abbreviation char_in := (char_in s).
Local Abbreviation run := (run s).
Local Abbreviation dot_at := (dot_at s).

Lemma host_re_parts : host_re = Bnd +++ plus host_group +++ host_tld.
Proof. reflexivity. Qed.

Lemma label_not_dot c : cls_label c = true -> is_chr "." c = false.
Proof.
  unfold cls_label. rewrite !orb_true_iff, !in_range_spec, !is_chr_spec.
  intros H. apply not_true_is_false. rewrite is_chr_spec.
  unfold chr in *. simpl in *. lia.
Qed.

Lemma dot_not_label p : dot_at p -> char_in cls_label p -> False.
Proof.
  intros Hd Hl. pose proof (lit_char_in s "." _ p Hd Hl) as F. discriminate.
Qed.

Lemma alpha_word c : cls_alpha c = true -> is_word ucd c = true.
Proof.
  intros H. apply cls_label_word; [now apply cls_alpha_label|].
  intros ->. discriminate.
Qed.

Lemma Matches_host_group i j :
  Matches host_group i j
  <-> exists d, i < d /\ run cls_label i d /\ dot_at d /\ j = S d.
Proof.
  unfold host_group, plus. split.
  - intros (d & H1 & H2). apply Matches_rep_cls in H1 as (L1 & L2 & _ & R).
    apply Matches_lit in H2 as [H2 ->]. exists d. repeat split; auto. lia.
  - intros (d & Hd & R & Hdot & ->). exists d. split.
    + apply Matches_rep_cls. simpl. repeat split; auto; lia.
    + apply Matches_lit. auto.
Qed.

Lemma host_group_functional i j j' :
  Matches host_group i j -> Matches host_group i j' -> j = j'.
Proof.
  intros H H'. apply Matches_host_group in H as (d & Hd & R & Hdot & ->).
  apply Matches_host_group in H' as (d' & Hd' & R' & Hdot' & ->).
  f_equal. destruct (Nat.lt_trichotomy d d') as [H|[H|H]]; [|exact H|];
    exfalso.
  - apply (dot_not_label d Hdot), R'. lia.
  - apply (dot_not_label d' Hdot'), R. lia.
Qed.

Lemma Matches_host_tld j e :
  Matches host_tld j e
  <-> j + 2 <= e /\ run cls_alpha j e /\ at_boundary e = true.
Proof.
  unfold host_tld. split.
  - intros (e' & H1 & [H2 ->]).
    apply Matches_rep_cls in H1 as (L1 & L2 & _ & R).
    repeat split; auto. lia.
  - intros (L & R & B). exists e. split; [|split; auto].
    apply Matches_rep_cls. simpl. repeat split; auto; lia.
Qed.

Lemma host_tld_functional j e e' :
  Matches host_tld j e -> Matches host_tld j e' -> e = e'.
Proof.
  assert (G : forall a b, Matches host_tld j a -> Matches host_tld j b ->
                          a < b -> False).
  { intros a b Ha Hb Hab.
    apply Matches_host_tld in Ha as (La & Ra & Ba).
    apply Matches_host_tld in Hb as (Lb & Rb & _).
    rewrite boundary_between_words in Ba; [discriminate|lia| |].
    - eapply char_in_weaken; [apply alpha_word|]. apply Rb. lia.
    - eapply char_in_weaken; [apply alpha_word|]. apply Rb. lia. }
  intros H H'. destruct (Nat.lt_trichotomy e e') as [L|[L|L]];
    [exfalso; eauto|exact L|exfalso; eauto].
Qed.

Lemma host_progressive : progressive host_re = true.
Proof. reflexivity. Qed.

Lemma host_min_len : 0 < min_len host_re.
Proof. simpl. lia. Qed.

(** The chain of groups of a match. *)
Lemma Matches_host b e :
  Matches host_re b e
  <-> at_boundary b = true
      /\ exists c p, 1 <= c /\ iter (Matches host_group) c b p
                    /\ Matches host_tld p e.
Proof.
  rewrite host_re_parts. unfold plus. split.
  - intros (j0 & [Hb ->] & p & (c & Hc & _ & Hit) & Ht). eauto 10.
  - intros (Hb & c & p & Hc & Hit & Ht).
    exists b. split; [split; auto|]. exists p. split; [|exact Ht].
    exists c. simpl. auto.
Qed.

(** The matcher returns the longest match that starts at a position. *)
Lemma host_longest b e1 e2 :
  match_at ucd s host_re b = Some e1 -> Matches host_re b e2 -> e2 <= e1.
Proof.
  intros Hm H2.
  apply Matches_host in H2 as (Hb & c2 & p2 & Hc2 & Hit2 & Ht2).
  unfold match_at in Hm. rewrite host_re_parts in Hm. simpl in Hm.
  rewrite Hb in Hm.
  set (K := fun j => m ucd s (Rep (Cls cls_alpha) 2 None) j
                       (fun j0 => if at_boundary j0 then Some j0 else None))
    in Hm.
  assert (HK : forall j, K j = m ucd s host_tld j (fun j0 => Some j0))
    by reflexivity.
  assert (Hlen : c2 <= length s).
  { assert (HR : forall x y, Matches host_group x y -> x < y /\ y <= length s).
    { intros x y Hxy.
      destruct (Matches_bounds ucd s host_group x y Hxy) as [Hx Hy].
      simpl in Hx. split; [lia|apply Hy; lia]. }
    destruct (iter_bounds s _ c2 b p2 HR Hit2) as [B1 B2].
    specialize (B2 ltac:(lia)). lia. }
  destruct (rep_priority (m ucd s host_group) (Matches host_group) 1 None
              (m_sound ucd s host_group)
              (m_complete ucd s host_group eq_refl)
              host_group_functional
              c2 (length s) 0 b p2 K e1 Hit2)
    as (c1 & p1 & Hcc & Hit1 & Hk1); auto; try exact I.
  { rewrite HK. apply (m_complete ucd s host_tld eq_refl p2 e2); [exact Ht2|].
    discriminate. }
  rewrite HK in Hk1. apply m_sound in Hk1 as (e & Ht1 & [= ->]).
  destruct (Nat.eq_dec c1 c2) as [->|Hne].
  - rewrite (iter_functional _ host_group_functional _ _ _ _ Hit1 Hit2) in Ht1.
    rewrite (host_tld_functional _ _ _ Ht1 Ht2). lia.
  - replace c1 with (c2 + S (c1 - c2 - 1)) in Hit1 by lia.
    pose proof (iter_continue _ host_group_functional _ _ _ _ _ Hit2 Hit1)
      as (p3 & Hg & Hrest).
    apply Matches_host_group in Hg as (d & Hd & R & Hdot & ->).
    apply Matches_host_tld in Ht2 as (L2 & R2 & _).
    apply Matches_host_tld in Ht1 as (L1 & _ & _).
    assert (S d <= p1).
    { clear - Hrest. revert Hrest. generalize (S d) as i.
      induction (c1 - c2 - 1) as [|k IH]; intros i; simpl.
      - intros ->. lia.
      - intros (j & Hj & Hit). apply IH in Hit.
        pose proof (Matches_bounds ucd s host_group i j Hj). lia. }
    destruct (Nat.le_gt_cases e2 d) as [|Hgt]; [lia|].
    exfalso. apply (dot_not_label d Hdot).
    eapply char_in_weaken; [apply cls_alpha_label|]. apply R2. lia.
Qed.

Lemma dot_at_dec p : dot_at p \/ ~ dot_at p.
Proof.
  unfold dot_at, lit_at. destruct (nth_error s p) as [c|]; [|right; discriminate].
  destruct (N.eq_dec c (chr ".")) as [->|Hne]; [left; reflexivity|].
  right. congruence.
Qed.

Lemma domain_label c :
  cls_domain c = true -> is_chr "." c = false -> cls_label c = true.
Proof.
  unfold cls_domain, cls_label. intros H Hd. rewrite Hd in H.
  rewrite orb_false_r in H || idtac.
  destruct (in_range "a" "z" c), (in_range "A" "Z" c), (in_range "0" "9" c),
    (is_chr "-" c); simpl in *; auto.
Qed.

Lemma not_dot_label p :
  char_in cls_domain p -> ~ dot_at p -> char_in cls_label p.
Proof.
  intros (c & Hc & Hd) Hn. exists c. split; [exact Hc|].
  apply domain_label; [exact Hd|]. apply not_true_is_false. intros E.
  apply is_chr_spec in E. subst c. contradiction.
Qed.

(** The first dot from [i] on, up to a dot at [d]. *)
Lemma first_dot : forall len i d,
  d - i <= len -> i <= d -> dot_at d ->
  exists d1, i <= d1 <= d /\ dot_at d1 /\ forall q, i <= q < d1 -> ~ dot_at q.
Proof.
  induction len as [|len IH]; intros i d Hlen Hid Hd.
  - exists d. repeat split; auto; try lia; intros q Hq; lia.
  - destruct (dot_at_dec i) as [Hi|Hi].
    + exists i. repeat split; auto; try lia; intros q Hq; lia.
    + destruct (Nat.eq_dec i d) as [->|Hne]; [contradiction|].
      destruct (IH (S i) d ltac:(lia) ltac:(lia) Hd) as (d1 & H1 & H2 & H3).
      exists d1. repeat split; auto; try lia.
      intros q Hq. destruct (Nat.eq_dec q i) as [->|]; [exact Hi|].
      apply H3. lia.
Qed.

(** The last dot before [e], from a dot at [d] on. *)
Lemma last_dot : forall len d e,
  e - d <= len -> d < e -> dot_at d ->
  exists d1, d <= d1 < e /\ dot_at d1 /\ forall q, d1 < q < e -> ~ dot_at q.
Proof.
  induction len as [|len IH]; intros d e Hlen Hde Hd.
  - lia.
  - destruct (Nat.eq_dec (S d) e) as [<-|Hne].
    + exists d. repeat split; auto; try lia; intros q Hq; lia.
    + destruct (dot_at_dec (e - 1)) as [He|He].
      * exists (e - 1). repeat split; auto; try lia; intros q Hq; lia.
      * destruct (IH d (e - 1) ltac:(lia) ltac:(lia) Hd) as (d1 & H1 & H2 & H3).
        exists d1. repeat split; auto; try lia.
        intros q Hq. destruct (Nat.eq_dec q (e - 1)) as [->|]; [exact He|].
        apply H3. lia.
Qed.

(** What a chain of groups looks like. *)
Lemma groups_shape : forall c i p,
  iter (Matches host_group) (S c) i p ->
  i < p /\ run cls_domain i p /\ char_in cls_label i /\ dot_at (p - 1)
  /\ forall q, i <= q -> S q < p -> dot_at q -> dot_at (S q) -> False.
Proof.
  assert (One : forall i j, Matches host_group i j ->
            i < j /\ run cls_domain i j /\ char_in cls_label i
            /\ dot_at (j - 1)
            /\ forall q, i <= q -> S q < j -> dot_at q -> False).
  { intros i j H. apply Matches_host_group in H as (d & Hd & R & Hdot & ->).
    replace (S d - 1) with d by lia. repeat split; auto; try lia.
    - intros q Hq. destruct (Nat.eq_dec q d) as [->|].
      + apply (lit_at_char_in s "."); [reflexivity|exact Hdot].
      + eapply char_in_weaken; [apply cls_label_domain|]. apply R. lia.
    - intros q Hq1 Hq2 Hq. apply (dot_not_label q Hq), R. lia. }
  induction c as [|c IH]; intros i p.
  - intros (j & Hj & H). simpl in H. subst p.
    destruct (One _ _ Hj) as (A & B & C & D & E).
    repeat split; auto. intros q Hq1 Hq2 Hq _. exact (E q Hq1 Hq2 Hq).
  - intros (j & Hj & Hit). destruct (One _ _ Hj) as (A & B & C & D & E).
    destruct (IH _ _ Hit) as (A' & B' & C' & D' & E').
    repeat split; auto; try lia.
    + eapply run_app; eauto.
    + intros q Hq1 Hq2 Hq Hq'.
      destruct (Nat.lt_ge_cases (S q) j) as [L|L]; [exact (E q Hq1 L Hq)|].
      destruct (Nat.eq_dec (S q) j) as [Hj'|Hj'].
      * rewrite Hj' in Hq'. exact (dot_not_label j Hq' C').
      * apply (E' q); auto; lia.
Qed.

Lemma host_Matches_shape b e : Matches host_re b e -> host_shape ucd s b e.
Proof.
  intros H. pose proof (Matches_ends ucd s host_re b e eq_refl H) as He.
  apply Matches_host in H as (Hb & c & p & Hc & Hit & Ht).
  destruct c as [|c]; [lia|].
  apply groups_shape in Hit as (A & B & C & D & E).
  apply Matches_host_tld in Ht as (L & R & _).
  split; [exact Hb|]. split; [exact He|]. split; [|split; [exact C|split]].
  - eapply run_app; [exact B|].
    eapply run_weaken; [|exact R]. intros c0 H0.
    now apply cls_label_domain, cls_alpha_label.
  - intros q Hq1 Hq2 Hq Hq'.
    destruct (Nat.lt_ge_cases (S q) p) as [Lq|Lq];
      [exact (E q Hq1 Lq Hq Hq')|].
    apply (dot_not_label (S q) Hq').
    eapply char_in_weaken; [apply cls_alpha_label|]. apply R. lia.
  - assert (b <> p - 1).
    { intros E0. rewrite <- E0 in D. exact (dot_not_label b D C). }
    exists (p - 1). replace (S (p - 1)) with p by lia.
    repeat split; auto; lia.
Qed.

(** Groups from [i] up to a dot at [d]. *)
Lemma groups_build : forall len i d,
  d - i <= len -> i <= d -> char_in cls_label i ->
  run cls_domain i (S d) -> dot_at d ->
  (forall q, i <= q -> S q < S d -> dot_at q -> dot_at (S q) -> False) ->
  exists c, iter (Matches host_group) (S c) i (S d).
Proof.
  induction len as [|len IH]; intros i d Hlen Hid Hi Hrun Hd Hno.
  - assert (i = d) by lia. subst i. exfalso. exact (dot_not_label d Hd Hi).
  - destruct (first_dot (d - i) i d ltac:(lia) Hid Hd) as (d1 & H1 & H2 & H3).
    assert (Hg : Matches host_group i (S d1)).
    { apply Matches_host_group. exists d1. repeat split; auto.
      - destruct (Nat.eq_dec d1 i) as [->|]; [|lia].
        exfalso. exact (dot_not_label i H2 Hi).
      - intros q Hq. apply not_dot_label; [apply Hrun; lia|apply H3; lia]. }
    destruct (Nat.eq_dec d1 d) as [->|Hne].
    + exists 0. exists (S d). split; [exact Hg|reflexivity].
    + assert (Hi1 : i < d1).
      { destruct (Nat.eq_dec d1 i) as [->|]; [|lia].
        exfalso. exact (dot_not_label i H2 Hi). }
      destruct (IH (S d1) d ltac:(lia) ltac:(lia)) as (c & Hit); auto.
      * apply not_dot_label; [apply Hrun; lia|].
        intros Hdd. apply (Hno d1); auto; lia.
      * intros q Hq. apply Hrun. lia.
      * intros q Hq1 Hq2. apply Hno; lia.
      * exists (S c). exists (S d1). split; [exact Hg|exact Hit].
Qed.

Lemma host_shape_Matches b e : host_shape ucd s b e -> Matches host_re b e.
Proof.
  intros (Hb & He & R & F & Hno & d & Hd & Hdot & Hlen & Ra).
  apply Matches_host. split; [exact Hb|].
  destruct (groups_build (d - b) b d ltac:(lia) ltac:(lia) F) as (c & Hit);
    auto.
  - intros q Hq. apply R. lia.
  - intros q Hq1 Hq2. apply Hno; lia.
  - exists (S c), (S d). split; [lia|]. split; [exact Hit|].
    apply Matches_host_tld. repeat split; auto. lia.
Qed.

End HostTheory.

(** ** The hostname pass leaves nothing for the hostname pattern *)

Section HostQuiet.

Variable ucd : UnicodeData.
Variable t : text.

Local Abbreviation u := (re_sub ucd host_re _mask_match t).
Local Abbreviation spans := (finditer ucd host_re t).

Lemma unmasked_agree p :
  covered spans p = false -> nth_error u p = nth_error t p.
Proof.
  intros H. rewrite nth_error_re_sub, H. now destruct (nth_error t p).
Qed.

Lemma span_facts bj ej :
  In (bj, ej) spans ->
  match_at ucd t host_re bj = Some ej /\ host_shape ucd t bj ej
  /\ forall q, bj <= q < ej -> covered spans q = true.
Proof.
  intros Hin. pose proof Hin as Hs.
  apply find_loop_spans in Hs as (_ & _ & _ & Hm).
  split; [exact Hm|]. split.
  - now apply host_Matches_shape, match_at_Some.
  - intros q Hq. apply covered_In. eauto.
Qed.

Lemma masked_x p : covered spans p = true -> nth_error u p = Some (chr "x").
Proof.
  intros H. rewrite nth_error_re_sub, H.
  destruct (nth_error t p) eqn:E; [reflexivity|].
  apply covered_span in H as (b & e & Hbe & He & _).
  apply nth_error_None in E. lia.
Qed.

Lemma not_x_unmasked p :
  nth_error u p <> Some (chr "x") -> covered spans p = false.
Proof.
  intros H. destruct (covered spans p) eqn:E; [|reflexivity].
  now apply masked_x in E.
Qed.

Lemma nonword_unmasked p :
  word_at ucd (nth_error u p) = false -> covered spans p = false.
Proof.
  intros H. apply not_x_unmasked. intros E. rewrite E in H. discriminate.
Qed.

Lemma dot_unmasked p :
  dot_at u p -> covered spans p = false /\ dot_at t p.
Proof.
  intros H. assert (C : covered spans p = false).
  { apply not_x_unmasked. unfold dot_at, lit_at in H. rewrite H. discriminate. }
  split; [exact C|]. unfold dot_at, lit_at in *.
  now rewrite <- unmasked_agree.
Qed.

Lemma char_in_unmasked cls p :
  covered spans p = false -> char_in u cls p -> char_in t cls p.
Proof.
  intros C (c & Hc & Hcls). exists c. rewrite <- unmasked_agree; auto.
Qed.

Lemma alpha_not_dot (v : text) p : char_in v cls_alpha p -> ~ dot_at v p.
Proof.
  intros H Hd. apply (dot_not_label v p Hd).
  eapply char_in_weaken; [apply cls_alpha_label|exact H].
Qed.

(** The last two characters of a hostname match are letters. *)
Lemma host_shape_tail (v : text) b e p :
  host_shape ucd v b e -> e <= p + 2 -> p < e -> char_in v cls_alpha p.
Proof.
  intros (_ & _ & _ & _ & _ & d & _ & _ & Hlen & Ra) H1 H2.
  apply Ra. lia.
Qed.

Section AMatch.

Variables b e : nat.
Hypothesis Hu : host_shape ucd u b e.

(** The end of the match is not masked. *)
Lemma end_unmasked : covered spans e = false.
Proof.
  pose proof Hu as (_ & He & _).
  pose proof (host_shape_tail u b e (e - 1) Hu ltac:(lia)) as Hl.
  destruct Hu as (_ & _ & _ & _ & _ & d & _ & _ & Hlen & _).
  specialize (Hl ltac:(lia)).
  apply nonword_unmasked.
  destruct (word_at ucd (nth_error u e)) eqn:W; [|reflexivity].
  exfalso. unfold at_boundary in He. rewrite W in He.
  rewrite before_pred in He by lia.
  destruct Hl as (c & Hc & Ha). rewrite Hc in He. simpl in He.
  rewrite (alpha_word ucd c Ha) in He. discriminate.
Qed.

(** A span that holds a position of the match ends within the match. *)
Lemma span_ends_within bj ej p :
  In (bj, ej) spans -> bj <= p < ej -> p < e -> ej <= e.
Proof.
  intros Hin Hp Hpe. destruct (Nat.le_gt_cases ej e) as [|Hgt]; [assumption|].
  destruct (span_facts _ _ Hin) as (_ & _ & Hcov).
  pose proof end_unmasked as E. rewrite Hcov in E by lia. discriminate.
Qed.

(** A span that holds the start of the match begins there. *)
Lemma span_starts_at bj ej : In (bj, ej) spans -> bj <= b < ej -> bj = b.
Proof.
  intros Hin Hp. destruct (Nat.eq_dec bj b) as [|Hne]; [assumption|exfalso].
  destruct (span_facts _ _ Hin) as (_ & _ & Hcov).
  pose proof Hu as (Hb & _).
  rewrite boundary_between_words in Hb; [discriminate|lia| |].
  - apply (lit_at_char_in u "x"); [reflexivity|]. apply masked_x, Hcov. lia.
  - apply (lit_at_char_in u "x"); [reflexivity|]. apply masked_x, Hcov. lia.
Qed.

(** A span that holds a position of the match begins within the match. *)
Lemma span_starts_within bj ej p :
  In (bj, ej) spans -> bj <= p < ej -> b <= p -> b <= bj.
Proof.
  intros Hin Hp Hbp. destruct (Nat.le_gt_cases b bj) as [|Hgt]; [assumption|].
  rewrite (span_starts_at bj ej Hin) in Hgt; lia.
Qed.

Lemma t_domain : run t cls_domain b e.
Proof.
  pose proof Hu as (_ & _ & R & _). intros p Hp.
  destruct (covered spans p) eqn:C.
  - apply covered_In in C as (bj & ej & Hin & Hbe).
    destruct (span_facts _ _ Hin) as (_ & (_ & _ & Rj & _) & _).
    apply Rj. lia.
  - apply char_in_unmasked; auto.
Qed.

Lemma t_first : char_in t cls_label b.
Proof.
  pose proof Hu as (_ & _ & _ & F & _).
  destruct (covered spans b) eqn:C.
  - apply covered_In in C as (bj & ej & Hin & Hbe).
    pose proof (span_starts_at _ _ Hin Hbe) as ->.
    destruct (span_facts _ _ Hin) as (_ & (_ & _ & _ & Fj & _) & _).
    exact Fj.
  - apply char_in_unmasked; auto.
Qed.

Lemma t_no_double_dot p :
  b <= p -> S p < e -> dot_at t p -> dot_at t (S p) -> False.
Proof.
  pose proof Hu as (_ & _ & _ & _ & Hno & _). intros H1 H2 D1 D2.
  destruct (covered spans p) eqn:C1.
  - apply covered_In in C1 as (bj & ej & Hin & Hbe).
    destruct (span_facts _ _ Hin) as (_ & Hj & _).
    destruct (Nat.eq_dec (S p) ej) as [E|Hne].
    + apply (alpha_not_dot t p); [|exact D1].
      apply (host_shape_tail t bj ej p Hj); lia.
    + destruct Hj as (_ & _ & _ & _ & Hnoj & _).
      apply (Hnoj p); auto; lia.
  - destruct (covered spans (S p)) eqn:C2.
    + apply covered_In in C2 as (bj & ej & Hin & Hbe).
      destruct (span_facts _ _ Hin) as (_ & Hj & Hcov).
      destruct (Nat.eq_dec bj (S p)) as [->|Hne].
      * destruct Hj as (_ & _ & _ & Fj & _). exact (dot_not_label t _ D2 Fj).
      * rewrite Hcov in C1 by lia. discriminate.
    + apply (Hno p); auto; unfold dot_at, lit_at in *;
        rewrite unmasked_agree; auto.
Qed.

(** The last two characters of the match are letters in [t] too. *)
Lemma t_tail p : e <= p + 2 -> p < e -> char_in t cls_alpha p.
Proof.
  intros H1 H2.
  destruct (covered spans p) eqn:C.
  - apply covered_In in C as (bj & ej & Hin & Hbe).
    destruct (span_facts _ _ Hin) as (_ & Hj & _).
    pose proof (span_ends_within _ _ _ Hin Hbe H2).
    apply (host_shape_tail t bj ej p Hj); lia.
  - apply char_in_unmasked; [exact C|].
    apply (host_shape_tail u b e p Hu); lia.
Qed.

Lemma t_last_dot :
  exists d, b < d /\ dot_at t d /\ d + 3 <= e /\ run t cls_alpha (S d) e.
Proof.
  pose proof Hu as (_ & _ & _ & _ & _ & d & Hd & Hdot & Hlen & Ra).
  destruct (dot_unmasked d Hdot) as [_ Dt].
  destruct (last_dot t (e - d) d e ltac:(lia) ltac:(lia) Dt)
    as (d1 & H1 & H2 & H3).
  exists d1. split; [lia|]. split; [exact H2|].
  assert (T1 : ~ dot_at t (e - 1))
    by (apply alpha_not_dot, t_tail; lia).
  assert (T2 : ~ dot_at t (e - 2))
    by (apply alpha_not_dot, t_tail; lia).
  assert (d1 <> e - 1) by (intros ->; contradiction).
  assert (d1 <> e - 2) by (intros ->; contradiction).
  split; [lia|]. intros p Hp.
  destruct (covered spans p) eqn:C.
  - apply covered_In in C as (bj & ej & Hin & Hbe).
    destruct (span_facts _ _ Hin) as (_ & Hj & _).
    pose proof (span_ends_within _ _ _ Hin Hbe ltac:(lia)).
    destruct Hj as (_ & _ & _ & _ & _ & dj & Hdj & Dj & Lj & Rj).
    apply Rj. destruct (Nat.le_gt_cases p dj) as [Hle|]; [|lia].
    exfalso. apply (H3 dj); [lia|exact Dj].
  - apply char_in_unmasked; [exact C|]. apply Ra. lia.
Qed.

Lemma t_boundary_start : at_boundary ucd t b = true.
Proof.
  pose proof Hu as (Hb & _).
  destruct (covered spans b) eqn:C.
  - apply covered_In in C as (bj & ej & Hin & Hbe).
    pose proof (span_starts_at _ _ Hin Hbe) as ->.
    destruct (span_facts _ _ Hin) as (_ & (Bj & _) & _). exact Bj.
  - unfold at_boundary in *. rewrite <- (unmasked_agree b C).
    destruct b as [|b'] eqn:Eb; [exact Hb|]. simpl in *.
    destruct (covered spans b') eqn:C'.
    + apply covered_In in C' as (bj & ej & Hin & Hbe).
      destruct (span_facts _ _ Hin) as (_ & Hj & Hcov).
      assert (ej = S b').
      { destruct (Nat.eq_dec ej (S b')) as [|Hne]; [assumption|].
        rewrite Hcov in C by lia. discriminate. }
      subst ej.
      destruct (host_shape_tail t bj (S b') b' Hj ltac:(lia) ltac:(lia))
        as (c & Hc & Ha).
      rewrite Hc. simpl. rewrite (alpha_word ucd c Ha).
      rewrite (masked_x b') in Hb by (apply Hcov; lia).
      simpl in Hb. exact Hb.
    + now rewrite <- (unmasked_agree b' C').
Qed.

Lemma t_boundary_end : at_boundary ucd t e = true.
Proof.
  pose proof Hu as (_ & He & _).
  destruct t_last_dot as (d & _ & _ & Hlen & _).
  unfold at_boundary in *. rewrite <- (unmasked_agree e end_unmasked).
  rewrite before_pred in * by lia.
  destruct (t_tail (e - 1) ltac:(lia) ltac:(lia)) as (c & Hc & Ha).
  destruct (host_shape_tail u b e (e - 1) Hu ltac:(lia) ltac:(lia))
    as (c' & Hc' & Ha').
  rewrite Hc. rewrite Hc' in He. simpl in *.
  rewrite (alpha_word ucd c' Ha') in He. now rewrite (alpha_word ucd c Ha).
Qed.

(** The match stood in the text before the pass. *)
Lemma t_shape : host_shape ucd t b e.
Proof.
  split; [exact t_boundary_start|]. split; [exact t_boundary_end|].
  split; [exact t_domain|]. split; [exact t_first|].
  split; [exact t_no_double_dot|exact t_last_dot].
Qed.

Lemma no_such_match : False.
Proof.
  pose proof (host_shape_Matches ucd t b e t_shape) as Ht.
  pose proof Hu as (_ & _ & _ & _ & _ & d & Hd & Hdot & Hlen & _).
  destruct (dot_unmasked d Hdot) as [Cd _].
  destruct (covered spans b) eqn:C.
  - apply covered_In in C as (bj & ej & Hin & Hbe).
    pose proof (span_starts_at _ _ Hin Hbe) as ->.
    destruct (span_facts _ _ Hin) as (Hm & _ & Hcov).
    pose proof (host_longest ucd t b ej e Hm Ht).
    rewrite Hcov in Cd by lia. discriminate.
  - destruct (match_at ucd t host_re b) as [e'|] eqn:Hm.
    + rewrite (match_covered ucd host_re t b e' host_min_len Hm) in C.
      discriminate.
    + exact (match_at_None ucd t host_re b e host_progressive Hm Ht).
Qed.

End AMatch.

Lemma host_quiet_after_pass : quiet ucd u host_re.
Proof.
  intros b e H. apply (no_such_match b e).
  now apply host_Matches_shape.
Qed.

End HostQuiet.

(** ** A second run of the masker *)

Section SecondRun.

Variable ucd : UnicodeData.

Local Abbreviation pass := (fun r t => re_sub ucd r _mask_match t).

Lemma ipv4_quiet_after_pass t : quiet ucd (pass (ipv4_re ucd) t) (ipv4_re ucd).
Proof.
  apply (quiet_after_pass ucd (ipv4_re ucd) (digit_or_dot ucd));
    auto using ipv4_classes, ipv4_first_word, ipv4_last_word,
      ipv4_progressive, ipv4_min_len.
Qed.

Lemma ipv4_quiet_kept r' t :
  quiet ucd t (ipv4_re ucd) -> quiet ucd (pass r' t) (ipv4_re ucd).
Proof.
  apply (quiet_kept ucd (ipv4_re ucd) (digit_or_dot ucd));
    auto using ipv4_classes, ipv4_first_word, ipv4_last_word, ipv4_min_len.
Qed.

Lemma mac_quiet_after_pass t : quiet ucd (pass mac_re t) mac_re.
Proof.
  apply (quiet_after_pass ucd mac_re mac_chars);
    auto using mac_classes, mac_first_word, mac_last_word,
      mac_progressive, mac_min_len.
Qed.

Lemma mac_quiet_kept r' t :
  quiet ucd t mac_re -> quiet ucd (pass r' t) mac_re.
Proof.
  apply (quiet_kept ucd mac_re mac_chars);
    auto using mac_classes, mac_first_word, mac_last_word, mac_min_len.
Qed.

Lemma port_quiet_after_pass t : quiet ucd (pass (port_re ucd) t) (port_re ucd).
Proof.
  apply (quiet_after_pass ucd (port_re ucd) (port_chars ucd));
    auto using port_classes, port_first_word, port_last_word,
      port_progressive, port_min_len.
Qed.

Lemma port_quiet_kept r' t :
  quiet ucd t (port_re ucd) -> quiet ucd (pass r' t) (port_re ucd).
Proof.
  apply (quiet_kept ucd (port_re ucd) (port_chars ucd));
    auto using port_classes, port_first_word, port_last_word, port_min_len.
Qed.

(** In the result of [anonymise_text] every pattern but the email pattern
    finds nothing. *)
Lemma anonymise_text_quiet t :
  quiet ucd (anonymise_text ucd t) (ipv4_re ucd)
  /\ quiet ucd (anonymise_text ucd t) (url_re ucd)
  /\ quiet ucd (anonymise_text ucd t) mac_re
  /\ quiet ucd (anonymise_text ucd t) (port_re ucd)
  /\ quiet ucd (anonymise_text ucd t) host_re.
Proof.
  rewrite anonymise_text_passes. repeat split.
  - do 5 apply ipv4_quiet_kept. apply ipv4_quiet_after_pass.
  - apply url_quiet_kept; [apply host_first_nonspace|].
    apply url_quiet_kept; [apply port_first_nonspace|].
    apply url_quiet_kept; [apply mac_first_nonspace|].
    apply url_quiet_kept; [apply email_first_nonspace|].
    apply url_quiet_after_pass.
  - do 2 apply mac_quiet_kept. apply mac_quiet_after_pass.
  - apply port_quiet_kept. apply port_quiet_after_pass.
  - apply host_quiet_after_pass.
Qed.

Lemma email_min_len : 0 < min_len email_re.
Proof. simpl. lia. Qed.

(** Where the email pattern finds a match, and the IPv4 and URL patterns
    find nothing, the masker changes the text: it writes [x] over the [@]
    of the match. *)
Lemma email_match_changes t :
  quiet ucd t (ipv4_re ucd) -> quiet ucd t (url_re ucd) ->
  search ucd t email_re (length t) 0 <> None ->
  anonymise_text ucd t <> t.
Proof.
  intros Q1 Q2 Hs.
  destruct (search ucd t email_re (length t) 0) as [[b e]|] eqn:E;
    [clear Hs|contradiction].
  apply search_Some in E as (_ & Hm & _).
  pose proof (match_covered ucd email_re t b e email_min_len Hm) as C.
  apply covered_In in C as (b' & e' & Hin & _).
  pose proof Hin as Hspan.
  apply find_loop_spans in Hspan as (_ & _ & _ & Hm').
  apply match_at_Some in Hm'.
  destruct (Matches_must ucd t _ email_re b' e' email_must Hm')
    as (p & Hp & c & Hc & Hat).
  apply is_chr_spec in Hat. subst c.
  assert (Cp : covered (finditer ucd email_re t) p = true).
  { apply covered_In. eauto. }
  intros Heq.
  assert (Hx : nth_error (anonymise_text ucd t) p = Some (chr "x")).
  { rewrite anonymise_text_passes.
    rewrite (re_sub_no_match ucd (ipv4_re ucd)) by now apply quiet_search.
    rewrite (re_sub_no_match ucd (url_re ucd)) by now apply quiet_search.
    do 3 apply (masked_of_keeps_x _ _ _ (re_sub_masked_of ucd _ _)).
    now rewrite nth_error_re_sub, Hc, Cp. }
  rewrite Heq, Hc in Hx. discriminate.
Qed.

Lemma xrun_char n p c :
  nth_error (repeat (chr "x") n) p = Some c -> c = chr "x".
Proof. intros H. apply nth_error_In in H. now apply repeat_spec in H. Qed.

(** No pattern finds anything in a run of [x]. *)
Lemma xrun_quiet n r :
  In r (_compile_patterns ucd) -> quiet ucd (repeat (chr "x") n) r.
Proof.
  assert (X : forall P p, P (chr "x") = false ->
                char_in (repeat (chr "x") n) P p -> False).
  { intros P p HP (c & Hc & HPc). apply xrun_char in Hc. subst c.
    rewrite HP in HPc. discriminate. }
  intros Hr b e H. simpl in Hr.
  destruct Hr as [<-|[<-|[<-|[<-|[<-|[<-|[]]]]]]].
  - apply (X (is_digit ucd) b); [reflexivity|].
    exact (Matches_first ucd _ _ _ b e (ipv4_first ucd) H).
  - apply (X (is_chr "h") b); [reflexivity|].
    exact (Matches_first ucd _ _ _ b e (url_first ucd) H).
  - destruct (Matches_must ucd _ _ _ b e email_must H) as (p & _ & Hp).
    apply (X (is_chr "@") p); [reflexivity|exact Hp].
  - apply (X cls_hex b); [reflexivity|].
    exact (Matches_first ucd _ _ _ b e mac_first H).
  - apply (X (is_chr_nocase "p") b); [reflexivity|].
    exact (Matches_first ucd _ _ _ b e (port_first ucd) H).
  - destruct (Matches_must ucd _ _ _ b e host_must H) as (p & _ & Hp).
    apply (X (is_chr ".") p); [reflexivity|exact Hp].
Qed.

(** C4 (amended): in the result of [anonymise_text] the IPv4, URL, MAC,
    port and hostname patterns find nothing any more; a second run changes
    the result exactly when the email pattern finds a match in it, that
    is, [anonymise(anonymise(T)) == anonymise(T)] if and only if the email
    pattern has no match in [anonymise(T)].  A run of [x] is left as it
    is. *)
Theorem anonymise_text_second_run (t : text) :
  (forall r,
      In r [ipv4_re ucd; url_re ucd; mac_re; port_re ucd; host_re] ->
      search ucd (anonymise_text ucd t) r
             (length (anonymise_text ucd t)) 0 = None)
  /\ (anonymise_text ucd (anonymise_text ucd t) = anonymise_text ucd t
      <-> search ucd (anonymise_text ucd t) email_re
                 (length (anonymise_text ucd t)) 0 = None)
  /\ (forall n,
      anonymise_text ucd (repeat (chr "x") n) = repeat (chr "x") n).
Proof.
  destruct (anonymise_text_quiet t) as (Q1 & Q2 & Q4 & Q5 & Q6).
  assert (S5 : forall r,
             In r [ipv4_re ucd; url_re ucd; mac_re; port_re ucd; host_re] ->
             search ucd (anonymise_text ucd t) r
                    (length (anonymise_text ucd t)) 0 = None).
  { intros r [<-|[<-|[<-|[<-|[<-|[]]]]]]; now apply quiet_search. }
  split; [exact S5|split; [split|]].
  - intros Heq.
    destruct (search ucd (anonymise_text ucd t) email_re
                (length (anonymise_text ucd t)) 0) eqn:E; [|reflexivity].
    exfalso. apply (email_match_changes (anonymise_text ucd t) Q1 Q2);
      [rewrite E; discriminate|exact Heq].
  - intros H3. apply no_match_fixed.
    intros r [<-|[<-|[<-|[<-|[<-|[<-|[]]]]]]]; auto; apply S5; simpl; tauto.
  - intros n. apply no_match_fixed. intros r Hr.
    apply quiet_search, xrun_quiet, Hr.
Qed.

End SecondRun.

(** C4 as worded fails on ["a@port 80..com"]: the first run leaves
    ["a@xxxxxxx..com"], in which the email pattern now finds a match, and
    the second run masks all of it. *)
Lemma anonymise_text_not_idempotent :
  anonymise_text ascii_only (str "a@port 80..com") = str "a@xxxxxxx..com"
  /\ anonymise_text ascii_only
       (anonymise_text ascii_only (str "a@port 80..com"))
     = str "xxxxxxxxxxxxxx"
  /\ anonymise_text ascii_only
       (anonymise_text ascii_only (str "a@port 80..com"))
     <> anonymise_text ascii_only (str "a@port 80..com").
Proof. vm_compute. repeat split; discriminate. Qed.

(** C4 at ["Open port 8443 on host db01.internal.example.com"]. *)
Lemma anonymise_text_second_run_witness :
  anonymise_text ascii_only
    (anonymise_text ascii_only
       (str "Open port 8443 on host db01.internal.example.com"))
  = anonymise_text ascii_only
      (str "Open port 8443 on host db01.internal.example.com").
Proof.
  apply (proj2 (proj1 (proj2 (anonymise_text_second_run ascii_only
           (str "Open port 8443 on host db01.internal.example.com"))))).
  vm_compute. reflexivity.
Defined.

(** ** A CVE identifier in its context *)

Section CveEmbedded.

Variable ucd : UnicodeData.
Variables pre year number post : text.

Hypothesis Hshape : cve_shape year number = true.
Hypothesis Hpre : ends_space ucd pre = true.
Hypothesis Hpost : starts_space ucd post = true.

Local Abbreviation t := (pre ++ cve_text year number ++ post).
Local Abbreviation n := (length pre).
Local Abbreviation q := (length pre + length (cve_text year number)).

Local Abbreviation same_region := (same_region t n q).

Lemma cve_shape_inv :
  length year = 4 /\ forallb ascii_digit year = true
  /\ 4 <= length number /\ forallb ascii_digit number = true.
Proof.
  unfold cve_shape in Hshape.
  repeat (apply andb_true_iff in Hshape as [Hshape ?]).
  apply Nat.eqb_eq in Hshape.
  match goal with H : (4 <=? _) = true |- _ => apply Nat.leb_le in H end.
  auto.
Qed.

Lemma cve_text_length :
  length (cve_text year number) = 5 + length year + length number.
Proof. unfold cve_text. rewrite !length_app. simpl. lia. Qed.

(** The identifier and its two neighbours, where they stand in [t]. *)
Lemma cve_layout :
  lit_at t "C" n /\ lit_at t "V" (n + 1) /\ lit_at t "E" (n + 2)
  /\ lit_at t "-" (n + 3) /\ run t ascii_digit (n + 4) (n + 8)
  /\ lit_at t "-" (n + 8) /\ run t ascii_digit (n + 9) q
  /\ n + 13 <= q /\ q <= length t
  /\ nth_error t q = nth_error post 0.
Proof.
  destruct cve_shape_inv as (Ly & Fy & Ln & Fn).
  assert (H0 : skipn n t
               = chr "C" :: chr "V" :: chr "E" :: chr "-"
                 :: year ++ chr "-" :: number ++ post).
  { rewrite skipn_app_self. unfold cve_text. simpl.
    now rewrite <- app_assoc. }
  apply skipn_cons_inv in H0 as [C0 H0].
  apply skipn_cons_inv in H0 as [C1 H0].
  apply skipn_cons_inv in H0 as [C2 H0].
  apply skipn_cons_inv in H0 as [C3 H0].
  pose proof (skipn_run _ _ _ _ _ H0 Fy) as Ry.
  apply skipn_app_inv, skipn_cons_inv in H0 as [C8 H0].
  pose proof (skipn_run _ _ _ _ _ H0 Fn) as Rn.
  apply skipn_app_inv in H0.
  rewrite Ly in *.
  assert (Hq : q = S (S (S (S (S n))) + 4) + length number).
  { rewrite cve_text_length. lia. }
  unfold lit_at.
  replace (n + 1) with (S n) by lia.
  replace (n + 2) with (S (S n)) by lia.
  replace (n + 3) with (S (S (S n))) by lia.
  replace (n + 4) with (S (S (S (S n)))) by lia.
  replace (n + 8) with (S (S (S (S n))) + 4) by lia.
  replace (n + 9) with (S (S (S (S (S n))) + 4)) by lia.
  rewrite Hq. repeat split; auto; try lia.
  - rewrite !length_app, cve_text_length. lia.
  - transitivity
      (nth_error (skipn (S (S (S (S (S n))) + 4) + length number) t) 0).
    + rewrite nth_error_skipn_add. f_equal. lia.
    + now rewrite H0.
Qed.

Section Region.

Variable u : text.
Hypothesis Hu : same_region u.

Lemma region_lit a p : n <= p <= q -> lit_at t a p -> lit_at u a p.
Proof.
  intros Hp H. unfold lit_at in *. destruct Hu as [_ Hag].
  rewrite Hag by lia. exact H.
Qed.

Lemma region_run cls i j :
  n <= i -> j <= q -> run t cls i j -> run u cls i j.
Proof.
  intros Hi Hj H p Hp. destruct Hu as [_ Hag].
  destruct (H p Hp) as (c & Hc & Hcls). exists c.
  rewrite Hag by lia. auto.
Qed.

(** Every character of the identifier is a CVE character. *)
Lemma region_cve_char p : n <= p < q -> char_in u cve_char p.
Proof.
  intros Hp.
  destruct cve_layout as (C0 & C1 & C2 & C3 & Ry & C8 & Rn & Hq & _).
  assert (L : forall a, cve_char (chr a) = true -> lit_at t a p ->
                        char_in u cve_char p).
  { intros a Ha H. exists (chr a). split; [|exact Ha].
    apply (region_lit a p); [lia|exact H]. }
  assert (D : forall i j, n <= i -> j <= q -> run t ascii_digit i j ->
                          i <= p < j -> char_in u cve_char p).
  { intros i j Hi Hj Hr Hij.
    destruct (region_run _ _ _ Hi Hj Hr p Hij) as (c & Hc & Hd).
    exists c. split; [exact Hc|]. unfold cve_char. rewrite Hd.
    now rewrite !orb_true_r. }
  destruct (Nat.eq_dec p n) as [->|N0]; [apply (L "C"%char); auto|].
  destruct (Nat.eq_dec p (n + 1)) as [->|N1]; [apply (L "V"%char); auto|].
  destruct (Nat.eq_dec p (n + 2)) as [->|N2]; [apply (L "E"%char); auto|].
  destruct (Nat.eq_dec p (n + 3)) as [->|N3]; [apply (L "-"%char); auto|].
  destruct (Nat.eq_dec p (n + 8)) as [->|N4]; [apply (L "-"%char); auto|].
  destruct (Nat.lt_ge_cases p (n + 8)) as [N5|N5].
  - apply (D (n + 4) (n + 8)); auto; lia.
  - apply (D (n + 9) q); auto; lia.
Qed.

(** The neighbours of the identifier, where there are any, are
    whitespace. *)
Lemma region_left : 0 < n -> char_in u (is_space ucd) (n - 1).
Proof.
  intros Hn. destruct Hu as [_ Hag]. unfold char_in.
  rewrite Hag by lia. rewrite <- before_pred by lia. rewrite before_app.
  unfold ends_space in Hpre. destruct (rev pre) as [|c l] eqn:Hr.
  - apply (f_equal (@length _)) in Hr. rewrite length_rev in Hr.
    simpl in Hr. lia.
  - exists c. auto.
Qed.

Lemma region_right : q < length u -> char_in u (is_space ucd) q.
Proof.
  intros Hq. destruct Hu as [Hl Hag]. unfold char_in.
  destruct cve_layout as (_ & _ & _ & _ & _ & _ & _ & _ & _ & Hend).
  rewrite Hag, Hend by lia.
  unfold starts_space in Hpost. destruct post as [|c l] eqn:Hp.
  - exfalso. rewrite Hl, !length_app in Hq. simpl in Hq. lia.
  - exists c. auto.
Qed.

(** A pattern whose matches hold no whitespace and need a character the
    identifier does not have leaves the identifier and its neighbours
    alone. *)
Lemma no_touch_coarse r (K P : char -> bool) :
  classes_in K r -> must_have P r ->
  (forall c, is_space ucd c = true -> K c = false) ->
  (forall c, cve_char c = true -> P c = false) ->
  forall b e, Matches ucd u r b e -> S e <= n \/ q < b.
Proof.
  intros HK HP Hsp Hcve b e H.
  destruct (Nat.le_gt_cases (S e) n) as [|Hn]; [left; assumption|].
  destruct (Nat.lt_ge_cases q b) as [|Hq]; [right; assumption|].
  exfalso.
  pose proof (Matches_classes ucd u K r b e HK H) as Hrun.
  destruct (Matches_must ucd u P r b e HP H) as (p0 & Hp0 & Hc0).
  pose proof (Matches_bounds ucd u r b e H) as [_ Hlen].
  assert (Clash : forall p, b <= p < e -> char_in u (is_space ucd) p -> False).
  { intros p Hp Hs.
    destruct (char_in_both u _ _ p (Hrun p Hp) Hs) as (c & _ & Hk & Hs').
    rewrite (Hsp c Hs') in Hk. discriminate. }
  destruct (Nat.lt_ge_cases p0 n) as [Hlt|Hge].
  - apply (Clash (n - 1)); [lia|]. apply region_left. lia.
  - destruct (Nat.lt_ge_cases p0 q) as [Hlt|Hge'].
    + destruct (char_in_both u _ _ p0 Hc0 (region_cve_char p0 ltac:(lia)))
        as (c & _ & Hpc & Hcc).
      rewrite (Hcve c Hcc) in Hpc. discriminate.
    + apply (Clash q); [lia|]. apply region_right. lia.
Qed.

Lemma url_no_touch b e :
  Matches ucd u (url_re ucd) b e -> S e <= n \/ q < b.
Proof.
  apply (no_touch_coarse _ (cls_nonspace ucd) (is_chr ":")).
  - apply url_classes.
  - apply url_must.
  - intros c Hc. unfold cls_nonspace. now rewrite Hc.
  - intros c. apply cve_char_not. auto.
Qed.

Lemma email_no_touch b e :
  Matches ucd u email_re b e -> S e <= n \/ q < b.
Proof.
  apply (no_touch_coarse _ email_chars (is_chr "@")).
  - apply email_classes.
  - apply email_must.
  - intros c Hc. apply not_true_is_false. intros Hk.
    apply email_chars_printable in Hk.
    rewrite (space_not_printable ucd c Hc) in Hk. discriminate.
  - intros c. apply cve_char_not. auto.
Qed.

Lemma mac_no_touch b e :
  Matches ucd u mac_re b e -> S e <= n \/ q < b.
Proof.
  apply (no_touch_coarse _ mac_chars (is_chr ":")).
  - apply mac_classes.
  - apply mac_must.
  - intros c Hc. apply not_true_is_false. intros Hk.
    apply mac_chars_printable in Hk.
    rewrite (space_not_printable ucd c Hc) in Hk. discriminate.
  - intros c. apply cve_char_not. auto.
Qed.

Lemma host_no_touch b e :
  Matches ucd u host_re b e -> S e <= n \/ q < b.
Proof.
  apply (no_touch_coarse _ cls_domain (is_chr ".")).
  - apply host_classes.
  - apply host_must.
  - intros c Hc. apply not_true_is_false. intros Hk.
    apply cls_domain_printable in Hk.
    rewrite (space_not_printable ucd c Hc) in Hk. discriminate.
  - intros c. apply cve_char_not. auto.
Qed.

(** The end of a match of a pattern that ends with a digit and [\b]
    cannot stand right before the identifier, nor reach into it. *)
Lemma end_before_region (K : char -> bool) r b e :
  classes_in K r -> K (chr "C") = false ->
  last_in (is_digit ucd) r -> ends_bnd r = true ->
  Matches ucd u r b e -> b < n -> n <= e -> False.
Proof.
  intros HK HC Hlast Hends H Hb He.
  destruct cve_layout as (C0 & _).
  pose proof (region_lit "C"%char n ltac:(lia) C0) as Cu.
  destruct (Nat.eq_dec e n) as [->|Hne].
  - pose proof (Matches_ends ucd u r b n Hends H) as HE.
    destruct (Matches_last ucd u _ r b n Hlast H) as [_ Hd].
    rewrite boundary_between_words in HE; [discriminate|lia| |].
    + eapply char_in_weaken; [apply digit_word|exact Hd].
    + apply (lit_at_char_in u "C"); [reflexivity|exact Cu].
  - pose proof (Matches_classes ucd u K r b e HK H n ltac:(lia)) as Hn.
    apply (lit_char_in u "C" K n Cu) in Hn. congruence.
Qed.

Lemma ipv4_no_touch b e :
  Matches ucd u (ipv4_re ucd) b e -> S e <= n \/ q < b.
Proof.
  intros H.
  destruct (Nat.le_gt_cases (S e) n) as [|Hn]; [left; assumption|].
  destruct (Nat.lt_ge_cases q b) as [|Hq]; [right; assumption|].
  exfalso.
  destruct (Nat.lt_ge_cases b n) as [Hlt|Hge].
  { apply (end_before_region (digit_or_dot ucd) (ipv4_re ucd) b e);
      auto using ipv4_classes, ipv4_last; lia. }
  destruct cve_layout as (C0 & C1 & C2 & C3 & Ry & C8 & Rn & Hq13 & _).
  pose proof H as Hs. apply ipv4_Matches in Hs
    as (Hb & _ & j1 & _ & _ & [L1 A1] & B1 & _).
  pose proof (A1 b ltac:(lia)) as Hfirst.
  assert (Lit : forall a, is_digit ucd (chr a) = false ->
                          lit_at t a b -> False).
  { intros a Ha Hl. apply (region_lit a b ltac:(lia)) in Hl.
    apply (lit_char_in u a _ b Hl) in Hfirst. congruence. }
  assert (Dig : forall p, n + 4 <= p < n + 8 \/ n + 9 <= p < q ->
                          char_in u ascii_digit p).
  { intros p [Hp|Hp].
    - apply (region_run ascii_digit (n + 4) (n + 8)); auto; lia.
    - apply (region_run ascii_digit (n + 9) q); auto; lia. }
  assert (Dot : forall p, n + 4 <= p < n + 8 \/ n + 9 <= p < q ->
                          dot_at u p -> False).
  { intros p Hp Hd. apply Dig in Hp.
    pose proof (lit_char_in u "." _ p Hd Hp) as F. discriminate. }
  destruct (Nat.eq_dec b n) as [E|N0]; [subst b; now apply (Lit "C"%char)|].
  destruct (Nat.eq_dec b (n + 1)) as [E|N1];
    [rewrite E in *; now apply (Lit "V"%char)|].
  destruct (Nat.eq_dec b (n + 2)) as [E|N2];
    [rewrite E in *; now apply (Lit "E"%char)|].
  destruct (Nat.eq_dec b (n + 3)) as [E|N3];
    [rewrite E in *; now apply (Lit "-"%char)|].
  destruct (Nat.eq_dec b (n + 8)) as [E|N8];
    [rewrite E in *; now apply (Lit "-"%char)|].
  destruct (Nat.eq_dec b (n + 4)) as [E|N4]; [apply (Dot j1); [lia|exact B1]|].
  destruct (Nat.eq_dec b (n + 9)) as [E|N9]; [apply (Dot j1); [lia|exact B1]|].
  rewrite boundary_between_words in Hb; [discriminate|lia| |].
  - eapply char_in_weaken; [apply ascii_digit_word|]. apply Dig. lia.
  - eapply char_in_weaken; [apply digit_word|exact Hfirst].
Qed.

Lemma port_no_touch b e :
  Matches ucd u (port_re ucd) b e -> S e <= n \/ q < b.
Proof.
  intros H.
  destruct (Nat.le_gt_cases (S e) n) as [|Hn]; [left; assumption|].
  destruct (Nat.lt_ge_cases q b) as [|Hq]; [right; assumption|].
  exfalso.
  pose proof (Matches_first ucd u _ _ b e (port_first ucd) H) as Hfirst.
  pose proof (Matches_bounds ucd u _ b e H) as [Hbe Hlen].
  simpl in Hbe.
  destruct (Nat.lt_ge_cases (S b) n) as [Hlt|Hge].
  { apply (end_before_region (port_chars ucd) (port_re ucd) b e);
      auto using port_classes, port_last; lia. }
  assert (Sp : char_in u (is_space ucd) b -> False).
  { intros Hs. destruct (char_in_both u _ _ b Hfirst Hs) as (c & _ & Hp & Hs').
    rewrite (space_not_p ucd c Hs') in Hp. discriminate. }
  destruct (Nat.eq_dec (S b) n) as [E|N0].
  { apply Sp. replace b with (n - 1) by lia. apply region_left. lia. }
  destruct (Nat.eq_dec b q) as [E|N1].
  { apply Sp. rewrite E. apply region_right. lia. }
  destruct (char_in_both u _ _ b Hfirst (region_cve_char b ltac:(lia)))
    as (c & _ & Hp & Hc).
  rewrite (cve_char_not_p c Hc) in Hp. discriminate.
Qed.

(** A pass leaves the identifier and its neighbours as they are. *)
Lemma pass_same_region r :
  (forall b e, Matches ucd u r b e -> S e <= n \/ q < b) ->
  same_region (re_sub ucd r _mask_match u).
Proof.
  intros Hno. destruct Hu as [Hl Hag]. split.
  - now rewrite re_sub_length.
  - intros p Hp1 Hp2. rewrite nth_error_re_sub, <- Hag by lia.
    destruct (nth_error u p); [|reflexivity].
    destruct (covered (finditer ucd r u) p) eqn:Hc; [|reflexivity].
    exfalso. apply covered_span in Hc as (b & e & Hbe & _ & Hm).
    apply match_at_Some, Hno in Hm. lia.
Qed.

End Region.

Lemma same_region_refl : same_region t.
Proof. split; auto. Qed.

(** The six passes leave the identifier and its neighbours as they are. *)
Lemma same_region_anonymise : same_region (anonymise_text ucd t).
Proof.
  rewrite anonymise_text_passes.
  pose proof same_region_refl as R0.
  pose proof (pass_same_region _ R0 _ (ipv4_no_touch _ R0)) as R1.
  pose proof (pass_same_region _ R1 _ (url_no_touch _ R1)) as R2.
  pose proof (pass_same_region _ R2 _ (email_no_touch _ R2)) as R3.
  pose proof (pass_same_region _ R3 _ (mac_no_touch _ R3)) as R4.
  pose proof (pass_same_region _ R4 _ (port_no_touch _ R4)) as R5.
  exact (pass_same_region _ R5 _ (host_no_touch _ R5)).
Qed.

Lemma cve_survives :
  exists pre' post',
    anonymise_text ucd t = pre' ++ cve_text year number ++ post'
    /\ masked_of pre pre' /\ masked_of post post'.
Proof.
  destruct (masked_of_split _ _ _ _ (anonymise_text_masked_of ucd t))
    as (pre' & mid' & post' & Heq & Ha & Hm & Hb).
  exists pre', post'. split; [|split; assumption].
  rewrite Heq. f_equal. f_equal.
  destruct same_region_anonymise as [_ Hag].
  destruct Ha as [La _], Hm as [Lm _].
  apply nth_error_ext. intros p.
  destruct (Nat.lt_ge_cases p (length (cve_text year number))) as [Hp|Hp].
  - specialize (Hag (n + p) ltac:(lia) ltac:(lia)).
    rewrite Heq in Hag.
    assert (Ht : nth_error t (n + p) = nth_error (cve_text year number) p).
    { rewrite nth_error_app2 by lia.
      replace (n + p - n) with p by lia. apply nth_error_app1. lia. }
    rewrite Ht in Hag. rewrite <- Hag.
    rewrite nth_error_app2 by lia.
    replace (n + p - length pre') with p by lia.
    symmetry. apply nth_error_app1. lia.
  - transitivity (@None char).
    + apply nth_error_None. lia.
    + symmetry. apply nth_error_None. lia.
Qed.

End CveEmbedded.

Section CveClaim.

Variable ucd : UnicodeData.


End CveClaim.



(** * The claims about the masker *)

Section MaskerClaims.

Variable ucd : UnicodeData.

(** C7: a text in which none of the six patterns finds a match
    ([pattern.search(T)] is [None] for each of them) is returned unchanged:
    [anonymise(T) == T]. *)
Theorem anonymise_text_no_match (t : text) :
  (forall r, In r (_compile_patterns ucd) ->
             search ucd t r (length t) 0 = None) ->
  anonymise_text ucd t = t.
Proof. apply (no_match_fixed ucd). Qed.



(** C5 (amended): on ["Server at 192.168.1.10 is vulnerable to
    CVE-2023-44487."] the result is ["Server at xxxxxxxxxxxx is vulnerable
    to CVE-2023-44487."]: twelve [x], as many as the address has
    characters; the CVE identifier and the rest are unchanged. *)
Theorem scenario_ip_and_cve :
  anonymise_text ucd
    (str "Server at 192.168.1.10 is vulnerable to CVE-2023-44487.")
  = str "Server at xxxxxxxxxxxx is vulnerable to CVE-2023-44487.".
Proof. vm_compute. reflexivity. Qed.

(** C6: on ["Contact admin@client.local or visit
    https://portal.client.local/login"] the email span and the URL span
    each become a run of [x] of the length of the span; ["Contact"] and
    ["or visit"] stay. *)
Theorem scenario_email_and_url :
  anonymise_text ucd
    (str "Contact admin@client.local or visit https://portal.client.local/login")
  = str "Contact "
    ++ repeat (chr "x") (length (str "admin@client.local"))
    ++ str " or visit "
    ++ repeat (chr "x") (length (str "https://portal.client.local/login")).
Proof. vm_compute. reflexivity. Qed.

(** C2 (amended): each pass writes [x] over exactly the spans of the
    leftmost, non-overlapping scan of its pattern, one [x] per character,
    and copies every other character; so the result has the length of the
    input and differs from it only by characters replaced with [x].  An
    IPv4-shaped substring (four groups of one to three digits separated by
    dots) that follows the start of the text or a character that is neither
    a word character nor a dot, and is followed by the end of the text or a
    non-word character, becomes a run of [x] of its own length; the text
    around it keeps its length and changes only by characters replaced
    with [x]. *)
Theorem anonymise_text_masks_spans :
  (forall r t,
      re_sub ucd r _mask_match t = mask_spans (finditer ucd r t) t
      /\ spans_ordered 0 (finditer ucd r t)
      /\ forall b e, In (b, e) (finditer ucd r t) ->
           e <= length t /\ match_at ucd t r b = Some e)
  /\ (forall t,
      anonymise_text ucd t
      = fold_left (fun text pattern =>
                     mask_spans (finditer ucd pattern text) text)
                  (_compile_patterns ucd) t)
  /\ (forall t, length (anonymise_text ucd t) = length t)
  /\ (forall t, masked_of t (anonymise_text ucd t))
  /\ (forall pre g1 g2 g3 g4 post,
      digit_group ucd g1 = true -> digit_group ucd g2 = true ->
      digit_group ucd g3 = true -> digit_group ucd g4 = true ->
      ends_clear ucd pre = true -> starts_clear ucd post = true ->
      exists pre' post',
        anonymise_text ucd (pre ++ ipv4_text g1 g2 g3 g4 ++ post)
        = pre' ++ repeat (chr "x") (length (ipv4_text g1 g2 g3 g4)) ++ post'
        /\ masked_of pre pre' /\ masked_of post post').
Proof.
  split; [|split; [|split; [|split]]].
  - intros r t. split; [apply re_sub_mask|].
    split; [apply find_loop_ordered|].
    intros b e Hin. apply find_loop_spans in Hin. tauto.
  - intros t. unfold anonymise_text. simpl. now rewrite !re_sub_mask.
  - apply anonymise_text_length.
  - apply anonymise_text_masked_of.
  - intros pre g1 g2 g3 g4 post G1 G2 G3 G4 Hpre Hpost.
    destruct (masked_of_split _ _ _ _
                (anonymise_text_masked_of ucd
                   (pre ++ ipv4_text g1 g2 g3 g4 ++ post)))
      as (pre' & mid' & post' & Heq & Ha & Hm & Hb).
    exists pre', post'. split; [|split; assumption].
    rewrite Heq. f_equal. f_equal.
    destruct Ha as [La _], Hm as [Lm _]. rewrite <- Lm.
    apply all_x_repeat. intros p Hp.
    pose proof (emb_masked ucd pre g1 g2 g3 g4 post G1 G2 G3 G4 Hpre Hpost
                  (length pre + p) ltac:(lia)) as Hx.
    rewrite Heq, nth_error_app2 in Hx by lia.
    replace (length pre + p - length pre') with p in Hx by lia.
    rewrite nth_error_app1 in Hx by lia. exact Hx.
Qed.

End MaskerClaims.

(** C7 at ["All findings were retested"]. *)
Lemma anonymise_text_no_match_witness :
  anonymise_text ascii_only (str "All findings were retested")
  = str "All findings were retested".
Proof.
  apply (anonymise_text_no_match ascii_only).
  intros r H. simpl in H.
  repeat (destruct H as [<-|H]; [vm_compute; reflexivity|]).
  destruct H.
Defined.

(** C5 as the specification words it (thirteen [x]) does not hold. *)
Lemma scenario_ip_and_cve_thirteen :
  anonymise_text ascii_only
    (str "Server at 192.168.1.10 is vulnerable to CVE-2023-44487.")
  <> str "Server at xxxxxxxxxxxxx is vulnerable to CVE-2023-44487.".
Proof. vm_compute. discriminate. Qed.

(** C2 as worded fails on ["1.2.3.4.5"]: the substring ["2.3.4.5"] is
    IPv4-shaped and stands between word boundaries, yet the result is
    ["xxxxxxx.5"], not ["1.xxxxxxx"]. *)
Lemma ipv4_span_not_always_masked :
  digit_group ascii_only (str "2") = true
  /\ at_boundary ascii_only (str "1.2.3.4.5") 2 = true
  /\ at_boundary ascii_only (str "1.2.3.4.5") 9 = true
  /\ str "1." ++ ipv4_text (str "2") (str "3") (str "4") (str "5") ++ []
     = str "1.2.3.4.5"
  /\ anonymise_text ascii_only (str "1.2.3.4.5") = str "xxxxxxx.5"
  /\ anonymise_text ascii_only
       (str "1." ++ ipv4_text (str "2") (str "3") (str "4") (str "5") ++ [])
     <> str "1."
        ++ repeat (chr "x")
             (length (ipv4_text (str "2") (str "3") (str "4") (str "5")))
        ++ [].
Proof. vm_compute. repeat split; discriminate. Qed.

(** C2 at ["Server at 192.168.1.10 is down"]. *)
Lemma anonymise_text_masks_spans_witness :
  exists pre' post',
    anonymise_text ascii_only
      (str "Server at " ++ ipv4_text (str "192") (str "168") (str "1") (str "10")
       ++ str " is down")
    = pre' ++ repeat (chr "x")
                (length (ipv4_text (str "192") (str "168") (str "1") (str "10")))
      ++ post'
    /\ masked_of (str "Server at ") pre' /\ masked_of (str " is down") post'.
Proof.
  apply (proj2 (proj2 (proj2 (proj2 (anonymise_text_masks_spans ascii_only)))));
    reflexivity.
Defined.

(** * The walker *)

Section WalkerTheory.

Variable ucd : UnicodeData.
Variables RunFmt ParFmt : Type.

Local Abbreviation Paragraph := (Paragraph RunFmt ParFmt).
Local Abbreviation Table := (Table RunFmt ParFmt).
Local Abbreviation Row := (Row RunFmt ParFmt).
Local Abbreviation Cell := (Cell RunFmt ParFmt).
Local Abbreviation Document := (Document RunFmt ParFmt).

Lemma flat_map_map (A B C : Type) (f : A -> B) (g : B -> list C) l :
  flat_map g (map f l) = flat_map (fun a => g (f a)) l.
Proof. induction l as [|a l IH]; simpl; [reflexivity|]. now rewrite IH. Qed.

Lemma map_flat_map (A B C : Type) (f : A -> list B) (g : B -> C) l :
  map g (flat_map f l) = flat_map (fun a => map g (f a)) l.
Proof.
  induction l as [|a l IH]; simpl; [reflexivity|].
  now rewrite map_app, IH.
Qed.

Lemma flat_map_ext_in (A B : Type) (f g : A -> list B) l :
  Forall (fun a => f a = g a) l -> flat_map f l = flat_map g l.
Proof. induction 1 as [|a l Ha _ IH]; simpl; [reflexivity|]. now rewrite Ha, IH. Qed.

(** The paragraphs of a processed table are the processed paragraphs of
    the table, in the same order; by recursion on the nesting. *)
Fixpoint table_paragraphs_processed (table : Table) :
  table_paragraphs (process_table ucd table)
  = map (_process_runs ucd) (table_paragraphs table)
with row_paragraphs_processed (row : Row) :
  row_paragraphs (process_row ucd row)
  = map (_process_runs ucd) (row_paragraphs row)
with cell_paragraphs_processed (cell : Cell) :
  cell_all_paragraphs (process_cell ucd cell)
  = map (_process_runs ucd) (cell_all_paragraphs cell).
Proof.
  - destruct table as [rows]. simpl.
    rewrite flat_map_map, map_flat_map. apply flat_map_ext_in.
    induction rows as [|row rows IH]; constructor; [|exact IH].
    apply row_paragraphs_processed.
  - destruct row as [cells]. simpl.
    rewrite flat_map_map, map_flat_map. apply flat_map_ext_in.
    induction cells as [|cell cells IH]; constructor; [|exact IH].
    apply cell_paragraphs_processed.
  - destruct cell as [paragraphs tables]. simpl.
    rewrite map_app. f_equal.
    rewrite flat_map_map, map_flat_map. apply flat_map_ext_in.
    induction tables as [|table tables IH]; constructor; [|exact IH].
    apply table_paragraphs_processed.
Qed.

Lemma tables_paragraphs_processed (tables : list Table) :
  flat_map table_paragraphs (_process_tables ucd tables)
  = map (_process_runs ucd) (flat_map table_paragraphs tables).
Proof.
  unfold _process_tables. rewrite flat_map_map, map_flat_map.
  apply flat_map_ext_in, Forall_forall. intros t _.
  apply table_paragraphs_processed.
Qed.

Lemma hf_paragraphs_processed hf :
  hf_all_paragraphs (process_header_footer ucd hf)
  = map (_process_runs ucd) (hf_all_paragraphs (RunFmt:=RunFmt) (ParFmt:=ParFmt) hf).
Proof.
  unfold hf_all_paragraphs. simpl.
  now rewrite tables_paragraphs_processed, map_app.
Qed.

Lemma all_paragraphs_processed (doc : Document) :
  all_paragraphs (anonymise_document ucd doc)
  = map (_process_runs ucd) (all_paragraphs doc).
Proof.
  unfold all_paragraphs. simpl.
  rewrite tables_paragraphs_processed, !map_app. do 2 f_equal.
  rewrite flat_map_map, map_flat_map. apply flat_map_ext_in, Forall_forall.
  intros sec _. unfold section_paragraphs. simpl.
  now rewrite !hf_paragraphs_processed, map_app.
Qed.

Lemma process_run_processed (run : Run RunFmt) :
  run_processed ucd run (process_run ucd run).
Proof.
  unfold run_processed, process_run.
  destruct (run_text run) eqn:E; simpl; auto.
Qed.

Lemma _process_runs_processed (p : Paragraph) :
  paragraph_processed ucd p (_process_runs ucd p).
Proof.
  split; [reflexivity|]. simpl.
  induction (par_runs p) as [|r l IH]; simpl; constructor; auto.
  apply process_run_processed.
Qed.


End WalkerTheory.

(** * The batch *)

Lemma text_eqb_eq a b : text_eqb a b = true <-> a = b.
Proof.
  revert b. induction a as [|x a IH]; intros [|y b]; simpl;
    try (split; [discriminate|discriminate]); try tauto.
  rewrite andb_true_iff, N.eqb_eq, IH. split.
  - now intros [-> ->].
  - now intros [= -> ->].
Qed.

Lemma path_name_join folder name : path_name (path_join folder name) = name.
Proof. unfold path_name, path_join. apply last_last. Qed.

Section BatchTheory.

Variable ucd : UnicodeData.
Variables RunFmt ParFmt : Type.
Variable World : Type.
Variable path_exists : World -> Path -> bool.
Variable path_is_dir : World -> Path -> bool.
Variable path_is_file : World -> Path -> bool.
Variable listdir : World -> Path -> list text.
Variable load : World -> Path -> result (Document RunFmt ParFmt).
Variable save : World -> Path -> Document RunFmt ParFmt -> World * result unit.

Local Abbreviation anonymise_docx_try :=
  (anonymise_docx_try ucd RunFmt ParFmt World load save).
Local Abbreviation anonymise_docx :=
  (anonymise_docx ucd RunFmt ParFmt World load save).
Local Abbreviation for_each_file :=
  (for_each_file ucd RunFmt ParFmt World load save).
Local Abbreviation after_all :=
  (after_all ucd RunFmt ParFmt World load save).
Local Abbreviation eligible := (eligible ucd World path_is_file).
Local Abbreviation collect_files :=
  (collect_files ucd World path_is_file listdir).


Lemma eligible_name w folder name :
  eligible w (path_join folder name)
  = path_is_file w (path_join folder name)
    && text_eqb (lower ucd (suffix name)) (str ".docx")
    && negb (startswith (str "Anonymised_") name).
Proof. unfold eligible. now rewrite path_name_join. Qed.



End BatchTheory.



(** * Further properties of the masker *)

(** ** What a pass does at a position *)

Section PassFacts.

Variable ucd : UnicodeData.

Local Abbreviation pass r u := (re_sub ucd r _mask_match u).

Lemma re_sub_unmasked r u p :
  covered (finditer ucd r u) p = false ->
  nth_error (pass r u) p = nth_error u p.
Proof.
  intros H. rewrite nth_error_re_sub, H. now destruct (nth_error u p).
Qed.

Lemma re_sub_masked r u p :
  covered (finditer ucd r u) p = true -> p < length u ->
  nth_error (pass r u) p = Some (chr "x").
Proof.
  intros H Hp. rewrite nth_error_re_sub, H.
  destruct (nth_error u p) eqn:E; [reflexivity|].
  apply nth_error_None in E. lia.
Qed.

Lemma covered_Matches r u p :
  covered (finditer ucd r u) p = true ->
  exists b e, In (b, e) (finditer ucd r u) /\ b <= p < e
              /\ Matches ucd u r b e.
Proof.
  intros H. apply covered_In in H as (b & e & Hin & Hp).
  exists b, e. split; [exact Hin|]. split; [exact Hp|].
  apply find_loop_spans in Hin as (_ & _ & _ & Hm).
  now apply match_at_Some.
Qed.

(** A character outside the classes of a pattern is not masked by its
    pass. *)
Lemma class_unmasked (K : char -> bool) r u p c :
  classes_in K r -> nth_error u p = Some c -> K c = false ->
  covered (finditer ucd r u) p = false.
Proof.
  intros HK Hc Hk. apply not_true_is_false. intros Hcov.
  apply covered_Matches in Hcov as (b & e & _ & Hp & Hm).
  destruct (Matches_classes ucd u K r b e HK Hm p Hp) as (c' & Hc' & Hk').
  congruence.
Qed.

Lemma re_sub_char r u p c :
  nth_error (pass r u) p = Some c ->
  (nth_error u p = Some c /\ covered (finditer ucd r u) p = false)
  \/ (c = chr "x" /\ covered (finditer ucd r u) p = true).
Proof.
  rewrite nth_error_re_sub. destruct (nth_error u p) as [c0|]; [|discriminate].
  destruct (covered (finditer ucd r u) p); intros [= <-]; auto.
Qed.

Lemma re_sub_char_in (cls : char -> bool) r u p :
  cls (chr "x") = true -> char_in u cls p -> char_in (pass r u) cls p.
Proof.
  intros Hx (c & Hc & Hcls). unfold char_in.
  rewrite nth_error_re_sub, Hc.
  destruct (covered (finditer ucd r u) p); eauto.
Qed.

Lemma re_sub_run (cls : char -> bool) r u i j :
  cls (chr "x") = true -> run u cls i j -> run (pass r u) cls i j.
Proof. intros Hx H p Hp. apply re_sub_char_in; auto. Qed.

Lemma re_sub_lit_inv r u a p :
  chr a <> chr "x" -> lit_at (pass r u) a p -> lit_at u a p.
Proof.
  intros Ha H. apply re_sub_char in H as [[H _]|[H _]]; [exact H|].
  congruence.
Qed.

Lemma re_sub_lit (K : char -> bool) r u a p :
  classes_in K r -> K (chr a) = false -> lit_at u a p ->
  lit_at (pass r u) a p.
Proof.
  intros HK Ha H. unfold lit_at.
  rewrite re_sub_unmasked; [exact H|].
  exact (class_unmasked K r u p _ HK H Ha).
Qed.

(** The spans of a scan do not overlap. *)
Lemma spans_ordered_from i spans b e :
  spans_ordered i spans -> In (b, e) spans -> i <= b /\ b < e.
Proof.
  revert i. induction spans as [|[b0 e0] rest IH]; intros i; simpl;
    [contradiction|].
  intros (H1 & H2 & H3) [[= <- <-]|Hin]; [lia|].
  destruct (IH e0 H3 Hin). lia.
Qed.

Lemma spans_disjoint i spans b1 e1 b2 e2 :
  spans_ordered i spans -> In (b1, e1) spans -> In (b2, e2) spans ->
  b1 < b2 -> e1 <= b2.
Proof.
  revert i. induction spans as [|[b0 e0] rest IH]; intros i; simpl;
    [contradiction|].
  intros (H1 & H2 & H3) [[= <- <-]|In1] [[= <- <-]|In2] Hlt.
  - lia.
  - destruct (spans_ordered_from e0 rest b2 e2 H3 In2). lia.
  - destruct (spans_ordered_from e0 rest b1 e1 H3 In1). lia.
  - exact (IH e0 H3 In1 In2 Hlt).
Qed.

Lemma finditer_disjoint r u b1 e1 b2 e2 :
  In (b1, e1) (finditer ucd r u) -> In (b2, e2) (finditer ucd r u) ->
  b1 < b2 -> e1 <= b2.
Proof. apply (spans_disjoint 0). apply find_loop_ordered. Qed.

(** Where a match starts at [n] and none that starts earlier reaches [n],
    the scan takes the match at [n]. *)
Lemma span_at r u n e :
  0 < min_len r -> match_at ucd u r n = Some e ->
  (forall b j, b < n -> Matches ucd u r b j -> j <= n) ->
  forall p, n <= p < e -> covered (finditer ucd r u) p = true.
Proof.
  intros Hmin Hm Hno p Hp.
  pose proof (match_covered ucd r u n e Hmin Hm) as Hc.
  apply covered_In in Hc as (b & e0 & Hin & Hb).
  pose proof Hin as Hspan.
  apply find_loop_spans in Hspan as (_ & _ & _ & Hm0).
  assert (b = n).
  { destruct (Nat.eq_dec b n) as [|Hne]; [assumption|exfalso].
    apply match_at_Some in Hm0. apply Hno in Hm0; lia. }
  subst b. rewrite Hm in Hm0. injection Hm0 as <-.
  apply covered_In. exists n, e. split; [exact Hin|lia].
Qed.

(** What a pass has masked stays masked to the end. *)
Lemma masked_to_end (t : text) p :
  nth_error (pass (ipv4_re ucd) t) p = Some (chr "x")
  \/ nth_error (pass (url_re ucd) (pass (ipv4_re ucd) t)) p = Some (chr "x")
  \/ nth_error (pass email_re (pass (url_re ucd) (pass (ipv4_re ucd) t))) p
     = Some (chr "x")
  \/ nth_error
       (pass mac_re
          (pass email_re (pass (url_re ucd) (pass (ipv4_re ucd) t)))) p
     = Some (chr "x")
  \/ nth_error
       (pass (port_re ucd)
          (pass mac_re
             (pass email_re (pass (url_re ucd) (pass (ipv4_re ucd) t))))) p
     = Some (chr "x")
  \/ nth_error (anonymise_text ucd t) p = Some (chr "x") ->
  nth_error (anonymise_text ucd t) p = Some (chr "x").
Proof.
  pose proof (fun r u => masked_of_keeps_x _ _ p (re_sub_masked_of ucd r u))
    as K.
  rewrite anonymise_text_passes.
  intros [H|[H|[H|[H|[H|H]]]]]; auto 10.
Qed.

(** A stretch of the text that has become [x] everywhere. *)
Lemma masked_stretch (pre tok post : text) :
  (forall p, length pre <= p < length pre + length tok ->
     nth_error (anonymise_text ucd (pre ++ tok ++ post)) p = Some (chr "x")) ->
  exists pre' post',
    anonymise_text ucd (pre ++ tok ++ post)
    = pre' ++ repeat (chr "x") (length tok) ++ post'
    /\ masked_of pre pre' /\ masked_of post post'.
Proof.
  intros Hx.
  destruct (masked_of_split _ _ _ _
              (anonymise_text_masked_of ucd (pre ++ tok ++ post)))
    as (pre' & mid' & post' & Heq & Ha & Hm & Hb).
  exists pre', post'. split; [|split; assumption].
  rewrite Heq. f_equal. f_equal.
  destruct Ha as [La _], Hm as [Lm _]. rewrite <- Lm.
  apply all_x_repeat. intros p Hp.
  specialize (Hx (length pre + p) ltac:(lia)).
  rewrite Heq, nth_error_app2 in Hx by lia.
  replace (length pre + p - length pre') with p in Hx by lia.
  rewrite nth_error_app1 in Hx by lia. exact Hx.
Qed.

(** Reading a stretch of a text. *)
Lemma stretch_nth (pre tok post : text) k :
  k < length tok ->
  nth_error (pre ++ tok ++ post) (length pre + k) = nth_error tok k.
Proof.
  intros Hk. rewrite nth_error_app2 by lia.
  replace (length pre + k - length pre) with k by lia.
  now apply nth_error_app1.
Qed.

Lemma stretch_run (cls : char -> bool) (pre a b post : text) :
  forallb cls b = true ->
  run (pre ++ a ++ b ++ post) cls
      (length pre + length a) (length pre + length a + length b).
Proof.
  intros Hb.
  replace (pre ++ a ++ b ++ post) with ((pre ++ a) ++ b ++ post)
    by now rewrite <- app_assoc.
  rewrite <- length_app.
  apply (skipn_run _ cls _ b post); [|exact Hb].
  apply skipn_app_self.
Qed.

Lemma stretch_end (pre tok post : text) :
  nth_error (pre ++ tok ++ post) (length pre + length tok) = nth_error post 0.
Proof.
  rewrite app_assoc, nth_error_app2 by (rewrite length_app; lia).
  rewrite length_app. now replace (_ - _) with 0 by lia.
Qed.

Lemma stretch_before (pre rest : text) c :
  0 < length pre ->
  nth_error (pre ++ rest) (length pre - 1) = Some c ->
  exists l, rev pre = c :: l.
Proof.
  intros Hn Hc. rewrite <- before_pred, before_app in Hc by lia.
  destruct (rev pre) as [|c0 l]; [discriminate|].
  injection Hc as ->. eauto.
Qed.

End PassFacts.

(** ** The matcher, step by step *)

Section Steps.

Variable ucd : UnicodeData.
Variable s : text.

Local Abbreviation m := (m ucd s).
Local Abbreviation run := (run s).
Local Abbreviation char_in := (char_in s).

Lemma m_Bnd i k : at_boundary ucd s i = true -> m Bnd i k = k i.
Proof. intros H. simpl. now rewrite H. Qed.

Lemma m_Cls cls i k : char_in cls i -> m (Cls cls) i k = k (S i).
Proof. intros (c & Hc & Hcls). simpl. now rewrite Hc, Hcls. Qed.

Lemma m_Cls_None cls i k :
  (forall c, nth_error s i = Some c -> cls c = false) ->
  m (Cls cls) i k = None.
Proof.
  intros H. simpl. destruct (nth_error s i) as [c|]; [|reflexivity].
  now rewrite (H c eq_refl).
Qed.

Lemma m_lit a i k : lit_at s a i -> m (lit a) i k = k (S i).
Proof.
  intros H. apply m_Cls. exists (chr a). split; [exact H|].
  apply N.eqb_refl.
Qed.

Lemma run_length cls i j : run cls i j -> i < j -> j <= length s.
Proof.
  intros H Hij. destruct (H (j - 1) ltac:(lia)) as (c & Hc & _).
  assert (j - 1 < length s) by (apply nth_error_Some; congruence). lia.
Qed.

Lemma rep_S (ma : nat -> (nat -> option nat) -> option nat) lo hi f n i k :
  rep ma lo hi (S f) n i k
  = if below hi n
    then match ma i (fun j => rep ma lo hi f (S n) j k) with
         | Some e => Some e
         | None => if lo <=? n then k i else None
         end
    else if lo <=? n then k i else None.
Proof. reflexivity. Qed.

(** A greedy repeat of a class returns what its continuation gives at the
    end of the longest stretch that the continuation accepts. *)
Lemma rep_greedy cls lo hi k i0 j e :
  k j = Some e ->
  (forall j', j < j' -> run cls i0 j' -> within hi (j' - i0) -> k j' = None) ->
  run cls i0 j -> lo <= j - i0 -> within hi (j - i0) ->
  forall fuel n i,
    n = i - i0 -> i0 <= i -> i <= j -> j - i <= fuel ->
    rep (m (Cls cls)) lo hi fuel n i k = Some e.
Proof.
  intros Hk Hlonger Hrun Hlo Hhi.
  induction fuel as [|f IH]; intros n i Hn Hi0 Hij Hfuel.
  - assert (i = j) by lia. subst i. simpl.
    replace (lo <=? n) with true by (symmetry; apply Nat.leb_le; lia).
    exact Hk.
  - rewrite rep_S. destruct (Nat.eq_dec i j) as [->|Hne].
    + replace (lo <=? n) with true by (symmetry; apply Nat.leb_le; lia).
      destruct (below hi n) eqn:Hb; [|exact Hk].
      destruct (m (Cls cls) j (fun j0 => rep (m (Cls cls)) lo hi f (S n) j0 k))
        as [e'|] eqn:Hr; [exfalso|exact Hk].
      apply m_sound in Hr as (j1 & (c & Hc & Hcls & ->) & Hr).
      assert (Hn' : within hi (S n)).
      { destruct hi as [h|]; simpl in *; [|exact I].
        apply Nat.ltb_lt in Hb. lia. }
      destruct (rep_sound (m (Cls cls)) (Matches ucd s (Cls cls)) lo hi
                  (m_sound ucd s (Cls cls)) f (S n) (S j) k e' Hn' Hr)
        as (c1 & j2 & Hit & _ & Hw & Hk2).
      apply iter_cls in Hit as [-> Hrun2].
      rewrite Hlonger in Hk2; [discriminate|lia| |].
      * intros p Hp. destruct (Nat.lt_ge_cases p j) as [Hlt|Hge].
        -- apply Hrun. lia.
        -- destruct (Nat.eq_dec p j) as [->|Hpj].
           ++ exists c. auto.
           ++ apply Hrun2. lia.
      * replace (S j + c1 - i0) with (S n + c1) by lia. exact Hw.
    + assert (Hb : below hi n = true).
      { destruct hi as [h|]; simpl in *; [|reflexivity].
        apply Nat.ltb_lt. lia. }
      rewrite Hb, (m_Cls cls i) by (apply Hrun; lia).
      rewrite (IH (S n) (S i)) by lia. reflexivity.
Qed.

Lemma m_greedy cls lo hi i j k e :
  run cls i j -> i <= j -> lo <= j - i -> within hi (j - i) ->
  k j = Some e ->
  (forall j', j < j' -> run cls i j' -> within hi (j' - i) -> k j' = None) ->
  m (Rep (Cls cls) lo hi) i k = Some e.
Proof.
  intros Hrun Hij Hlo Hhi Hk Hlonger. simpl.
  apply (rep_greedy cls lo hi k i j e); auto; try lia.
  destruct (Nat.eq_dec i j) as [->|Hne]; [lia|].
  pose proof (run_length cls i j Hrun ltac:(lia)). lia.
Qed.

(** The end of the stretch of a class that starts at [i]. *)
Lemma run_end cls : forall len i j,
  length s - j <= len -> run cls i j -> j <= length s ->
  exists j', j <= j' <= length s /\ run cls i j'
             /\ forall c, nth_error s j' = Some c -> cls c = false.
Proof.
  induction len as [|len IH]; intros i j Hlen Hrun Hj.
  - exists j. split; [lia|]. split; [exact Hrun|].
    intros c Hc. assert (j < length s) by (apply nth_error_Some; congruence).
    lia.
  - destruct (nth_error s j) as [c|] eqn:Hc.
    + destruct (cls c) eqn:Hcls.
      * assert (j < length s) by (apply nth_error_Some; congruence).
        destruct (IH i (S j)) as (j' & Hj' & Hrun' & Hend); try lia.
        { intros p Hp. destruct (Nat.eq_dec p j) as [->|Hne].
          - exists c. auto.
          - apply Hrun. lia. }
        exists j'. split; [lia|auto].
      * exists j. split; [lia|]. split; [exact Hrun|].
        intros c' Hc'. congruence.
    + exists j. split; [lia|]. split; [exact Hrun|]. intros c' Hc'. congruence.
Qed.

End Steps.

(** ** A URL in its context *)

Section UrlEval.

Variable ucd : UnicodeData.
Variable u : text.

Lemma m_Cat a b i k :
  m ucd u (a +++ b) i k = m ucd u a i (fun j => m ucd u b j k).
Proof. reflexivity. Qed.

Lemma lit_not a a' p : chr a <> chr a' -> lit_at u a p ->
  forall c, nth_error u p = Some c -> is_chr a' c = false.
Proof.
  unfold lit_at. intros Hne H c Hc. rewrite H in Hc. injection Hc as <-.
  apply N.eqb_neq. exact Hne.
Qed.

(** The matcher on a text that has the fixed part of a URL at [b]: the
    match runs to the end of the stretch of non-space characters. *)
Lemma url_eval b k0 j :
  url_shape ucd u b k0 -> run u (cls_nonspace ucd) k0 j -> k0 < j ->
  (forall c, nth_error u j = Some c -> cls_nonspace ucd c = false) ->
  match_at ucd u (url_re ucd) b = Some j.
Proof.
  intros (Hb & Hh & Ht1 & Ht2 & Hp & Hrest) Hrun Hlt Hend.
  assert (Tail : m ucd u (plus (Cls (cls_nonspace ucd))) k0 (fun j0 => Some j0)
                 = Some j).
  { apply (m_greedy ucd u _ 1 None k0 j);
      [exact Hrun | lia | lia | exact I | reflexivity | ].
    intros j' Hj' Hrun' _. exfalso.
    destruct (Hrun' j ltac:(lia)) as (c & Hc & Hcls).
    rewrite (Hend c Hc) in Hcls. discriminate. }
  unfold match_at, url_re.
  rewrite m_Cat, m_Bnd by exact Hb.
  rewrite m_Cat, (m_lit ucd u "h" b) by exact Hh.
  rewrite m_Cat, (m_lit ucd u "t" (S b))
    by (now replace (S b) with (b + 1) by lia).
  rewrite m_Cat, (m_lit ucd u "t" (S (S b)))
    by (now replace (S (S b)) with (b + 2) by lia).
  rewrite m_Cat, (m_lit ucd u "p" (S (S (S b))))
    by (now replace (S (S (S b))) with (b + 3) by lia).
  rewrite m_Cat.
  replace (S (S (S (S b)))) with (b + 4) by lia.
  destruct Hrest as [(-> & Hc & Hs1 & Hs2)|(-> & Hs & Hc & Hs1 & Hs2)].
  - apply (m_greedy ucd u _ 0 (Some 1) (b + 4) (b + 4));
      [ | lia | lia | simpl; lia | cbv beta | ].
    + intros p Hp'. lia.
    + rewrite m_Cat, (m_lit ucd u ":" (b + 4)) by exact Hc.
      rewrite m_Cat, (m_lit ucd u "/" (S (b + 4)))
        by (now replace (S (b + 4)) with (b + 5) by lia).
      rewrite m_Cat, (m_lit ucd u "/" (S (S (b + 4))))
        by (now replace (S (S (b + 4))) with (b + 6) by lia).
      replace (S (S (S (b + 4)))) with (b + 7) by lia. exact Tail.
    + intros j' Hj' Hrun' _. exfalso.
      destruct (Hrun' (b + 4) ltac:(lia)) as (c & Hc' & Hcls).
      rewrite (lit_not ":" "s" (b + 4) ltac:(discriminate) Hc c Hc') in Hcls.
      discriminate.
  - apply (m_greedy ucd u _ 0 (Some 1) (b + 4) (b + 5));
      [ | lia | lia | simpl; lia | cbv beta | ].
    + intros p Hp'. replace p with (b + 4) by lia.
      exists (chr "s"). split; [exact Hs|reflexivity].
    + rewrite m_Cat, (m_lit ucd u ":" (b + 5)) by exact Hc.
      rewrite m_Cat, (m_lit ucd u "/" (S (b + 5)))
        by (now replace (S (b + 5)) with (b + 6) by lia).
      rewrite m_Cat, (m_lit ucd u "/" (S (S (b + 5))))
        by (now replace (S (S (b + 5))) with (b + 7) by lia).
      replace (S (S (S (b + 5)))) with (b + 8) by lia. exact Tail.
    + intros j' Hj' _ Hw. simpl in Hw. lia.
Qed.

(** A URL match ends before whitespace or at the end of the text. *)
Lemma url_match_end b e :
  match_at ucd u (url_re ucd) b = Some e ->
  forall c, nth_error u e = Some c -> is_space ucd c = true.
Proof.
  intros Hm c Hc.
  pose proof (match_at_Some ucd u _ b e Hm) as H.
  apply url_Matches in H as (k0 & Hshape & Hk & Hrun).
  pose proof (run_length u _ k0 e Hrun Hk) as Hlen.
  destruct (run_end u (cls_nonspace ucd) (length u - e) k0 e
              ltac:(lia) Hrun Hlen) as (j & Hj & Hrun' & Hend).
  rewrite (url_eval b k0 j Hshape Hrun' ltac:(lia) Hend) in Hm.
  injection Hm as ->.
  specialize (Hend c Hc). unfold cls_nonspace in Hend.
  now apply negb_false_iff in Hend.
Qed.

End UrlEval.

Section UrlToken.

Variable ucd : UnicodeData.
Variables pre rest post : text.
Variable secure : bool.

Hypothesis Hpre : ends_nonword ucd pre = true.
Hypothesis Hne : rest <> [].
Hypothesis Hrest : forallb (cls_nonspace ucd) rest = true.

Local Abbreviation tok := (url_text secure rest).
Local Abbreviation t := (pre ++ tok ++ post).
Local Abbreviation n := (length pre).
Local Abbreviation e := (length pre + length tok).
Local Abbreviation u1 := (re_sub ucd (ipv4_re ucd) _mask_match t).
Local Abbreviation k0 := (length pre + (if secure then 8 else 7)).

Lemma url_text_length :
  length tok = (if secure then 8 else 7) + length rest.
Proof. unfold url_text. destruct secure; simpl; lia. Qed.

Lemma url_tok_nth k : k < length tok -> nth_error t (n + k) = nth_error tok k.
Proof. apply stretch_nth. Qed.

Lemma url_tok_nonspace : forallb (cls_nonspace ucd) tok = true.
Proof. unfold url_text. destruct secure; simpl; exact Hrest. Qed.

Lemma url_rest_length : 0 < length rest.
Proof. destruct rest; [contradiction|simpl; lia]. Qed.

Lemma url_run_t : run t (cls_nonspace ucd) n e.
Proof.
  pose proof (stretch_run (cls_nonspace ucd) pre [] tok post url_tok_nonspace)
    as H.
  simpl in H. now rewrite Nat.add_0_r in H.
Qed.

Lemma url_lits_t :
  lit_at t "h" n /\ lit_at t "t" (n + 1) /\ lit_at t "t" (n + 2)
  /\ lit_at t "p" (n + 3)
  /\ ((secure = false /\ lit_at t ":" (n + 4) /\ lit_at t "/" (n + 5)
       /\ lit_at t "/" (n + 6))
      \/ (secure = true /\ lit_at t "s" (n + 4) /\ lit_at t ":" (n + 5)
          /\ lit_at t "/" (n + 6) /\ lit_at t "/" (n + 7))).
Proof.
  pose proof url_text_length as Hl. pose proof url_rest_length as Hr.
  assert (N0 : nth_error t n = nth_error tok 0).
  { rewrite <- (Nat.add_0_r n) at 1. apply url_tok_nth. lia. }
  unfold lit_at. rewrite N0, !url_tok_nth by (destruct secure; lia).
  unfold url_text. destruct secure; simpl; auto 10.
Qed.

Lemma url_k0 : k0 < e.
Proof.
  pose proof url_text_length. pose proof url_rest_length.
  destruct secure; lia.
Qed.

(** The IPv4 pass leaves the character before the URL alone. *)
Lemma url_before_kept c :
  0 < n -> nth_error t (n - 1) = Some c ->
  nth_error u1 (n - 1) = Some c /\ is_word ucd c = false.
Proof.
  intros Hn Hc.
  assert (Hw : is_word ucd c = false).
  { destruct (stretch_before pre _ c Hn Hc) as (l & Hl).
    unfold ends_nonword in Hpre. rewrite Hl in Hpre.
    now apply negb_true_iff in Hpre. }
  split; [|exact Hw].
  rewrite re_sub_unmasked; [exact Hc|].
  apply not_true_is_false. intros Hcov.
  apply covered_Matches in Hcov as (b & j & _ & Hp & Hm).
  pose proof (Matches_classes ucd t _ _ b j (ipv4_classes ucd) Hm) as Hrun.
  destruct (Matches_last ucd t _ _ b j (ipv4_last ucd) Hm) as (_ & Hlast).
  destruct (Nat.eq_dec j n) as [->|Hjn].
  - destruct Hlast as (c' & Hc' & Hd). rewrite Hc in Hc'. injection Hc' as <-.
    rewrite (digit_word ucd c Hd) in Hw. discriminate.
  - destruct (Hrun n ltac:(lia)) as (c' & Hc' & Hd).
    destruct url_lits_t as (Hh & _). unfold lit_at in Hh.
    rewrite Hh in Hc'. injection Hc' as <-. discriminate.
Qed.

Lemma url_shape_u1 : url_shape ucd u1 n k0.
Proof.
  destruct url_lits_t as (Hh & Ht1 & Ht2 & Hp & Hrest').
  assert (L : forall a p, digit_or_dot ucd (chr a) = false ->
                          lit_at t a p -> lit_at u1 a p).
  { intros a p Ha. apply (re_sub_lit ucd (digit_or_dot ucd));
      [apply ipv4_classes|exact Ha]. }
  split; [|repeat split; try (apply L; [reflexivity|assumption])].
  - unfold at_boundary. rewrite (L "h"%char n eq_refl Hh).
    destruct (Nat.eq_dec n 0) as [E|E]; [now rewrite E|].
    rewrite before_pred by lia.
    destruct (nth_error t (n - 1)) as [c|] eqn:Hc.
    + destruct (url_before_kept c ltac:(lia) Hc) as [Hu Hw].
      rewrite Hu. simpl. now rewrite Hw.
    + exfalso. apply nth_error_None in Hc. rewrite length_app in Hc. lia.
  - destruct Hrest' as [(-> & Hc & Hs1 & Hs2)|(-> & Hs & Hc & Hs1 & Hs2)];
      [left|right]; repeat split; try (apply L; [reflexivity|assumption]).
Qed.

Lemma url_run_u1 : run u1 (cls_nonspace ucd) n e.
Proof. apply re_sub_run; [reflexivity|apply url_run_t]. Qed.

Lemma url_covered p :
  n <= p < e -> covered (finditer ucd (url_re ucd) u1) p = true.
Proof.
  intros Hp. pose proof url_k0 as Hk.
  assert (HM : Matches ucd u1 (url_re ucd) n e).
  { apply url_Matches. exists k0. split; [apply url_shape_u1|].
    split; [exact Hk|]. intros q Hq. apply url_run_u1.
    destruct secure; lia. }
  destruct (match_at ucd u1 (url_re ucd) n) as [e1|] eqn:Hm.
  2:{ exfalso. exact (match_at_None ucd u1 _ n e (url_progressive ucd) Hm HM). }
  pose proof (match_covered ucd _ u1 n e1 (url_min_len ucd) Hm) as Hc.
  apply covered_In in Hc as (bs & es & Hin & Hb).
  pose proof Hin as Hspan.
  apply find_loop_spans in Hspan as (_ & _ & Hes & Hms).
  apply covered_In. exists bs, es. split; [exact Hin|].
  destruct (Nat.lt_ge_cases es e) as [Hlt|Hge]; [exfalso|lia].
  destruct (url_run_u1 es ltac:(lia)) as (c & Hc & Hns).
  unfold cls_nonspace in Hns.
  rewrite (url_match_end ucd u1 bs es Hms c Hc) in Hns. discriminate.
Qed.

Lemma url_masked p :
  n <= p < e -> nth_error (anonymise_text ucd t) p = Some (chr "x").
Proof.
  intros Hp. apply masked_to_end. right. left.
  apply re_sub_masked; [now apply url_covered|].
  rewrite re_sub_length, !length_app. lia.
Qed.

End UrlToken.

Section UrlClaim.

Variable ucd : UnicodeData.

(** X1: a URL ([http://] or [https://] and at least one more character)
    that follows the start of the text or a non-word character is masked
    up to the next whitespace, whatever it holds and whatever comes after
    it: every character of it becomes [x]. *)
Theorem url_masked_to_whitespace (pre rest post : text) (secure : bool) :
  ends_nonword ucd pre = true ->
  rest <> [] -> forallb (cls_nonspace ucd) rest = true ->
  exists pre' post',
    anonymise_text ucd (pre ++ url_text secure rest ++ post)
    = pre' ++ repeat (chr "x") (length (url_text secure rest)) ++ post'
    /\ masked_of pre pre' /\ masked_of post post'.
Proof.
  intros Hpre Hne Hrest. apply masked_stretch. intros p Hp.
  now apply url_masked.
Qed.

End UrlClaim.

(** X1 at a URL in parentheses with an address, a port and a query. *)
Lemma url_masked_to_whitespace_witness :
  exists pre' post',
    anonymise_text ascii_only
      (str "see (" ++ url_text true (str "10.0.0.5:8443/admin?u=a@b.c),") ++ str " then")
    = pre' ++ repeat (chr "x")
                (length (url_text true (str "10.0.0.5:8443/admin?u=a@b.c),")))
      ++ post'
    /\ masked_of (str "see (") pre' /\ masked_of (str " then") post'.
Proof.
  apply (url_masked_to_whitespace ascii_only); [reflexivity|discriminate|reflexivity].
Defined.

Section MaxLen.

Variable ucd : UnicodeData.
Variable s : text.

Lemma Matches_max r : forall i j,
  Matches ucd s r i j ->
  match max_len r with
  | Some h => j <= i + h
  | None => True
  end.
Proof.
  induction r as [cls| |a IHa b IHb|a IHa lo hi]; intros i j; simpl.
  - intros (c & _ & _ & ->). lia.
  - intros [_ ->]. lia.
  - intros (j1 & Ha & Hb). specialize (IHa _ _ Ha). specialize (IHb _ _ Hb).
    destruct (max_len a), (max_len b); auto. lia.
  - intros (c & _ & Hhi & Hit).
    destruct (max_len a) as [x|]; [|exact I].
    destruct hi as [h|]; [|exact I]. simpl in Hhi.
    assert (j <= i + c * x).
    { clear Hhi. revert i Hit. induction c as [|c IHc]; intros i; simpl.
      - intros ->. lia.
      - intros (j1 & H1 & H2). specialize (IHa _ _ H1).
        specialize (IHc _ H2). lia. }
    nia.
Qed.

End MaxLen.

(** ** A stretch of the text between whitespace *)

Section Framed.

Variable ucd : UnicodeData.
Hypothesis Hsane : space_not_word ucd.

Local Abbreviation pass r u := (re_sub ucd r _mask_match u).

Lemma digit_or_dot_no_space c :
  digit_or_dot ucd c = true -> is_space ucd c = false.
Proof.
  unfold digit_or_dot. intros H. apply orb_true_iff in H as [H|H].
  - apply not_true_is_false. intros Hs. apply Hsane in Hs.
    rewrite (digit_word ucd c H) in Hs. discriminate.
  - apply N.eqb_eq in H. subst c. reflexivity.
Qed.

Lemma nonspace_no_space c : cls_nonspace ucd c = true -> is_space ucd c = false.
Proof. unfold cls_nonspace. apply negb_true_iff. Qed.

Lemma email_chars_no_space c : email_chars c = true -> is_space ucd c = false.
Proof. intros H. apply printable_not_space, email_chars_printable, H. Qed.

Lemma mac_chars_no_space c : mac_chars c = true -> is_space ucd c = false.
Proof. intros H. apply printable_not_space, mac_chars_printable, H. Qed.

Lemma cls_domain_no_space c : cls_domain c = true -> is_space ucd c = false.
Proof. intros H. apply printable_not_space, cls_domain_printable, H. Qed.

Lemma space_nonword_at u p :
  gap_at ucd u p -> word_at ucd (nth_error u p) = false.
Proof.
  intros H. unfold gap_at in H.
  destruct (nth_error u p) as [c|]; [|reflexivity].
  simpl. apply Hsane, H. reflexivity.
Qed.

Section Pattern.

Variable r : regex.
Variable K : char -> bool.
Hypothesis r_classes : classes_in K r.
Hypothesis K_no_space : forall c, K c = true -> is_space ucd c = false.

(** No match holds whitespace. *)
Lemma gap_outside u b j p :
  Matches ucd u r b j -> gap_at ucd u p -> b <= p < j -> False.
Proof.
  intros Hm Hg Hp.
  destruct (Matches_classes ucd u K r b j r_classes Hm p Hp) as (c & Hc & Hk).
  pose proof (Hg c Hc) as Hs. apply K_no_space in Hk. congruence.
Qed.

Lemma gap_unmasked u p :
  gap_at ucd u p -> covered (finditer ucd r u) p = false.
Proof.
  intros Hg. apply not_true_is_false. intros Hcov.
  apply covered_Matches in Hcov as (b & j & _ & Hp & Hm).
  exact (gap_outside u b j p Hm Hg Hp).
Qed.

Lemma gap_kept u p : gap_at ucd u p -> gap_at ucd (pass r u) p.
Proof.
  intros Hg c Hc. rewrite re_sub_unmasked in Hc by now apply gap_unmasked.
  exact (Hg c Hc).
Qed.

Lemma framed_kept u n e : framed ucd u n e -> framed ucd (pass r u) n e.
Proof. intros [H1 H2]. split; [intros Hn|]; apply gap_kept; auto. Qed.

(** A match that meets the stretch lies within it. *)
Lemma framed_inside u n e b j :
  framed ucd u n e -> Matches ucd u r b j -> b < e -> n < j ->
  n <= b /\ j <= e.
Proof.
  intros [H1 H2] Hm Hbe Hnj. split.
  - destruct (Nat.le_gt_cases n b) as [|Hlt]; [assumption|exfalso].
    apply (gap_outside u b j (n - 1) Hm); [apply H1|]; lia.
  - destruct (Nat.le_gt_cases j e) as [|Hlt]; [assumption|exfalso].
    apply (gap_outside u b j e Hm H2). lia.
Qed.

Lemma framed_before u n e b j :
  framed ucd u n e -> b < n -> Matches ucd u r b j -> j <= n.
Proof.
  intros [H1 H2] Hb Hm.
  destruct (Nat.le_gt_cases j n) as [|Hlt]; [assumption|exfalso].
  apply (gap_outside u b j (n - 1) Hm); [apply H1|]; lia.
Qed.

(** A pattern that needs a character the stretch does not have leaves the
    stretch and its two neighbours alone. *)
Lemma no_span (P : char -> bool) u n e :
  framed ucd u n e -> must_have P r ->
  (forall p c, n <= p < e -> nth_error u p = Some c -> P c = false) ->
  forall p, n <= S p -> p <= e -> covered (finditer ucd r u) p = false.
Proof.
  intros [H1 H2] HP Hno p Hp1 Hp2. apply not_true_is_false. intros Hcov.
  apply covered_Matches in Hcov as (b & j & _ & Hp & Hm).
  destruct (Matches_must ucd u P r b j HP Hm) as (p0 & Hp0 & (c0 & Hc0 & HPc)).
  destruct (Nat.lt_ge_cases p0 n) as [Hlt|Hge].
  - apply (gap_outside u b j (n - 1) Hm); [apply H1|]; lia.
  - destruct (Nat.lt_ge_cases p0 e) as [Hlt'|Hge'].
    + rewrite (Hno p0 c0 ltac:(lia) Hc0) in HPc. discriminate.
    + apply (gap_outside u b j e Hm H2). lia.
Qed.

End Pattern.

Lemma framed_left u n e :
  framed ucd u n e -> char_in u (is_word ucd) n -> at_boundary ucd u n = true.
Proof.
  intros [H1 _] (c & Hc & Hw). unfold at_boundary. rewrite Hc. simpl.
  rewrite Hw. destruct (Nat.eq_dec n 0) as [->|Hn]; [reflexivity|].
  rewrite before_pred by lia.
  now rewrite (space_nonword_at u (n - 1) (H1 ltac:(lia))).
Qed.

Lemma framed_right u n e :
  framed ucd u n e -> 0 < e -> char_in u (is_word ucd) (e - 1) ->
  at_boundary ucd u e = true.
Proof.
  intros [_ H2] He (c & Hc & Hw). unfold at_boundary.
  rewrite before_pred, Hc by lia. simpl. rewrite Hw.
  now rewrite (space_nonword_at u e H2).
Qed.

(** The stretch in the text it was given in. *)
Lemma framed_stretch (pre tok post : text) :
  ends_space ucd pre = true -> starts_space ucd post = true ->
  framed ucd (pre ++ tok ++ post) (length pre) (length pre + length tok).
Proof.
  intros Hpre Hpost. split.
  - intros Hn c Hc. destruct (stretch_before pre _ c Hn Hc) as (l & Hl).
    unfold ends_space in Hpre. now rewrite Hl in Hpre.
  - intros c Hc. rewrite stretch_end in Hc.
    unfold starts_space in Hpost. destruct post as [|c0 l]; [discriminate|].
    injection Hc as <-. exact Hpost.
Qed.

Lemma same_region_framed (t u : text) n e :
  n <= e -> same_region t n e u -> framed ucd t n e -> framed ucd u n e.
Proof.
  intros Hne [_ Hag] [H1 H2]. split.
  - intros Hn c Hc. rewrite Hag in Hc by lia. now apply H1.
  - intros c Hc. rewrite Hag in Hc by lia. now apply H2.
Qed.

(** A pass of a pattern that needs a character the stretch does not have
    keeps the stretch and its two neighbours. *)
Lemma untouched r (K P : char -> bool) (t u : text) n e :
  classes_in K r -> (forall c, K c = true -> is_space ucd c = false) ->
  must_have P r ->
  n <= e -> framed ucd t n e ->
  (forall p c, n <= p < e -> nth_error t p = Some c -> P c = false) ->
  same_region t n e u -> same_region t n e (pass r u).
Proof.
  intros HK Hsp HP Hne Hf Hno Hu. pose proof Hu as [Hl Hag]. split.
  - now rewrite re_sub_length.
  - intros p Hp1 Hp2. rewrite re_sub_unmasked; [now apply Hag|].
    apply (no_span r K HK Hsp P u n e); auto.
    + exact (same_region_framed t u n e Hne Hu Hf).
    + intros q c Hq Hc. rewrite Hag in Hc by lia. eauto.
Qed.

End Framed.

(** ** A MAC address between whitespace *)

Section MorePatternFacts.

Variable ucd : UnicodeData.

Lemma ipv4_must : must_have (is_chr ".") (ipv4_re ucd).
Proof. simpl. right. left. split; [lia|]. right. tauto. Qed.

Lemma url_must_slash : must_have (is_chr "/") (url_re ucd).
Proof. simpl. do 7 right. left. tauto. Qed.

Lemma mac_max_len : max_len mac_re = Some 17.
Proof. reflexivity. Qed.

Lemma hex_not a c :
  (chr a = 46 \/ chr a = 47 \/ chr a = 64)%N ->
  mac_chars c = true -> is_chr a c = false.
Proof.
  intros Ha H. apply not_true_is_false. intros Hc.
  apply is_chr_spec in Hc. subst c.
  unfold mac_chars, cls_hex in H.
  rewrite !orb_true_iff, !in_range_spec, is_chr_spec in H.
  unfold chr in *. simpl in *. lia.
Qed.

End MorePatternFacts.

Section MacToken.

Variable ucd : UnicodeData.
Hypothesis Hsane : space_not_word ucd.
Variables pre post : text.
Variables a1 b1 a2 b2 a3 b3 a4 b4 a5 b5 a6 b6 : char.

Hypothesis Hhex :
  forallb cls_hex [a1; b1; a2; b2; a3; b3; a4; b4; a5; b5; a6; b6] = true.
Hypothesis Hpre : ends_space ucd pre = true.
Hypothesis Hpost : starts_space ucd post = true.

Local Abbreviation tok :=
  [a1; b1; chr ":"; a2; b2; chr ":"; a3; b3; chr ":"; a4; b4; chr ":";
   a5; b5; chr ":"; a6; b6].
Local Abbreviation t := (pre ++ tok ++ post).
Local Abbreviation n := (length pre).
Local Abbreviation e := (length pre + 17).
Local Abbreviation pass r u := (re_sub ucd r _mask_match u).
Local Abbreviation u3 :=
  (pass email_re (pass (url_re ucd) (pass (ipv4_re ucd) t))).

Lemma mac_framed : framed ucd t n e.
Proof. exact (framed_stretch ucd pre tok post Hpre Hpost). Qed.

Lemma mac_nth k : k < 17 -> nth_error t (n + k) = nth_error tok k.
Proof. intros Hk. apply stretch_nth. simpl. lia. Qed.

Lemma mac_hex k :
  In k [0; 1; 3; 4; 6; 7; 9; 10; 12; 13; 15; 16] ->
  char_in t cls_hex (n + k).
Proof.
  intros Hk. unfold char_in.
  simpl in Hhex. repeat (apply andb_true_iff in Hhex as [? Hhex]).
  simpl in Hk.
  repeat (destruct Hk as [<-|Hk]; [rewrite mac_nth by lia; simpl; eauto|]).
  contradiction.
Qed.

Lemma mac_colon k : In k [2; 5; 8; 11; 14] -> lit_at t ":" (n + k).
Proof.
  intros Hk. unfold lit_at. simpl in Hk.
  repeat (destruct Hk as [<-|Hk]; [rewrite mac_nth by lia; reflexivity|]).
  contradiction.
Qed.

Lemma mac_tok_chars p c :
  n <= p < e -> nth_error t p = Some c -> mac_chars c = true.
Proof.
  intros Hp Hc. unfold mac_chars.
  replace p with (n + (p - n)) in Hc by lia.
  assert (Hk : p - n < 17) by lia. revert Hc Hk. generalize (p - n) as k.
  intros k Hc Hk.
  assert (Hx : forall k0, In k0 [0; 1; 3; 4; 6; 7; 9; 10; 12; 13; 15; 16] ->
               nth_error t (n + k0) = Some c -> cls_hex c || is_chr ":" c = true).
  { intros k0 H0 Hc0. destruct (mac_hex k0 H0) as (c' & Hc' & Hh).
    rewrite Hc' in Hc0. injection Hc0 as <-. now rewrite Hh. }
  assert (Hy : forall k0, In k0 [2; 5; 8; 11; 14] ->
               nth_error t (n + k0) = Some c -> cls_hex c || is_chr ":" c = true).
  { intros k0 H0 Hc0. pose proof (mac_colon k0 H0) as Hl.
    unfold lit_at in Hl. rewrite Hl in Hc0. injection Hc0 as <-.
    apply orb_true_r. }
  do 17 (destruct k as [|k];
         [match type of Hc with
          | nth_error _ (_ + ?k0) = _ =>
              first [apply (Hx k0); [simpl; tauto|exact Hc]
                    |apply (Hy k0); [simpl; tauto|exact Hc]]
          end|]).
  lia.
Qed.

Lemma mac_group_Matches i :
  char_in t cls_hex i -> char_in t cls_hex (i + 1) -> lit_at t ":" (i + 2) ->
  Matches ucd t (Rep (Cls cls_hex) 2 (Some 2) +++ lit ":") i (i + 3).
Proof.
  intros H1 H2 H3. exists (i + 2). split.
  - apply Matches_rep_cls. simpl. repeat split; try lia.
    intros p Hp. destruct (Nat.eq_dec p i) as [->|Hne]; [exact H1|].
    now replace p with (i + 1) by lia.
  - apply Matches_lit. split; [exact H3|lia].
Qed.

Lemma mac_Matches_t : Matches ucd t mac_re n e.
Proof.
  assert (G : forall k, In k [0; 3; 6; 9; 12] ->
            Matches ucd t (Rep (Cls cls_hex) 2 (Some 2) +++ lit ":")
                    (n + k) (n + (k + 3))).
  { intros k Hk.
    replace (n + (k + 3)) with (n + k + 3) by lia.
    apply mac_group_Matches.
    - apply mac_hex. simpl in *. tauto.
    - rewrite <- Nat.add_assoc. apply mac_hex. simpl in *.
      repeat (destruct Hk as [<-|Hk]; [simpl; tauto|]). contradiction.
    - rewrite <- Nat.add_assoc. apply mac_colon. simpl in *.
      repeat (destruct Hk as [<-|Hk]; [simpl; tauto|]). contradiction. }
  exists n. split.
  { split; [|reflexivity]. apply (framed_left ucd Hsane t n e mac_framed).
    eapply char_in_weaken; [apply cls_hex_word|].
    rewrite <- (Nat.add_0_r n). apply mac_hex; simpl; tauto. }
  exists (n + 15). split.
  { exists 5. split; [lia|]. split; [simpl; lia|].
    exists (n + 3). split;
      [rewrite <- (Nat.add_0_r n) at 1; apply (G 0); simpl; tauto|].
    exists (n + 6). split; [apply (G 3); simpl; tauto|].
    exists (n + 9). split; [apply (G 6); simpl; tauto|].
    exists (n + 12). split; [apply (G 9); simpl; tauto|].
    exists (n + 15). split; [apply (G 12); simpl; tauto|reflexivity]. }
  exists e. split.
  { apply Matches_rep_cls. simpl. repeat split; try lia.
    intros p Hp. replace p with (n + (p - n)) by lia.
    apply mac_hex.
    destruct (Nat.eq_dec (p - n) 15) as [->|N15]; [simpl; tauto|].
    replace (p - n) with 16 by lia. simpl. tauto. }
  split; [|reflexivity].
  apply (framed_right ucd Hsane t n e mac_framed); [lia|].
  eapply char_in_weaken; [apply cls_hex_word|].
  replace (e - 1) with (n + 16) by lia. apply mac_hex; simpl; tauto.
Qed.

Lemma mac_region_u3 : same_region t n e u3.
Proof.
  assert (No : forall a, (chr a = 46 \/ chr a = 47 \/ chr a = 64)%N ->
             forall p c, n <= p < e -> nth_error t p = Some c ->
                         is_chr a c = false).
  { intros a Ha p c Hp Hc. apply hex_not; [exact Ha|].
    now apply (mac_tok_chars p). }
  assert (R0 : same_region t n e t) by (split; auto).
  pose proof (untouched ucd _ _ (is_chr ".") t t n e
                (ipv4_classes ucd) (digit_or_dot_no_space ucd Hsane)
                (ipv4_must ucd) ltac:(lia) mac_framed
                (No "."%char ltac:(auto)) R0) as R1.
  pose proof (untouched ucd _ _ (is_chr "/") t _ n e
                (url_classes ucd) (nonspace_no_space ucd)
                (url_must_slash ucd) ltac:(lia) mac_framed
                (No "/"%char ltac:(auto)) R1) as R2.
  exact (untouched ucd _ _ (is_chr "@") t _ n e
           email_classes (email_chars_no_space ucd)
           email_must ltac:(lia) mac_framed
           (No "@"%char ltac:(auto)) R2).
Qed.

Lemma mac_match_u3 : match_at ucd u3 mac_re n = Some e.
Proof.
  pose proof mac_region_u3 as [Hl Hag].
  assert (HM : Matches ucd u3 mac_re n e).
  { apply (Matches_local ucd u3 t n e mac_re n e); auto; try lia.
    apply mac_Matches_t. }
  destruct (match_at ucd u3 mac_re n) as [e1|] eqn:Hm.
  - f_equal. apply match_at_Some in Hm.
    pose proof (Matches_bounds ucd u3 _ _ _ Hm) as [Hlo _].
    pose proof (Matches_max ucd u3 _ _ _ Hm) as Hhi.
    rewrite mac_max_len in Hhi. simpl in Hlo. lia.
  - exfalso. exact (match_at_None ucd u3 _ n e mac_progressive Hm HM).
Qed.

Lemma mac_masked p :
  n <= p < e -> nth_error (anonymise_text ucd t) p = Some (chr "x").
Proof.
  intros Hp. apply masked_to_end. do 3 right. left.
  apply re_sub_masked.
  - apply (span_at ucd mac_re u3 n e mac_min_len mac_match_u3); [|exact Hp].
    intros b j Hb Hm.
    apply (framed_before ucd mac_re mac_chars mac_classes
             (mac_chars_no_space ucd) u3 n e b j); auto.
    apply (same_region_framed ucd t u3 n e ltac:(lia) mac_region_u3 mac_framed).
  - rewrite !re_sub_length, !length_app. simpl. lia.
Qed.

End MacToken.

Lemma hex_pair_inv o :
  hex_pair o = true ->
  exists a b, o = [a; b] /\ cls_hex a = true /\ cls_hex b = true.
Proof.
  unfold hex_pair. intros H. apply andb_true_iff in H as [Hl Hh].
  apply Nat.eqb_eq in Hl.
  destruct o as [|a [|b [|c o]]]; try discriminate.
  simpl in Hh. rewrite andb_true_r in Hh.
  apply andb_true_iff in Hh as [Ha Hb]. eauto.
Qed.

Section MacClaim.

Variable ucd : UnicodeData.

(** X2: a MAC address (six pairs of hexadecimal digits separated by
    colons) that stands between whitespace, or at an end of the text,
    becomes a run of seventeen [x].  The runtime's tables are supposed to
    call no whitespace character alphanumeric. *)
Theorem mac_address_masked (pre o1 o2 o3 o4 o5 o6 post : text) :
  space_not_word ucd ->
  hex_pair o1 = true -> hex_pair o2 = true -> hex_pair o3 = true ->
  hex_pair o4 = true -> hex_pair o5 = true -> hex_pair o6 = true ->
  ends_space ucd pre = true -> starts_space ucd post = true ->
  exists pre' post',
    anonymise_text ucd (pre ++ mac_text o1 o2 o3 o4 o5 o6 ++ post)
    = pre' ++ repeat (chr "x") 17 ++ post'
    /\ masked_of pre pre' /\ masked_of post post'.
Proof.
  intros Hsane H1 H2 H3 H4 H5 H6 Hpre Hpost.
  apply hex_pair_inv in H1 as (a1 & b1 & -> & A1 & B1).
  apply hex_pair_inv in H2 as (a2 & b2 & -> & A2 & B2).
  apply hex_pair_inv in H3 as (a3 & b3 & -> & A3 & B3).
  apply hex_pair_inv in H4 as (a4 & b4 & -> & A4 & B4).
  apply hex_pair_inv in H5 as (a5 & b5 & -> & A5 & B5).
  apply hex_pair_inv in H6 as (a6 & b6 & -> & A6 & B6).
  apply (masked_stretch ucd pre (mac_text [a1; b1] [a2; b2] [a3; b3]
                                   [a4; b4] [a5; b5] [a6; b6]) post).
  intros p Hp.
  apply (mac_masked ucd Hsane pre post a1 b1 a2 b2 a3 b3 a4 b4 a5 b5 a6 b6);
    auto.
  simpl. now rewrite A1, B1, A2, B2, A3, B3, A4, B4, A5, B5, A6, B6.
Qed.

End MacClaim.

(** The tables with nothing outside ASCII call no whitespace character
    alphanumeric. *)
Lemma ascii_only_space_not_word : space_not_word ascii_only.
Proof.
  intros c H. unfold is_space in H. unfold is_word, is_alnum, is_chr, in_range.
  destruct (c <? 128)%N eqn:E; [|discriminate H].
  apply orb_true_iff in H.
  rewrite !andb_true_iff, !N.leb_le in H.
  rewrite !orb_false_iff, !andb_false_iff, !N.leb_gt, N.eqb_neq.
  unfold chr. simpl. lia.
Qed.

(** X2 at [00:1A:2b:3C:4d:5E]. *)
Lemma mac_address_masked_witness :
  exists pre' post',
    anonymise_text ascii_only
      (str "NIC " ++ mac_text (str "00") (str "1A") (str "2b") (str "3C")
                              (str "4d") (str "5E") ++ str " seen")
    = pre' ++ repeat (chr "x") 17 ++ post'
    /\ masked_of (str "NIC ") pre' /\ masked_of (str " seen") post'.
Proof.
  apply (mac_address_masked ascii_only);
    [exact ascii_only_space_not_word|reflexivity..].
Defined.

(** ** A port phrase between whitespace *)

Section PortShape.

Variable ucd : UnicodeData.
Variable u : text.

Lemma nocase_no_space a c :
  in_range "a" "z" (chr a) = true ->
  is_chr_nocase a c = true -> is_space ucd c = false.
Proof.
  intros Ha H. apply printable_not_space.
  destruct (nocase_spec a c Ha H) as [->|E];
    apply in_range_spec in Ha; unfold printable;
    apply andb_true_iff; rewrite !N.leb_le; unfold chr in *; simpl in *; lia.
Qed.

Lemma digit_not_p c : is_digit ucd c = true -> is_chr_nocase "p" c = false.
Proof.
  intros Hd. apply not_true_is_false. intros Hp.
  destruct (nocase_spec "p" c eq_refl Hp) as [->|E].
  - discriminate.
  - assert (c = 80%N) by (unfold chr in E; simpl in E; lia). subst c.
    discriminate.
Qed.

(** What a port match looks like. *)
Lemma port_Matches_shape b j :
  Matches ucd u (port_re ucd) b j ->
  char_in u (is_chr_nocase "p") b /\ char_in u (is_chr_nocase "o") (b + 1)
  /\ char_in u (is_chr_nocase "r") (b + 2)
  /\ char_in u (is_chr_nocase "t") (b + 3)
  /\ exists g, b + 4 < g /\ run u (is_space ucd) (b + 4) g
               /\ g < j /\ run u (is_digit ucd) g j.
Proof.
  unfold port_re, lit_nocase, plus.
  intros (j0 & [_ ->] & j1 & Hp & j2 & Ho & j3 & Hr & j4 & Ht & g & Hs
          & j5 & Hd & [_ ->]).
  destruct Hp as (c0 & C0 & K0 & ->), Ho as (c1 & C1 & K1 & ->),
    Hr as (c2 & C2 & K2 & ->), Ht as (c3 & C3 & K3 & ->).
  apply Matches_rep_cls in Hs as (S1 & S2 & _ & S3).
  apply Matches_rep_cls in Hd as (D1 & D2 & _ & D3).
  replace (b + 1) with (S b) by lia.
  replace (b + 2) with (S (S b)) by lia.
  replace (b + 3) with (S (S (S b))) by lia.
  replace (b + 4) with (S (S (S (S b)))) by lia.
  unfold char_in. repeat split; eauto.
  exists g. repeat split; auto; lia.
Qed.

(** The matcher on a text that has a port phrase at [b]. *)
Lemma port_eval b g e :
  space_not_word ucd ->
  at_boundary ucd u b = true ->
  char_in u (is_chr_nocase "p") b -> char_in u (is_chr_nocase "o") (b + 1) ->
  char_in u (is_chr_nocase "r") (b + 2) ->
  char_in u (is_chr_nocase "t") (b + 3) ->
  b + 4 < g -> run u (is_space ucd) (b + 4) g ->
  g < e -> e <= g + 5 -> run u (is_digit ucd) g e ->
  at_boundary ucd u e = true -> gap_at ucd u e ->
  match_at ucd u (port_re ucd) b = Some e.
Proof.
  intros Hsane Hb Hp Ho Hr Ht Hg Hs He He5 Hd Hbe Hgap.
  assert (NotBoth : forall p, char_in u (is_digit ucd) p ->
                              char_in u (is_space ucd) p -> False).
  { intros p H1 H2.
    destruct (char_in_both u _ _ p H1 H2) as (c & _ & Hdc & Hsc).
    apply Hsane in Hsc. rewrite (digit_word ucd c Hdc) in Hsc. discriminate. }
  unfold match_at, port_re, lit_nocase.
  rewrite m_Cat, m_Bnd by exact Hb.
  rewrite m_Cat, (m_Cls ucd u _ b) by exact Hp.
  rewrite m_Cat, (m_Cls ucd u _ (S b))
    by (now replace (S b) with (b + 1) by lia).
  rewrite m_Cat, (m_Cls ucd u _ (S (S b)))
    by (now replace (S (S b)) with (b + 2) by lia).
  rewrite m_Cat, (m_Cls ucd u _ (S (S (S b))))
    by (now replace (S (S (S b))) with (b + 3) by lia).
  rewrite m_Cat. replace (S (S (S (S b)))) with (b + 4) by lia.
  apply (m_greedy ucd u _ 1 None (b + 4) g);
    [exact Hs | lia | lia | exact I | cbv beta | ].
  - rewrite m_Cat.
    apply (m_greedy ucd u _ 1 (Some 5) g e);
      [exact Hd | lia | lia | simpl; lia | cbv beta | ].
    + now rewrite m_Bnd.
    + intros j' Hj' Hrun' _. exfalso.
      apply (NotBoth e); [apply Hrun'; lia|].
      destruct (Hrun' e ltac:(lia)) as (c & Hc & _).
      exists c. split; [exact Hc|]. now apply Hgap.
  - intros j' Hj' Hrun' _.
    destruct (m ucd u (Rep (Cls (is_digit ucd)) 1 (Some 5) +++ Bnd) j'
                (fun j0 => Some j0)) eqn:E; [exfalso|reflexivity].
    apply (NotBoth g); [apply Hd; lia|apply Hrun'; lia].
Qed.

End PortShape.

Section PortToken.

Variable ucd : UnicodeData.
Hypothesis Hsane : space_not_word ucd.
Variables pre post gap digits : text.
Variables w0 w1 w2 w3 : char.

Hypothesis Hw0 : is_chr_nocase "p" w0 = true.
Hypothesis Hw1 : is_chr_nocase "o" w1 = true.
Hypothesis Hw2 : is_chr_nocase "r" w2 = true.
Hypothesis Hw3 : is_chr_nocase "t" w3 = true.
Hypothesis Hgap : forallb (is_space ucd) gap = true.
Hypothesis Hdig : forallb (is_digit ucd) digits = true.
Hypothesis Lgap : 1 <= length gap.
Hypothesis Ldig : 1 <= length digits <= 5.
Hypothesis Hpre : ends_space ucd pre = true.
Hypothesis Hpost : starts_space ucd post = true.

Local Abbreviation tok := (port_text [w0; w1; w2; w3] gap digits).
Local Abbreviation t := (pre ++ tok ++ post).
Local Abbreviation n := (length pre).
Local Abbreviation g := (length pre + 4 + length gap).
Local Abbreviation e := (length pre + length tok).
Local Abbreviation pass r u := (re_sub ucd r _mask_match u).
Local Abbreviation u4 :=
  (pass mac_re (pass email_re (pass (url_re ucd) (pass (ipv4_re ucd) t)))).

Lemma port_tok_length : length tok = 4 + length gap + length digits.
Proof. unfold port_text. simpl. rewrite length_app. lia. Qed.

Lemma port_framed : framed ucd t n e.
Proof. exact (framed_stretch ucd pre tok post Hpre Hpost). Qed.

Lemma port_letters :
  char_in t (is_chr_nocase "p") n /\ char_in t (is_chr_nocase "o") (n + 1)
  /\ char_in t (is_chr_nocase "r") (n + 2)
  /\ char_in t (is_chr_nocase "t") (n + 3).
Proof.
  pose proof port_tok_length as Hl.
  assert (N0 : nth_error t n = nth_error tok 0).
  { rewrite <- (Nat.add_0_r n) at 1. apply stretch_nth. lia. }
  unfold char_in. rewrite N0, !stretch_nth by lia. simpl.
  repeat split; eexists; (split; [reflexivity|assumption]).
Qed.

Lemma port_gap_run : run t (is_space ucd) (n + 4) g.
Proof.
  pose proof (stretch_run (is_space ucd) pre [w0; w1; w2; w3] gap
                (digits ++ post) Hgap) as H.
  unfold port_text. rewrite <- !app_assoc. exact H.
Qed.

Lemma port_digit_run : run t (is_digit ucd) g e.
Proof.
  pose proof (stretch_run (is_digit ucd) pre ([w0; w1; w2; w3] ++ gap) digits
                post Hdig) as H.
  rewrite port_tok_length.
  replace (n + (4 + length gap + length digits))
    with (n + length ([w0; w1; w2; w3] ++ gap) + length digits)
    by (rewrite length_app; simpl; lia).
  replace g with (n + length ([w0; w1; w2; w3] ++ gap))
    by (rewrite length_app; simpl; lia).
  unfold port_text. rewrite <- !app_assoc in *. exact H.
Qed.

Lemma port_tok_chars p c :
  n <= p < e -> nth_error t p = Some c -> port_chars ucd c = true.
Proof.
  pose proof port_tok_length as Hl.
  intros Hp Hc. unfold port_chars.
  destruct port_letters as (L0 & L1 & L2 & L3).
  assert (Pick : forall (P : char -> bool) q, char_in t P q -> p = q ->
                                             P c = true).
  { intros P q (c' & Hc' & HP) ->. congruence. }
  destruct (Nat.eq_dec p n) as [E|N0];
    [rewrite (Pick _ _ L0 E); reflexivity|].
  destruct (Nat.eq_dec p (n + 1)) as [E|N1];
    [rewrite (Pick _ _ L1 E); now rewrite !orb_true_r|].
  destruct (Nat.eq_dec p (n + 2)) as [E|N2];
    [rewrite (Pick _ _ L2 E); now rewrite !orb_true_r|].
  destruct (Nat.eq_dec p (n + 3)) as [E|N3];
    [rewrite (Pick _ _ L3 E); now rewrite !orb_true_r|].
  destruct (Nat.lt_ge_cases p g) as [Hlt|Hge].
  - rewrite (Pick _ p (port_gap_run p ltac:(lia)) eq_refl).
    now rewrite !orb_true_r.
  - rewrite (Pick _ p (port_digit_run p ltac:(lia)) eq_refl).
    now rewrite !orb_true_r.
Qed.

Lemma port_chars_not a c :
  (chr a = 46 \/ chr a = 58 \/ chr a = 64)%N ->
  port_chars ucd c = true -> is_chr a c = false.
Proof.
  intros Ha H. apply not_true_is_false. intros Hc.
  apply is_chr_spec in Hc. subst c.
  destruct Ha as [E|[E|E]]; rewrite E in H; discriminate H.
Qed.

Lemma port_region_u4 : same_region t n e u4.
Proof.
  pose proof port_tok_length as Hl.
  assert (No : forall a, (chr a = 46 \/ chr a = 58 \/ chr a = 64)%N ->
             forall p c, n <= p < e -> nth_error t p = Some c ->
                         is_chr a c = false).
  { intros a Ha p c Hp Hc. apply port_chars_not; [exact Ha|].
    now apply (port_tok_chars p). }
  assert (R0 : same_region t n e t) by (split; auto).
  pose proof (untouched ucd _ _ (is_chr ".") t t n e
                (ipv4_classes ucd) (digit_or_dot_no_space ucd Hsane)
                (ipv4_must ucd) ltac:(lia) port_framed
                (No "."%char ltac:(auto)) R0) as R1.
  pose proof (untouched ucd _ _ (is_chr ":") t _ n e
                (url_classes ucd) (nonspace_no_space ucd)
                (url_must ucd) ltac:(lia) port_framed
                (No ":"%char ltac:(auto)) R1) as R2.
  pose proof (untouched ucd _ _ (is_chr "@") t _ n e
                email_classes (email_chars_no_space ucd)
                email_must ltac:(lia) port_framed
                (No "@"%char ltac:(auto)) R2) as R3.
  exact (untouched ucd _ _ (is_chr ":") t _ n e
           mac_classes (mac_chars_no_space ucd)
           mac_must ltac:(lia) port_framed
           (No ":"%char ltac:(auto)) R3).
Qed.

Section Region.

Variable u : text.
Hypothesis Hu : same_region t n e u.

Lemma port_region_char (P : char -> bool) p :
  n <= S p -> p <= e -> char_in t P p -> char_in u P p.
Proof.
  intros H1 H2 (c & Hc & HP). exists c. split; [|exact HP].
  destruct Hu as [_ Hag]. now rewrite Hag.
Qed.

Lemma port_region_run (P : char -> bool) i j :
  n <= i -> j <= e -> run t P i j -> run u P i j.
Proof.
  intros Hi Hj H p Hp. apply port_region_char; try lia. apply H. lia.
Qed.

Lemma port_region_framed : framed ucd u n e.
Proof.
  pose proof port_tok_length.
  exact (same_region_framed ucd t u n e ltac:(lia) Hu port_framed).
Qed.

Lemma port_match_u : match_at ucd u (port_re ucd) n = Some e.
Proof.
  pose proof port_tok_length as Hl.
  destruct port_letters as (L0 & L1 & L2 & L3).
  apply (port_eval ucd u n g e Hsane).
  - apply (framed_left ucd Hsane u n e port_region_framed).
    eapply char_in_weaken; [apply nocase_p_word|].
    apply port_region_char; auto; lia.
  - apply port_region_char; auto; lia.
  - apply port_region_char; auto; lia.
  - apply port_region_char; auto; lia.
  - apply port_region_char; auto; lia.
  - lia.
  - apply port_region_run; [lia|lia|apply port_gap_run].
  - lia.
  - lia.
  - apply port_region_run; [lia|lia|apply port_digit_run].
  - apply (framed_right ucd Hsane u n e port_region_framed); [lia|].
    eapply char_in_weaken; [apply digit_word|].
    apply port_region_char; [lia|lia|]. apply port_digit_run. lia.
  - apply port_region_framed.
Qed.

(** No port match that starts before the phrase reaches into it. *)
Lemma port_before b j :
  b < n -> Matches ucd u (port_re ucd) b j -> j <= n.
Proof.
  intros Hb Hm.
  destruct (Nat.le_gt_cases j n) as [|Hlt]; [assumption|exfalso].
  destruct port_region_framed as [Hleft _].
  specialize (Hleft ltac:(lia)).
  destruct port_letters as (L0 & _).
  pose proof (port_region_char _ n ltac:(lia) ltac:(lia) L0) as Hn.
  apply port_Matches_shape in Hm
    as (P0 & P1 & P2 & P3 & g0 & Hg0 & Hs & Hgj & Hd).
  assert (Letter : forall a q, in_range "a" "z" (chr a) = true ->
                     char_in u (is_chr_nocase a) q -> q = n - 1 -> False).
  { intros a q Ha (c & Hc & Hk) ->.
    pose proof (Hleft c Hc) as Hsp.
    pose proof (nocase_no_space ucd a c Ha Hk). congruence. }
  destruct (Nat.eq_dec b (n - 1)) as [E|N0]; [exact (Letter "p"%char _ eq_refl P0 E)|].
  destruct (Nat.eq_dec (b + 1) (n - 1)) as [E|N1];
    [exact (Letter "o"%char _ eq_refl P1 E)|].
  destruct (Nat.eq_dec (b + 2) (n - 1)) as [E|N2];
    [exact (Letter "r"%char _ eq_refl P2 E)|].
  destruct (Nat.eq_dec (b + 3) (n - 1)) as [E|N3];
    [exact (Letter "t"%char _ eq_refl P3 E)|].
  destruct (Nat.lt_ge_cases n g0) as [Hlt'|Hge].
  - destruct (char_in_both u _ _ n Hn (Hs n ltac:(lia))) as (c & _ & Hp & Hsp).
    rewrite (space_not_p ucd c Hsp) in Hp. discriminate.
  - destruct (char_in_both u _ _ n Hn (Hd n ltac:(lia))) as (c & _ & Hp & Hdc).
    rewrite (digit_not_p ucd c Hdc) in Hp. discriminate.
Qed.

End Region.

Lemma port_masked p :
  n <= p < e -> nth_error (anonymise_text ucd t) p = Some (chr "x").
Proof.
  intros Hp. apply masked_to_end. do 4 right. left.
  apply re_sub_masked.
  - apply (span_at ucd (port_re ucd) u4 n e (port_min_len ucd)
             (port_match_u u4 port_region_u4)); [|exact Hp].
    apply port_before. exact port_region_u4.
  - rewrite !re_sub_length, !length_app. lia.
Qed.

End PortToken.

Lemma port_word_inv word :
  text_eqb (map ascii_lower word) (str "port") = true ->
  exists w0 w1 w2 w3,
    word = [w0; w1; w2; w3]
    /\ is_chr_nocase "p" w0 = true /\ is_chr_nocase "o" w1 = true
    /\ is_chr_nocase "r" w2 = true /\ is_chr_nocase "t" w3 = true.
Proof.
  intros H. apply text_eqb_eq in H.
  destruct word as [|w0 [|w1 [|w2 [|w3 [|w4 word]]]]]; try discriminate.
  injection H as E0 E1 E2 E3.
  exists w0, w1, w2, w3. unfold is_chr_nocase.
  rewrite E0, E1, E2, E3. auto.
Qed.

Section PortClaim.

Variable ucd : UnicodeData.

(** X3: the word [port] in any mix of cases, whitespace and one to five
    digits, standing between whitespace or at an end of the text, become a
    run of [x], the whitespace between the word and the number (line
    breaks too) included. *)
Theorem port_phrase_masked (pre word gap digits post : text) :
  space_not_word ucd ->
  port_parts ucd word gap digits = true ->
  ends_space ucd pre = true -> starts_space ucd post = true ->
  exists pre' post',
    anonymise_text ucd (pre ++ port_text word gap digits ++ post)
    = pre' ++ repeat (chr "x") (length (port_text word gap digits)) ++ post'
    /\ masked_of pre pre' /\ masked_of post post'.
Proof.
  intros Hsane Hparts Hpre Hpost. unfold port_parts in Hparts.
  repeat (apply andb_true_iff in Hparts as [Hparts ?]).
  apply port_word_inv in Hparts as (w0 & w1 & w2 & w3 & -> & K0 & K1 & K2 & K3).
  repeat match goal with
         | H : (_ <=? _) = true |- _ => apply Nat.leb_le in H
         end.
  apply masked_stretch. intros p Hp.
  apply (port_masked ucd Hsane); auto.
Qed.

End PortClaim.

(** X3 at [Port  8443]. *)
Lemma port_phrase_masked_witness :
  exists pre' post',
    anonymise_text ascii_only
      (str "on " ++ port_text (str "Port") (str "  ") (str "8443")
       ++ str " and")
    = pre' ++ repeat (chr "x")
                (length (port_text (str "Port") (str "  ") (str "8443")))
      ++ post'
    /\ masked_of (str "on ") pre' /\ masked_of (str " and") post'.
Proof.
  apply (port_phrase_masked ascii_only);
    [exact ascii_only_space_not_word|reflexivity..].
Defined.

(** ** An email address between whitespace *)

Section EmailFacts.

Variable ucd : UnicodeData.

Lemma alpha_not_digit_or_dot c :
  cls_alpha c = true -> digit_or_dot ucd c = false.
Proof.
  unfold cls_alpha, digit_or_dot, is_digit, is_chr.
  rewrite orb_true_iff, !in_range_spec. intros H.
  assert (Hc : (c < 128)%N) by (unfold chr in H; simpl in H; lia).
  apply N.ltb_lt in Hc. rewrite Hc.
  apply orb_false_iff. split.
  - apply not_true_is_false. rewrite in_range_spec.
    unfold chr in *. simpl in *. lia.
  - apply N.eqb_neq. unfold chr in *. simpl in *. lia.
Qed.

Lemma alpha_no_space c : cls_alpha c = true -> is_space ucd c = false.
Proof.
  intros H. apply (cls_domain_no_space ucd).
  now apply cls_label_domain, cls_alpha_label.
Qed.

Lemma email_progressive : progressive email_re = true.
Proof. reflexivity. Qed.

End EmailFacts.

Section DotKept.

Variable ucd : UnicodeData.
Variable u : text.

(** A dot that is followed by a letter lies in no IPv4 match. *)
Lemma dot_before_letter d :
  lit_at u "." d -> char_in u cls_alpha (d + 1) ->
  covered (finditer ucd (ipv4_re ucd) u) d = false.
Proof.
  intros Hd Ha. apply not_true_is_false. intros Hcov.
  apply covered_Matches in Hcov as (b & j & _ & Hp & Hm).
  pose proof (Matches_classes ucd u _ _ b j (ipv4_classes ucd) Hm) as Hrun.
  destruct (Matches_last ucd u _ _ b j (ipv4_last ucd) Hm) as (_ & Hlast).
  destruct (Nat.eq_dec (j - 1) d) as [E|Hne].
  - rewrite E in Hlast.
    pose proof (lit_char_in u "." _ d Hd Hlast) as F.
    rewrite (digit_not_dot ucd) in F. discriminate.
  - destruct (char_in_both u _ _ (d + 1) Ha (Hrun (d + 1) ltac:(lia)))
      as (c & _ & H1 & H2).
    rewrite (alpha_not_digit_or_dot ucd c H1) in H2. discriminate.
Qed.

End DotKept.

Section EmailToken.

Variable ucd : UnicodeData.
Hypothesis Hsane : space_not_word ucd.
Variables pre local domain tld post : text.

Hypothesis Hl0 : match local with c :: _ => is_word ucd c | [] => false end
                 = true.
Hypothesis Hl : forallb cls_local local = true.
Hypothesis Ld : 1 <= length domain.
Hypothesis Hd : forallb cls_domain domain = true.
Hypothesis Lt : 2 <= length tld.
Hypothesis Ht : forallb cls_alpha tld = true.
Hypothesis Hpre : ends_space ucd pre = true.
Hypothesis Hpost : starts_space ucd post = true.

Local Abbreviation tok := (email_text local domain tld).
Local Abbreviation t := (pre ++ tok ++ post).
Local Abbreviation n := (length pre).
Local Abbreviation a := (length pre + length local).
Local Abbreviation d := (length pre + length local + 1 + length domain).
Local Abbreviation e := (length pre + length tok).
Local Abbreviation pass r u := (re_sub ucd r _mask_match u).

(** What the passes before the email pass keep of the address. *)
Local Abbreviation kept u :=
  (framed ucd u n e
   /\ run u cls_local n a /\ char_in u (is_word ucd) n
   /\ lit_at u "@" a /\ run u cls_domain (a + 1) d
   /\ lit_at u "." d /\ run u cls_alpha (d + 1) e).

Lemma email_tok_length :
  length tok = length local + 1 + length domain + 1 + length tld.
Proof. unfold email_text. rewrite length_app. simpl. rewrite length_app. simpl. lia. Qed.

Lemma email_local_length : 1 <= length local.
Proof. destruct local; [discriminate|simpl; lia]. Qed.

Lemma email_kept_t : kept t.
Proof.
  pose proof email_tok_length as Hlen. pose proof email_local_length as Hll.
  split; [exact (framed_stretch ucd pre tok post Hpre Hpost)|].
  split.
  { pose proof (stretch_run cls_local pre [] local
                  (chr "@" :: domain ++ chr "." :: tld ++ post) Hl) as H.
    simpl in H. rewrite Nat.add_0_r in H.
    unfold email_text. rewrite <- app_assoc. simpl. rewrite <- app_assoc.
    exact H. }
  split.
  { unfold char_in. rewrite <- (Nat.add_0_r n), stretch_nth by lia.
    unfold email_text. destruct local as [|c l]; [discriminate|].
    simpl. eauto. }
  split.
  { unfold lit_at. rewrite stretch_nth by lia. unfold email_text.
    rewrite nth_error_app2, Nat.sub_diag by lia. reflexivity. }
  split.
  { pose proof (stretch_run cls_domain pre (local ++ [chr "@"]) domain
                  (chr "." :: tld ++ post) Hd) as H.
    rewrite length_app in H. simpl in H.
    replace (a + 1) with (n + (length local + 1)) by lia.
    replace d with (n + (length local + 1) + length domain) by lia.
    unfold email_text. rewrite <- !app_assoc in *. simpl in *.
    rewrite <- !app_assoc. exact H. }
  split.
  { unfold lit_at.
    replace d with (n + (length local + 1 + length domain)) by lia.
    rewrite stretch_nth by lia. unfold email_text.
    rewrite nth_error_app2 by lia.
    replace (length local + 1 + length domain - length local)
      with (S (length domain)) by lia.
    simpl. rewrite nth_error_app2, Nat.sub_diag by lia. reflexivity. }
  pose proof (stretch_run cls_alpha pre (local ++ chr "@" :: domain ++ [chr "."])
                tld post Ht) as H.
  rewrite length_app in H. simpl in H. rewrite length_app in H. simpl in H.
  replace (d + 1) with (n + (length local + S (length domain + 1))) by lia.
  replace e with (n + (length local + S (length domain + 1)) + length tld)
    by lia.
  unfold email_text. rewrite <- !app_assoc in *. simpl in *.
  rewrite <- !app_assoc in *. exact H.
Qed.

Lemma email_kept_pass r (K : char -> bool) u :
  classes_in K r -> (forall c, K c = true -> is_space ucd c = false) ->
  kept u ->
  covered (finditer ucd r u) a = false ->
  covered (finditer ucd r u) d = false ->
  kept (pass r u).
Proof.
  intros HK Hsp (Hf & R1 & W & At & R2 & Dot & R3) Ca Cd.
  split; [exact (framed_kept ucd r K HK Hsp u n e Hf)|].
  split; [apply re_sub_run; [reflexivity|exact R1]|].
  split; [apply re_sub_char_in; [apply x_is_word|exact W]|].
  split; [unfold lit_at; now rewrite re_sub_unmasked|].
  split; [apply re_sub_run; [reflexivity|exact R2]|].
  split; [unfold lit_at; now rewrite re_sub_unmasked|].
  apply re_sub_run; [reflexivity|exact R3].
Qed.

Lemma email_kept_chars u p c :
  kept u -> n <= p < e -> nth_error u p = Some c -> email_chars c = true.
Proof.
  pose proof email_tok_length as Hlen.
  intros (_ & R1 & _ & At & R2 & Dot & R3) Hp Hc.
  assert (Pick : forall (P : char -> bool), char_in u P p -> P c = true).
  { intros P (c' & Hc' & HP). congruence. }
  unfold email_chars.
  destruct (Nat.lt_ge_cases p a) as [H1|H1].
  { now rewrite (Pick _ (R1 p ltac:(lia))). }
  destruct (Nat.eq_dec p a) as [->|N1].
  { unfold lit_at in At. rewrite At in Hc. injection Hc as <-. reflexivity. }
  apply orb_true_iff. left. apply cls_domain_local.
  destruct (Nat.lt_ge_cases p d) as [H2|H2].
  { exact (Pick _ (R2 p ltac:(lia))). }
  destruct (Nat.eq_dec p d) as [->|N2].
  { unfold lit_at in Dot. rewrite Dot in Hc. injection Hc as <-. reflexivity. }
  apply cls_label_domain, cls_alpha_label.
  exact (Pick _ (R3 p ltac:(lia))).
Qed.

Lemma email_kept_u2 : kept (pass (url_re ucd) (pass (ipv4_re ucd) t)).
Proof.
  pose proof email_tok_length as Hlen.
  assert (K1 : kept (pass (ipv4_re ucd) t)).
  { pose proof email_kept_t as K0.
    apply (email_kept_pass _ (digit_or_dot ucd)); auto.
    - apply ipv4_classes.
    - apply (digit_or_dot_no_space ucd Hsane).
    - destruct K0 as (_ & _ & _ & At & _).
      exact (class_unmasked ucd _ _ t a _ (ipv4_classes ucd) At eq_refl).
    - destruct K0 as (_ & _ & _ & _ & _ & Dot & R3).
      apply dot_before_letter; [exact Dot|]. apply R3. lia. }
  assert (No : forall p, n <= S p -> p <= e ->
             covered (finditer ucd (url_re ucd) (pass (ipv4_re ucd) t)) p
             = false).
  { apply (no_span ucd _ _ (url_classes ucd) (nonspace_no_space ucd)
             (is_chr ":")).
    - apply K1.
    - apply url_must.
    - intros p c Hp Hc. pose proof (email_kept_chars _ p c K1 Hp Hc) as Hk.
      apply not_true_is_false. intros Hcol.
      apply is_chr_spec in Hcol. subst c. discriminate. }
  apply (email_kept_pass _ (cls_nonspace ucd)); auto.
  - apply url_classes.
  - apply nonspace_no_space.
  - apply No; lia.
  - apply No; lia.
Qed.

Section Kept.

Variable u : text.
Hypothesis Hu : kept u.

Lemma email_match_u : match_at ucd u email_re n = Some e.
Proof.
  pose proof email_tok_length as Hlen. pose proof email_local_length as Hll.
  destruct Hu as (Hf & R1 & W & At & R2 & Dot & R3).
  assert (Gap : forall (P : char -> bool),
             (forall c, P c = true -> is_space ucd c = false) ->
             char_in u P e -> False).
  { intros P HP (c & Hc & Hk). destruct Hf as [_ Hg].
    pose proof (Hg c Hc). apply HP in Hk. congruence. }
  assert (Be : at_boundary ucd u e = true).
  { apply (framed_right ucd Hsane u n e Hf); [lia|].
    eapply char_in_weaken; [apply alpha_word|]. apply R3. lia. }
  unfold match_at, email_re.
  rewrite m_Cat, m_Bnd by exact (framed_left ucd Hsane u n e Hf W).
  rewrite m_Cat.
  apply (m_greedy ucd u _ 1 None n a);
    [exact R1 | lia | lia | exact I | cbv beta | ].
  2:{ intros j' Hj' Hrun' _. exfalso.
      pose proof (lit_char_in u "@" _ a At (Hrun' a ltac:(lia))) as F.
      discriminate. }
  rewrite m_Cat, (m_lit ucd u "@" a) by exact At.
  rewrite m_Cat. replace (S a) with (a + 1) by lia.
  apply (m_greedy ucd u _ 1 None (a + 1) d);
    [exact R2 | lia | lia | exact I | cbv beta | ].
  2:{ intros j' Hj' Hrun' _. rewrite m_Cat. apply m_Cls_None.
      intros c Hc.
      destruct (Nat.lt_ge_cases j' e) as [Hlt|Hge].
      - destruct (R3 j' ltac:(lia)) as (c' & Hc' & Hal).
        rewrite Hc in Hc'. injection Hc' as <-.
        apply not_true_is_false. intros Hdot. apply is_chr_spec in Hdot.
        subst c. discriminate.
      - destruct (Nat.eq_dec j' e) as [->|Hne].
        + destruct Hf as [_ Hg]. pose proof (Hg c Hc) as Hsp.
          apply not_true_is_false. intros Hdot. apply is_chr_spec in Hdot.
          subst c. discriminate.
        + exfalso. apply (Gap cls_domain (cls_domain_no_space ucd)).
          apply Hrun'. lia. }
  rewrite m_Cat, (m_lit ucd u "." d) by exact Dot.
  rewrite m_Cat. replace (S d) with (d + 1) by lia.
  apply (m_greedy ucd u _ 2 None (d + 1) e);
    [exact R3 | lia | lia | exact I | cbv beta | ].
  - now rewrite m_Bnd.
  - intros j' Hj' Hrun' _. exfalso.
    apply (Gap cls_alpha (alpha_no_space ucd)). apply Hrun'. lia.
Qed.

Lemma email_covered p :
  n <= p < e -> covered (finditer ucd email_re u) p = true.
Proof.
  apply (span_at ucd email_re u n e email_min_len email_match_u).
  intros b j Hb Hm.
  apply (framed_before ucd email_re email_chars email_classes
           (email_chars_no_space ucd) u n e b j); auto.
  apply Hu.
Qed.

End Kept.

Lemma email_masked p :
  n <= p < e -> nth_error (anonymise_text ucd t) p = Some (chr "x").
Proof.
  intros Hp. apply masked_to_end. do 2 right. left.
  apply re_sub_masked.
  - apply email_covered; [exact email_kept_u2|exact Hp].
  - rewrite !re_sub_length, !length_app. lia.
Qed.

End EmailToken.

Section EmailClaim.

Variable ucd : UnicodeData.

(** X4: an email address whose local part starts with a word character,
    that stands between whitespace or at an end of the text, becomes a run
    of [x], whatever the IPv4 pass did to digits and dots inside it. *)
Theorem email_address_masked (pre local domain tld post : text) :
  space_not_word ucd ->
  email_parts ucd local domain tld = true ->
  ends_space ucd pre = true -> starts_space ucd post = true ->
  exists pre' post',
    anonymise_text ucd (pre ++ email_text local domain tld ++ post)
    = pre' ++ repeat (chr "x") (length (email_text local domain tld)) ++ post'
    /\ masked_of pre pre' /\ masked_of post post'.
Proof.
  intros Hsane Hparts Hpre Hpost. unfold email_parts in Hparts.
  repeat (apply andb_true_iff in Hparts as [Hparts ?]).
  repeat match goal with
         | H : (_ <=? _) = true |- _ => apply Nat.leb_le in H
         end.
  apply masked_stretch. intros p Hp.
  apply (email_masked ucd Hsane); auto.
Qed.

End EmailClaim.

(** X4 at an address whose domain holds an IPv4 address. *)
Lemma email_address_masked_witness :
  exists pre' post',
    anonymise_text ascii_only
      (str "mail " ++ email_text (str "j.doe+x") (str "mx-10.0.0.1.corp")
                                 (str "example")
       ++ str " now")
    = pre' ++ repeat (chr "x")
                (length (email_text (str "j.doe+x") (str "mx-10.0.0.1.corp")
                                    (str "example")))
      ++ post'
    /\ masked_of (str "mail ") pre' /\ masked_of (str " now") post'.
Proof.
  apply (email_address_masked ascii_only);
    [exact ascii_only_space_not_word|reflexivity..].
Defined.

(** ** The edges of a masked span *)

Section SpanEdges.

Variable ucd : UnicodeData.
Variable r : regex.
Hypothesis r_first : first_in (is_word ucd) r.
Hypothesis r_last : last_in (is_word ucd) r.
Hypothesis r_starts : starts_bnd r = true.
Hypothesis r_ends : ends_bnd r = true.
Variable u : text.

Local Abbreviation u' := (re_sub ucd r _mask_match u).
Local Abbreviation spans := (finditer ucd r u).

Lemma word_at_x : word_at ucd (Some (chr "x")) = true.
Proof. apply x_is_word. Qed.

Lemma span_Matches bs es :
  In (bs, es) spans ->
  bs < es /\ es <= length u /\ match_at ucd u r bs = Some es
  /\ Matches ucd u r bs es.
Proof.
  intros Hin. apply find_loop_spans in Hin as (_ & H1 & H2 & H3).
  repeat split; auto. now apply match_at_Some.
Qed.

Lemma span_masked bs es p :
  In (bs, es) spans -> bs <= p < es -> nth_error u' p = Some (chr "x").
Proof.
  intros Hin Hp. destruct (span_Matches bs es Hin) as (_ & Hes & _).
  apply re_sub_masked; [|lia].
  apply covered_In. eauto.
Qed.

(** After the pass a masked span still stands between word boundaries. *)
Lemma span_edges bs es :
  In (bs, es) spans ->
  at_boundary ucd u' bs = true /\ at_boundary ucd u' es = true.
Proof.
  intros Hin. destruct (span_Matches bs es Hin) as (Hlt & Hes & Hma & Hm).
  pose proof (Matches_starts ucd u r bs es r_starts Hm) as Bs.
  pose proof (Matches_ends ucd u r bs es r_ends Hm) as Be.
  destruct (Matches_first ucd u _ r bs es r_first Hm) as (cf & Hcf & Wf).
  destruct (Matches_last ucd u _ r bs es r_last Hm) as (_ & cl & Hcl & Wl).
  split.
  - unfold at_boundary in *.
    rewrite (span_masked bs es bs Hin ltac:(lia)), word_at_x.
    rewrite Hcf in Bs. simpl in Bs. rewrite Wf in Bs.
    destruct bs as [|p]; [reflexivity|].
    change (before u' (S p)) with (nth_error u' p).
    change (before u (S p)) with (nth_error u p) in Bs.
    rewrite re_sub_unmasked; [exact Bs|].
    apply not_true_is_false. intros Hcov.
    apply covered_In in Hcov as (b2 & e2 & Hin2 & Hp2).
    pose proof (finditer_disjoint ucd r u b2 e2 (S p) es Hin2 Hin ltac:(lia))
      as Hd.
    assert (e2 = S p) by lia. subst e2.
    destruct (span_Matches b2 (S p) Hin2) as (_ & _ & _ & Hm2).
    destruct (Matches_last ucd u _ r b2 (S p) r_last Hm2) as (_ & c2 & Hc2 & W2).
    replace (S p - 1) with p in Hc2 by lia.
    rewrite Hc2 in Bs. simpl in Bs. rewrite W2 in Bs. discriminate.
  - unfold at_boundary in *.
    rewrite before_pred in * by lia.
    rewrite (span_masked bs es (es - 1) Hin ltac:(lia)), word_at_x.
    rewrite Hcl in Be. simpl in Be. rewrite Wl in Be.
    rewrite re_sub_unmasked; [exact Be|].
    apply not_true_is_false. intros Hcov.
    apply covered_In in Hcov as (b2 & e2 & Hin2 & Hp2).
    destruct (span_Matches b2 e2 Hin2) as (_ & _ & Hma2 & Hm2).
    destruct (Nat.lt_trichotomy b2 bs) as [Hlt2|[->|Hgt]].
    + pose proof (finditer_disjoint ucd r u b2 e2 bs es Hin2 Hin Hlt2). lia.
    + rewrite Hma in Hma2. injection Hma2 as <-. lia.
    + pose proof (finditer_disjoint ucd r u bs es b2 e2 Hin Hin2 Hgt).
      assert (b2 = es) by lia. subst b2.
      destruct (Matches_first ucd u _ r es e2 r_first Hm2) as (c2 & Hc2 & W2).
      rewrite Hc2 in Be. simpl in Be. rewrite W2 in Be. discriminate.
Qed.

End SpanEdges.

(** ** The hostname pass on a stretch of the shape of a hostname *)

Section HostCover.

Variable ucd : UnicodeData.
Variable u : text.

(** Two overlapping stretches of the shape of a hostname make one. *)
Lemma host_shape_union b1 e1 b2 e2 :
  host_shape ucd u b1 e1 -> host_shape ucd u b2 e2 ->
  b1 <= b2 -> b2 < e1 -> e1 <= e2 ->
  host_shape ucd u b1 e2.
Proof.
  intros (B1 & _ & R1 & F1 & D1 & _) (_ & E2 & R2 & _ & D2 & d & Hd)
    Hb Hov He.
  split; [exact B1|]. split; [exact E2|].
  split.
  { intros p Hp. destruct (Nat.lt_ge_cases p e1); [apply R1|apply R2]; lia. }
  split; [exact F1|].
  split.
  { intros q Hq1 Hq2.
    destruct (Nat.lt_ge_cases (S q) e1); [apply D1|apply D2]; lia. }
  exists d. destruct Hd as (H1 & H2 & H3 & H4). repeat split; auto. lia.
Qed.

Lemma host_cover b e :
  host_shape ucd u b e ->
  forall p, b <= p < e -> covered (finditer ucd host_re u) p = true.
Proof.
  intros Hs p Hp.
  pose proof (host_shape_Matches ucd u b e Hs) as HM.
  destruct (match_at ucd u host_re b) as [e1|] eqn:Hm.
  2:{ exfalso. exact (match_at_None ucd u _ b e host_progressive Hm HM). }
  pose proof (host_longest ucd u b e1 e Hm HM) as Hlong.
  pose proof (match_covered ucd _ u b e1 host_min_len Hm) as Hc.
  apply covered_In in Hc as (bs & es & Hin & Hb).
  pose proof Hin as Hspan.
  apply find_loop_spans in Hspan as (_ & _ & _ & Hms).
  apply covered_In. exists bs, es. split; [exact Hin|].
  destruct (Nat.lt_ge_cases es e) as [Hlt|Hge]; [exfalso|lia].
  destruct (Nat.eq_dec bs b) as [->|Hne].
  - rewrite Hm in Hms. injection Hms as <-. lia.
  - pose proof (match_at_Some ucd u _ bs es Hms) as HMs.
    pose proof (host_Matches_shape ucd u bs es HMs) as Hss.
    pose proof (host_shape_union bs es b e Hss Hs ltac:(lia) ltac:(lia)
                  ltac:(lia)) as Hu.
    apply host_shape_Matches in Hu.
    pose proof (host_longest ucd u bs es e Hms Hu). lia.
Qed.

End HostCover.

(** ** A hostname between whitespace *)

Section HostStretch.

Variable ucd : UnicodeData.
Hypothesis Hsane : space_not_word ucd.
Variable t : text.
Variables n d e : nat.
Hypothesis Hnd : n < d.
Hypothesis Hde : d + 3 <= e.
Hypothesis Hlen : e <= length t.

Local Abbreviation pass r u := (re_sub ucd r _mask_match u).

(** What the passes before the hostname pass keep of the name: its
    characters are those of a domain, the first a letter or a digit; no two
    dots stand side by side; the last dot and the letters after it. *)
Local Abbreviation kept u :=
  (framed ucd u n e
   /\ run u cls_domain n e /\ char_in u cls_alnum n
   /\ (forall q, n <= q -> S q < e -> dot_at u q -> dot_at u (S q) -> False)
   /\ dot_at u d /\ run u cls_alpha (d + 1) e).

Hypothesis Ht : kept t.

Lemma alnum_label c : cls_alnum c = true -> cls_label c = true.
Proof. unfold cls_alnum, cls_label. intros ->. reflexivity. Qed.

Lemma alnum_word c : cls_alnum c = true -> is_word ucd c = true.
Proof.
  intros H. apply cls_label_word; [now apply alnum_label|].
  intros ->. discriminate.
Qed.

Lemma host_kept_pass r (K : char -> bool) u :
  classes_in K r -> (forall c, K c = true -> is_space ucd c = false) ->
  kept u -> covered (finditer ucd r u) d = false -> kept (pass r u).
Proof.
  intros HK Hsp (Hf & R1 & A & DD & Dot & R2) Cd.
  split; [exact (framed_kept ucd r K HK Hsp u n e Hf)|].
  split; [apply re_sub_run; [reflexivity|exact R1]|].
  split; [apply re_sub_char_in; [reflexivity|exact A]|].
  split.
  { intros q Hq1 Hq2 D1 D2.
    apply re_sub_lit_inv in D1, D2; try discriminate. eauto. }
  split; [unfold dot_at, lit_at; now rewrite re_sub_unmasked|].
  apply re_sub_run; [reflexivity|exact R2].
Qed.

Lemma host_kept_chars u p c :
  kept u -> n <= p < e -> nth_error u p = Some c -> cls_domain c = true.
Proof.
  intros (_ & R1 & _) Hp Hc. destruct (R1 p Hp) as (c' & Hc' & Hk).
  congruence.
Qed.

Lemma host_kept_needs r (K P : char -> bool) u :
  classes_in K r -> (forall c, K c = true -> is_space ucd c = false) ->
  must_have P r -> (forall c, cls_domain c = true -> P c = false) ->
  kept u -> kept (pass r u).
Proof.
  intros HK Hsp HP HPd Hu.
  apply (host_kept_pass r K); auto.
  apply (no_span ucd r K HK Hsp P u n e); auto; try lia.
  - apply Hu.
  - intros p c Hp Hc. apply HPd. exact (host_kept_chars u p c Hu Hp Hc).
Qed.

Lemma domain_not a c :
  (chr a = 58 \/ chr a = 64)%N -> cls_domain c = true -> is_chr a c = false.
Proof.
  intros Ha H. apply not_true_is_false. intros Hc.
  apply is_chr_spec in Hc. subst c.
  destruct Ha as [E|E]; rewrite E in H; discriminate H.
Qed.

Lemma host_kept_u4 :
  kept (pass mac_re (pass email_re (pass (url_re ucd) (pass (ipv4_re ucd) t)))).
Proof.
  assert (K1 : kept (pass (ipv4_re ucd) t)).
  { apply (host_kept_pass _ (digit_or_dot ucd)); auto.
    - apply ipv4_classes.
    - apply (digit_or_dot_no_space ucd Hsane).
    - destruct Ht as (_ & _ & _ & _ & Dot & R2).
      apply dot_before_letter; [exact Dot|]. apply R2. lia. }
  assert (K2 : kept (pass (url_re ucd) (pass (ipv4_re ucd) t))).
  { apply (host_kept_needs _ (cls_nonspace ucd) (is_chr ":")); auto.
    - apply url_classes.
    - apply nonspace_no_space.
    - apply url_must.
    - intros c. apply domain_not. auto. }
  assert (K3 : kept (pass email_re
                       (pass (url_re ucd) (pass (ipv4_re ucd) t)))).
  { apply (host_kept_needs _ email_chars (is_chr "@")); auto.
    - apply email_classes.
    - apply email_chars_no_space.
    - apply email_must.
    - intros c. apply domain_not. auto. }
  apply (host_kept_needs _ mac_chars (is_chr ":")); auto.
  - apply mac_classes.
  - apply mac_chars_no_space.
  - apply mac_must.
  - intros c. apply domain_not. auto.
Qed.

Section PortPass.

Variable u : text.
Hypothesis Hu : kept u.

Local Abbreviation u5 := (pass (port_re ucd) u).
Local Abbreviation spans := (finditer ucd (port_re ucd) u).

Lemma host_x_at (P : char -> bool) p :
  P (chr "x") = true -> nth_error u5 p = Some (chr "x") -> char_in u5 P p.
Proof. intros HP Hx. exists (chr "x"). auto. Qed.

Lemma host_word_first : char_in u5 (is_word ucd) n.
Proof.
  apply re_sub_char_in; [apply x_is_word|].
  eapply char_in_weaken; [apply alnum_word|]. apply Hu.
Qed.

Lemma host_word_last : char_in u5 (is_word ucd) (e - 1).
Proof.
  apply re_sub_char_in; [apply x_is_word|].
  eapply char_in_weaken; [apply alpha_word|].
  destruct Hu as (_ & _ & _ & _ & _ & R2). apply R2. lia.
Qed.

Lemma host_left_end :
  exists b0, b0 <= n /\ at_boundary ucd u5 b0 = true
             /\ forall p, b0 <= p < n -> nth_error u5 p = Some (chr "x").
Proof.
  destruct host_word_first as (c & Hc & Hw).
  destruct (Nat.eq_dec n 0) as [E|Hn].
  { exists n. split; [lia|]. split; [|intros; lia].
    unfold at_boundary. rewrite Hc, E. simpl. now rewrite Hw. }
  destruct (covered spans (n - 1)) eqn:Hcov.
  - apply covered_In in Hcov as (bl & el & Hin & Hp).
    exists bl. split; [lia|]. split.
    + apply (span_edges ucd (port_re ucd) (port_first_word ucd)
               (port_last_word ucd) eq_refl eq_refl u bl el Hin).
    + intros p Hp'. apply (span_masked ucd (port_re ucd) u bl el p Hin). lia.
  - exists n. split; [lia|]. split; [|intros; lia].
    unfold at_boundary. rewrite Hc, before_pred by lia. simpl. rewrite Hw.
    rewrite (space_nonword_at ucd Hsane u5 (n - 1)); [reflexivity|].
    intros c' Hc'. rewrite re_sub_unmasked in Hc' by exact Hcov.
    destruct Hu as ([Hl _] & _). apply (Hl ltac:(lia) c' Hc').
Qed.

Lemma host_right_end :
  exists e', e <= e' /\ at_boundary ucd u5 e' = true
             /\ forall p, e <= p < e' -> nth_error u5 p = Some (chr "x").
Proof.
  destruct host_word_last as (c & Hc & Hw).
  destruct (covered spans e) eqn:Hcov.
  - apply covered_In in Hcov as (br & er & Hin & Hp).
    exists er. split; [lia|]. split.
    + apply (span_edges ucd (port_re ucd) (port_first_word ucd)
               (port_last_word ucd) eq_refl eq_refl u br er Hin).
    + intros p Hp'. apply (span_masked ucd (port_re ucd) u br er p Hin). lia.
  - exists e. split; [lia|]. split; [|intros; lia].
    unfold at_boundary. rewrite before_pred, Hc by lia. simpl. rewrite Hw.
    rewrite (space_nonword_at ucd Hsane u5 e); [reflexivity|].
    intros c' Hc'. rewrite re_sub_unmasked in Hc' by exact Hcov.
    destruct Hu as ([_ Hr] & _). apply (Hr c' Hc').
Qed.

Lemma host_shape_u5 :
  exists b0 e', b0 <= n /\ e <= e' /\ host_shape ucd u5 b0 e'.
Proof.
  destruct host_left_end as (b0 & Hb0 & Bb & Xl).
  destruct host_right_end as (e' & He' & Be & Xr).
  pose proof Hu as (Hf & R1 & A & DD & Dot & R2).
  assert (Mid : forall (P : char -> bool) i,
             P (chr "x") = true -> n <= i -> run u P i e ->
             forall p, b0 <= p < e' -> i <= p \/ p < n -> char_in u5 P p).
  { intros P i HP Hi Hrun p Hp H1.
    destruct (Nat.lt_ge_cases p n) as [Hlt|Hge];
      [apply host_x_at; [exact HP|apply Xl; lia]|].
    destruct (Nat.lt_ge_cases p e) as [Hlt'|Hge'];
      [|apply host_x_at; [exact HP|apply Xr; lia]].
    apply re_sub_char_in; [exact HP|]. apply Hrun. lia. }
  assert (NotX : forall p, dot_at u5 p ->
                           nth_error u5 p <> Some (chr "x")).
  { intros p Hd Hx. unfold dot_at, lit_at in Hd. rewrite Hd in Hx.
    discriminate. }
  assert (DotIn : forall p, b0 <= p < e' -> dot_at u5 p ->
                            n <= p < e /\ dot_at u p).
  { intros p Hp Hd. split.
    - destruct (Nat.lt_ge_cases p n) as [Hlt|Hge];
        [exfalso; apply (NotX p Hd), Xl; lia|].
      destruct (Nat.lt_ge_cases p e) as [Hlt'|Hge']; [lia|].
      exfalso. apply (NotX p Hd), Xr. lia.
    - apply (re_sub_lit_inv ucd (port_re ucd) u "." p); [discriminate|].
      exact Hd. }
  exists b0, e'. split; [exact Hb0|]. split; [exact He'|].
  split; [exact Bb|]. split; [exact Be|].
  split.
  { intros p Hp. apply (Mid cls_domain n eq_refl); auto; lia. }
  split.
  { destruct (Nat.eq_dec b0 n) as [->|Hne].
    - apply re_sub_char_in; [reflexivity|].
      eapply char_in_weaken; [apply alnum_label|exact A].
    - apply host_x_at; [reflexivity|]. apply Xl. lia. }
  split.
  { intros q Hq1 Hq2 D1 D2.
    destruct (DotIn q ltac:(lia) D1) as [I1 U1].
    destruct (DotIn (S q) ltac:(lia) D2) as [I2 U2].
    apply (DD q); auto; lia. }
  exists d. split; [lia|]. split.
  { unfold dot_at. apply (re_sub_lit ucd (port_chars ucd));
      [apply port_classes|reflexivity|exact Dot]. }
  split; [lia|].
  intros p Hp. apply (Mid cls_alpha (d + 1) eq_refl); auto; lia.
Qed.

Lemma host_covered p :
  n <= p < e -> covered (finditer ucd host_re u5) p = true.
Proof.
  intros Hp. destruct host_shape_u5 as (b0 & e' & Hb & He & Hs).
  apply (host_cover ucd u5 b0 e' Hs). lia.
Qed.

End PortPass.

Lemma host_stretch_masked p :
  n <= p < e -> nth_error (anonymise_text ucd t) p = Some (chr "x").
Proof.
  intros Hp. apply masked_to_end. do 5 right.
  rewrite anonymise_text_passes.
  apply re_sub_masked.
  - apply host_covered; [exact host_kept_u4|exact Hp].
  - rewrite !re_sub_length. lia.
Qed.

End HostStretch.

Section HostLayout.

Lemma forallb_cons (A : Type) (f : A -> bool) a l :
  forallb f (a :: l) = f a && forallb f l.
Proof. reflexivity. Qed.

Lemma no_double_dot_nth (t : text) : forall k,
  no_double_dot t = true ->
  nth_error t k = Some (chr ".") -> nth_error t (S k) = Some (chr ".") ->
  False.
Proof.
  induction t as [|c1 t IH]; intros k Hn H1 H2; [destruct k; discriminate|].
  destruct t as [|c2 t']; [destruct k; discriminate|].
  simpl in Hn. apply andb_true_iff in Hn as [Hc Hn].
  destruct k as [|k].
  - simpl in H1, H2. injection H1 as ->. injection H2 as ->. discriminate.
  - exact (IH k Hn H1 H2).
Qed.

Lemma no_double_dot_cons c (t : text) :
  is_chr "." c = false -> no_double_dot t = true ->
  no_double_dot (c :: t) = true.
Proof.
  intros Hc Hn. destruct t as [|c2 t']; [reflexivity|].
  change (negb (is_chr "." c && is_chr "." c2) && no_double_dot (c2 :: t')
          = true).
  now rewrite Hc, Hn.
Qed.

Lemma no_double_dot_plain (t : text) :
  forallb (fun c => negb (is_chr "." c)) t = true -> no_double_dot t = true.
Proof.
  induction t as [|c t IH]; [reflexivity|]. simpl forallb.
  intros H. apply andb_true_iff in H as [Hc H].
  apply no_double_dot_cons; [now apply negb_true_iff|auto].
Qed.

(** A label and its dot before a text that does not start with a dot. *)
Lemma no_double_dot_label (l rest : text) c :
  forallb cls_label l = true -> 1 <= length l ->
  is_chr "." c = false -> no_double_dot (c :: rest) = true ->
  no_double_dot (l ++ chr "." :: c :: rest) = true.
Proof.
  intros Hl Hlen Hc Hn. induction l as [|x l IH]; [simpl in Hlen; lia|].
  simpl in Hl. apply andb_true_iff in Hl as [Hx Hl].
  simpl app. apply no_double_dot_cons; [now apply label_not_dot|].
  destruct l as [|y l'].
  - simpl. change (negb (is_chr "." (chr ".") && is_chr "." c)
                   && no_double_dot (c :: rest) = true).
    now rewrite Hc, Hn, andb_false_r.
  - apply IH; [exact Hl|simpl; lia].
Qed.

End HostLayout.

Section HostToken.

Variable ucd : UnicodeData.
Hypothesis Hsane : space_not_word ucd.
Variables pre tld post : text.
Variable labels : list text.

Hypothesis Hfirst : match labels with
                    | (c :: _) :: _ => cls_alnum c
                    | _ => false
                    end = true.
Hypothesis Hlabels :
  forallb (fun l => (1 <=? length l) && forallb cls_label l) labels = true.
Hypothesis Lt : 2 <= length tld.
Hypothesis Ht : forallb cls_alpha tld = true.
Hypothesis Hpre : ends_space ucd pre = true.
Hypothesis Hpost : starts_space ucd post = true.

Local Abbreviation body l := (concat (map (fun l0 => l0 ++ [chr "."]) l)).
Local Abbreviation tok := (host_text labels tld).
Local Abbreviation t := (pre ++ tok ++ post).
Local Abbreviation n := (length pre).
Local Abbreviation e := (length pre + length tok).

Lemma alpha_plain (l : text) :
  forallb cls_alpha l = true ->
  forallb (fun c => negb (is_chr "." c)) l = true.
Proof.
  intros H. apply forallb_forall. intros c Hc.
  rewrite forallb_forall in H. apply negb_true_iff, label_not_dot.
  now apply cls_alpha_label, H.
Qed.

Lemma host_tld_first : exists c rest, tld = c :: rest /\ is_chr "." c = false.
Proof.
  destruct tld as [|c rest]; [simpl in Lt; lia|].
  exists c, rest. split; [reflexivity|].
  simpl in Ht. apply andb_true_iff in Ht as [Hc _].
  now apply label_not_dot, cls_alpha_label.
Qed.

Lemma host_body_cons l ls : body (l :: ls) = (l ++ [chr "."]) ++ body ls.
Proof. reflexivity. Qed.

Lemma host_body_facts : forall ls,
  forallb (fun l => (1 <=? length l) && forallb cls_label l) ls = true ->
  forallb cls_domain (body ls) = true
  /\ no_double_dot (body ls ++ tld) = true
  /\ (exists c rest, body ls ++ tld = c :: rest /\ is_chr "." c = false)
  /\ (ls <> [] -> exists b', body ls = b' ++ [chr "."] /\ 1 <= length b').
Proof.
  induction ls as [|l ls IH]; intros H.
  - simpl. split; [reflexivity|].
    split; [apply no_double_dot_plain, alpha_plain, Ht|].
    split; [exact host_tld_first|]. intros F. contradiction.
  - rewrite forallb_cons in H. apply andb_true_iff in H as [Hl H].
    apply andb_true_iff in Hl as [Hlen Hl]. apply Nat.leb_le in Hlen.
    destruct (IH H) as (D & N & (c & rest & Hc & Hdot) & Last).
    assert (Hl' : forallb cls_domain l = true).
    { apply forallb_forall. intros x Hx. rewrite forallb_forall in Hl.
      now apply cls_label_domain, Hl. }
    rewrite host_body_cons. split; [|split; [|split]].
    + rewrite !forallb_app, Hl', D. reflexivity.
    + rewrite <- !app_assoc. rewrite Hc in N |- *.
      apply (no_double_dot_label l rest c); auto.
    + destruct l as [|x l']; [simpl in Hlen; lia|].
      exists x, ((l' ++ [chr "."]) ++ body ls ++ tld).
      split; [now rewrite <- !app_assoc|].
      simpl in Hl. apply andb_true_iff in Hl as [Hx _].
      now apply label_not_dot.
    + intros _. destruct ls as [|l2 ls'].
      * exists l. simpl. rewrite app_nil_r. split; [reflexivity|exact Hlen].
      * destruct (Last ltac:(discriminate)) as (b' & Hb & Hb').
        exists ((l ++ [chr "."]) ++ b'). split.
        -- rewrite Hb. now rewrite <- !app_assoc.
        -- rewrite length_app. lia.
Qed.

Lemma host_labels_nonempty : labels <> [].
Proof. intros E. rewrite E in Hfirst. discriminate. Qed.

Lemma host_kept_t :
  exists d,
    n < d /\ d + 3 <= e /\ e <= length t
    /\ framed ucd t n e
    /\ run t cls_domain n e /\ char_in t cls_alnum n
    /\ (forall q, n <= q -> S q < e -> dot_at t q -> dot_at t (S q) -> False)
    /\ dot_at t d /\ run t cls_alpha (d + 1) e.
Proof.
  destruct (host_body_facts labels Hlabels) as (D & N & _ & Last).
  destruct (Last host_labels_nonempty) as (b' & Hb & Hb').
  assert (Htok : tok = b' ++ chr "." :: tld).
  { unfold host_text. rewrite Hb, <- app_assoc. reflexivity. }
  assert (Hlen : length tok = length b' + 1 + length tld).
  { rewrite Htok, length_app. simpl. lia. }
  exists (n + length b').
  split; [lia|]. split; [lia|]. split; [rewrite !length_app; lia|].
  split; [exact (framed_stretch ucd pre tok post Hpre Hpost)|].
  split.
  { pose proof (stretch_run cls_domain pre [] tok post) as H.
    simpl in H. rewrite Nat.add_0_r in H. apply H.
    unfold host_text. rewrite forallb_app, D. simpl.
    apply forallb_forall. intros x Hx. rewrite forallb_forall in Ht.
    now apply cls_label_domain, cls_alpha_label, Ht. }
  split.
  { unfold char_in. rewrite <- (Nat.add_0_r n), stretch_nth by lia.
    unfold host_text. destruct labels as [|[|c l] ls]; try discriminate.
    simpl. eauto. }
  split.
  { intros q Hq1 Hq2 D1 D2. unfold dot_at, lit_at in D1, D2.
    replace q with (n + (q - n)) in D1 by lia.
    replace (S q) with (n + S (q - n)) in D2 by lia.
    rewrite stretch_nth in D1, D2 by lia.
    exact (no_double_dot_nth tok (q - n) N D1 D2). }
  split.
  { unfold dot_at, lit_at. rewrite stretch_nth by lia. rewrite Htok.
    rewrite nth_error_app2, Nat.sub_diag by lia. reflexivity. }
  pose proof (stretch_run cls_alpha pre (b' ++ [chr "."]) tld post Ht) as H.
  rewrite length_app in H. simpl in H.
  replace (n + length b' + 1) with (n + (length b' + 1)) by lia.
  replace e with (n + (length b' + 1) + length tld) by lia.
  rewrite Htok. rewrite <- !app_assoc in *. exact H.
Qed.

Lemma host_masked p :
  n <= p < e -> nth_error (anonymise_text ucd t) p = Some (chr "x").
Proof.
  destruct host_kept_t as (d & H1 & H2 & H3 & K).
  exact (host_stretch_masked ucd Hsane t n d e H1 H2 H3 K p).
Qed.

End HostToken.

Section HostClaim.

Variable ucd : UnicodeData.

(** X5: a dotted hostname (labels of letters, digits and hyphens, each
    followed by a dot, then two letters or more) that starts with a letter
    or a digit and stands between whitespace or at an end of the text
    becomes a run of [x], whatever the five passes before the hostname
    pass masked of it. *)
Theorem host_name_masked (pre : text) (labels : list text) (tld post : text) :
  space_not_word ucd ->
  host_parts labels tld = true ->
  ends_space ucd pre = true -> starts_space ucd post = true ->
  exists pre' post',
    anonymise_text ucd (pre ++ host_text labels tld ++ post)
    = pre' ++ repeat (chr "x") (length (host_text labels tld)) ++ post'
    /\ masked_of pre pre' /\ masked_of post post'.
Proof.
  intros Hsane Hparts Hpre Hpost. unfold host_parts in Hparts.
  repeat (apply andb_true_iff in Hparts as [Hparts ?]).
  repeat match goal with
         | H : (_ <=? _) = true |- _ => apply Nat.leb_le in H
         end.
  apply masked_stretch. intros p Hp.
  apply (host_masked ucd Hsane); auto.
Qed.

End HostClaim.

(** X5 at [80.db-01.corp.port] between [port] and a number: the port pass
    reaches into the name from both sides. *)
Lemma host_name_masked_witness :
  exists pre' post',
    anonymise_text ascii_only
      (str "port " ++ host_text [str "80"; str "db-01"; str "corp"] (str "port")
       ++ str " 22")
    = pre' ++ repeat (chr "x")
                (length (host_text [str "80"; str "db-01"; str "corp"]
                                   (str "port")))
      ++ post'
    /\ masked_of (str "port ") pre' /\ masked_of (str " 22") post'.
Proof.
  apply (host_name_masked ascii_only);
    [exact ascii_only_space_not_word|reflexivity..].
Defined.

(** ** Texts that lack what the patterns need *)

Section Lacking.

Variable ucd : UnicodeData.

Lemma port_must_digit : must_have (is_digit ucd) (port_re ucd).
Proof. simpl. do 6 right. left. split; [lia|auto]. Qed.

Lemma port_must_space : must_have (is_space ucd) (port_re ucd).
Proof. simpl. do 5 right. left. split; [lia|auto]. Qed.

Lemma port_must_p : must_have (is_chr_nocase "p") (port_re ucd).
Proof. simpl. right. left. auto. Qed.

Lemma host_must_alpha : must_have cls_alpha host_re.
Proof. simpl. do 2 right. left. split; [lia|auto]. Qed.

Lemma email_must_dot : must_have (is_chr ".") email_re.
Proof. simpl. do 4 right. left. auto. Qed.

(** A pattern finds nothing in a text without a character it needs. *)
Lemma lacking_quiet (P : char -> bool) r (t : text) :
  must_have P r -> (forall c, In c t -> P c = false) -> quiet ucd t r.
Proof.
  intros HP Hno b e Hm.
  destruct (Matches_must ucd t P r b e HP Hm) as (p & _ & c & Hc & HPc).
  rewrite (Hno c (nth_error_In _ _ Hc)) in HPc. discriminate.
Qed.

Lemma not_In_chr a (t : text) :
  ~ In (chr a) t -> forall c, In c t -> is_chr a c = false.
Proof.
  intros H c Hc. apply not_true_is_false. intros E.
  apply is_chr_spec in E. now subst c.
Qed.

Lemma quiet_all_fixed (t : text) :
  (forall r, In r (_compile_patterns ucd) -> quiet ucd t r) ->
  anonymise_text ucd t = t.
Proof.
  intros H. apply no_match_fixed. intros r Hr. apply quiet_search. auto.
Qed.

(** *** Dots *)

Lemma dots_cons c (t : text) :
  dots (c :: t) = (if is_chr "." c then 1 else 0) + dots t.
Proof. unfold dots. simpl. now destruct (is_chr "." c). Qed.

Lemma dots_app (a b : text) : dots (a ++ b) = dots a + dots b.
Proof. unfold dots. now rewrite filter_app, length_app. Qed.

Lemma dots_skipn_le (t : text) : forall i j,
  i <= j -> dots (skipn j t) <= dots (skipn i t).
Proof.
  intros i j Hij. replace j with ((j - i) + i) by lia.
  rewrite <- skipn_skipn.
  rewrite <- (firstn_skipn (j - i) (skipn i t)) at 2.
  rewrite dots_app. lia.
Qed.

Lemma dots_skipn_dot (t : text) j :
  nth_error t j = Some (chr ".") ->
  dots (skipn j t) = S (dots (skipn (S j) t)).
Proof.
  revert j. induction t as [|c t IH]; intros [|j] H; try discriminate.
  - simpl in H. injection H as ->. reflexivity.
  - simpl in H. exact (IH j H).
Qed.

Lemma three_dots (t : text) j1 j2 j3 :
  j1 < j2 -> j2 < j3 -> dot_at t j1 -> dot_at t j2 -> dot_at t j3 ->
  3 <= dots t.
Proof.
  intros H12 H23 D1 D2 D3.
  pose proof (dots_skipn_le t 0 j1 ltac:(lia)) as L0.
  pose proof (dots_skipn_le t (S j1) j2 ltac:(lia)) as L1.
  pose proof (dots_skipn_le t (S j2) j3 ltac:(lia)) as L2.
  rewrite (dots_skipn_dot t j1 D1) in L0.
  rewrite (dots_skipn_dot t j2 D2) in L1.
  rewrite (dots_skipn_dot t j3 D3) in L2.
  change (skipn 0 t) with t in L0. lia.
Qed.

Lemma few_dots_quiet (t : text) :
  dots t <= 2 -> quiet ucd t (ipv4_re ucd).
Proof.
  intros Hd b e Hm. apply ipv4_Matches in Hm
    as (_ & _ & j1 & j2 & j3 & [L1 _] & B1 & [L2 _] & B2 & [L3 _] & B3 & _).
  pose proof (three_dots t j1 j2 j3 ltac:(lia) ltac:(lia) B1 B2 B3). lia.
Qed.

Lemma dotted_fixed (t : text) :
  forallb (digit_or_dot ucd) t = true -> dots t <= 2 ->
  anonymise_text ucd t = t.
Proof.
  intros Hall Hd. rewrite forallb_forall in Hall.
  assert (No : forall a, digit_or_dot ucd (chr a) = false ->
                         forall c, In c t -> is_chr a c = false).
  { intros a Ha c Hc. apply not_true_is_false. intros E.
    apply is_chr_spec in E. subst c. rewrite (Hall _ Hc) in Ha.
    discriminate. }
  apply quiet_all_fixed. intros r Hr. simpl in Hr.
  destruct Hr as [<-|[<-|[<-|[<-|[<-|[<-|[]]]]]]].
  - now apply few_dots_quiet.
  - apply (lacking_quiet (is_chr ":")); [apply url_must|].
    apply No. reflexivity.
  - apply (lacking_quiet (is_chr "@")); [apply email_must|].
    apply No. reflexivity.
  - apply (lacking_quiet (is_chr ":")); [apply mac_must|].
    apply No. reflexivity.
  - apply (lacking_quiet (is_chr_nocase "p")); [apply port_must_p|].
    intros c Hc. apply not_true_is_false. intros Hp.
    pose proof (Hall c Hc) as Hdd. unfold digit_or_dot in Hdd.
    apply orb_true_iff in Hdd as [Hdg|Hdt].
    + rewrite (digit_not_p ucd c Hdg) in Hp. discriminate.
    + apply is_chr_spec in Hdt. subst c. discriminate.
  - apply (lacking_quiet cls_alpha); [apply host_must_alpha|].
    intros c Hc. apply not_true_is_false. intros Ha.
    apply (alpha_not_digit_or_dot ucd) in Ha. rewrite (Hall c Hc) in Ha.
    discriminate.
Qed.

(** X6: a text without a dot and without a colon, and without a digit or
    without whitespace, holds nothing that any of the six patterns can
    match: it is returned as it is. *)
Theorem anonymise_text_plain (t : text) :
  ~ In (chr ".") t -> ~ In (chr ":") t ->
  (forall c, In c t -> is_digit ucd c = false)
  \/ (forall c, In c t -> is_space ucd c = false) ->
  anonymise_text ucd t = t.
Proof.
  intros Hdot Hcolon Hport.
  pose proof (not_In_chr "." t Hdot) as Nd.
  pose proof (not_In_chr ":" t Hcolon) as Nc.
  apply quiet_all_fixed. intros r Hr. simpl in Hr.
  destruct Hr as [<-|[<-|[<-|[<-|[<-|[<-|[]]]]]]].
  - exact (lacking_quiet _ _ t (ipv4_must ucd) Nd).
  - exact (lacking_quiet _ _ t (url_must ucd) Nc).
  - exact (lacking_quiet _ _ t email_must_dot Nd).
  - exact (lacking_quiet _ _ t mac_must Nc).
  - destruct Hport as [H|H].
    + exact (lacking_quiet _ _ t port_must_digit H).
    + exact (lacking_quiet _ _ t port_must_space H).
  - exact (lacking_quiet _ _ t host_must Nd).
Qed.

(** X7: a text of digits and dots with fewer than three dots (a version
    number such as [2.4.57]) is returned as it is. *)
Theorem dotted_number_unchanged (t : text) :
  forallb (digit_or_dot ucd) t = true -> dots t <= 2 ->
  anonymise_text ucd t = t.
Proof. apply dotted_fixed. Qed.

End Lacking.

(** X6 at a sentence without digits. *)
Lemma anonymise_text_plain_witness :
  anonymise_text ascii_only (str "Default credentials (admin/admin) were accepted")
  = str "Default credentials (admin/admin) were accepted".
Proof.
  apply (anonymise_text_plain ascii_only).
  - vm_compute. intuition discriminate.
  - vm_compute. intuition discriminate.
  - left. intros c Hc. vm_compute in Hc.
    repeat (destruct Hc as [<-|Hc]; [reflexivity|]). destruct Hc.
Defined.

(** X7 at [2.4.57]. *)
Lemma dotted_number_unchanged_witness :
  anonymise_text ascii_only (str "2.4.57") = str "2.4.57".
Proof.
  apply (dotted_number_unchanged ascii_only); [reflexivity|vm_compute; lia].
Defined.

(** * Further properties of the walker *)

Section WalkerMore.

Variable ucd : UnicodeData.
Variables RunFmt ParFmt : Type.

Local Abbreviation Paragraph := (Paragraph RunFmt ParFmt).
Local Abbreviation Table := (Table RunFmt ParFmt).
Local Abbreviation Row := (Row RunFmt ParFmt).
Local Abbreviation Cell := (Cell RunFmt ParFmt).
Local Abbreviation Document := (Document RunFmt ParFmt).

Lemma map_fixed (A : Type) (f : A -> A) l :
  Forall (fun a => f a = a) l -> map f l = l.
Proof. induction 1 as [|a l Ha _ IH]; simpl; [reflexivity|]. now rewrite Ha, IH. Qed.

Lemma map_agree (A B : Type) (f g : A -> B) l :
  Forall (fun a => f a = g a) l -> map f l = map g l.
Proof. induction 1 as [|a l Ha _ IH]; simpl; [reflexivity|]. now rewrite Ha, IH. Qed.

Lemma map_fixed_inv (A : Type) (f : A -> A) l :
  map f l = l -> forall a, In a l -> f a = a.
Proof.
  induction l as [|b l IH]; simpl; [contradiction|].
  intros [= Hb Hl] a [<-|Hin]; auto.
Qed.

(** *** The pass changes nothing but the characters of the runs *)

Lemma blank_process_run (run : Run RunFmt) :
  blank_run (process_run ucd run) = blank_run run.
Proof.
  destruct run as [txt fmt]. unfold process_run, blank_run.
  destruct txt as [|c txt]; simpl; [reflexivity|].
  now rewrite anonymise_text_length.
Qed.

Lemma blank__process_runs (p : Paragraph) :
  blank_paragraph (_process_runs ucd p) = blank_paragraph p.
Proof.
  unfold blank_paragraph, _process_runs. simpl. f_equal.
  rewrite map_map. apply map_agree, Forall_forall. intros r _.
  apply blank_process_run.
Qed.

Lemma blank__process_paragraphs (l : list Paragraph) :
  map blank_paragraph (_process_paragraphs ucd l) = map blank_paragraph l.
Proof.
  unfold _process_paragraphs. rewrite map_map.
  apply map_agree, Forall_forall. intros p _. apply blank__process_runs.
Qed.

Fixpoint blank_process_table (table : Table) :
  blank_table (process_table ucd table) = blank_table table
with blank_process_row (row : Row) :
  blank_row (process_row ucd row) = blank_row row
with blank_process_cell (cell : Cell) :
  blank_cell (process_cell ucd cell) = blank_cell cell.
Proof.
  - destruct table as [rows]. simpl. f_equal. rewrite map_map.
    apply map_agree.
    induction rows as [|row rows IH]; constructor; [|exact IH].
    apply blank_process_row.
  - destruct row as [cells]. simpl. f_equal. rewrite map_map.
    apply map_agree.
    induction cells as [|cell cells IH]; constructor; [|exact IH].
    apply blank_process_cell.
  - destruct cell as [paragraphs tables]. simpl. f_equal.
    + apply blank__process_paragraphs.
    + rewrite map_map. apply map_agree.
      induction tables as [|table tables IH]; constructor; [|exact IH].
      apply blank_process_table.
Qed.

Lemma blank__process_tables (l : list Table) :
  map blank_table (_process_tables ucd l) = map blank_table l.
Proof.
  unfold _process_tables. rewrite map_map.
  apply map_agree, Forall_forall. intros t _. apply blank_process_table.
Qed.

Lemma blank_process_header_footer (hf : HeaderFooter RunFmt ParFmt) :
  blank_header_footer (process_header_footer ucd hf) = blank_header_footer hf.
Proof.
  unfold blank_header_footer, process_header_footer. simpl.
  now rewrite blank__process_paragraphs, blank__process_tables.
Qed.


(** *** A document with nothing to mask *)

Lemma process_run_fixed (run : Run RunFmt) :
  process_run ucd run = run
  <-> anonymise_text ucd (run_text run) = run_text run.
Proof.
  unfold process_run. destruct run as [txt fmt]. simpl.
  destruct txt as [|c txt]; [split; auto|]. split.
  - now intros [= ->].
  - now intros ->.
Qed.

Lemma _process_runs_fixed (p : Paragraph) :
  _process_runs ucd p = p
  <-> forall run, In run (par_runs p) ->
        anonymise_text ucd (run_text run) = run_text run.
Proof.
  destruct p as [runs fmt]. unfold _process_runs. simpl. split.
  - intros [= H] run Hin. apply process_run_fixed.
    exact (map_fixed_inv _ _ _ H run Hin).
  - intros H. f_equal. apply map_fixed, Forall_forall.
    intros run Hin. apply process_run_fixed. auto.
Qed.

Fixpoint process_table_fixed (table : Table) :
  Forall (fun p => _process_runs ucd p = p) (table_paragraphs table) ->
  process_table ucd table = table
with process_row_fixed (row : Row) :
  Forall (fun p => _process_runs ucd p = p) (row_paragraphs row) ->
  process_row ucd row = row
with process_cell_fixed (cell : Cell) :
  Forall (fun p => _process_runs ucd p = p) (cell_all_paragraphs cell) ->
  process_cell ucd cell = cell.
Proof.
  - destruct table as [rows]. simpl. intros H. f_equal.
    apply map_fixed.
    induction rows as [|row rows IH]; constructor.
    + apply process_row_fixed. simpl in H. apply Forall_app in H. tauto.
    + apply IH. simpl in H. apply Forall_app in H. tauto.
  - destruct row as [cells]. simpl. intros H. f_equal.
    apply map_fixed.
    induction cells as [|cell cells IH]; constructor.
    + apply process_cell_fixed. simpl in H. apply Forall_app in H. tauto.
    + apply IH. simpl in H. apply Forall_app in H. tauto.
  - destruct cell as [paragraphs tables]. simpl. intros H.
    apply Forall_app in H as [Hp Ht]. f_equal.
    + apply map_fixed. exact Hp.
    + apply map_fixed.
      induction tables as [|table tables IH]; constructor.
      * apply process_table_fixed. simpl in Ht. apply Forall_app in Ht. tauto.
      * apply IH. simpl in Ht. apply Forall_app in Ht. tauto.
Qed.

Lemma _process_tables_fixed (l : list Table) :
  Forall (fun p => _process_runs ucd p = p) (flat_map table_paragraphs l) ->
  _process_tables ucd l = l.
Proof.
  intros H. apply map_fixed.
  induction l as [|table l IH]; constructor; simpl in H;
    apply Forall_app in H as [H1 H2]; auto.
  now apply process_table_fixed.
Qed.

Lemma process_header_footer_fixed (hf : HeaderFooter RunFmt ParFmt) :
  Forall (fun p => _process_runs ucd p = p) (hf_all_paragraphs hf) ->
  process_header_footer ucd hf = hf.
Proof.
  destruct hf as [ps ts]. unfold hf_all_paragraphs, process_header_footer.
  simpl. intros H. apply Forall_app in H as [H1 H2]. f_equal.
  - now apply map_fixed.
  - now apply _process_tables_fixed.
Qed.


End WalkerMore.

Section SplitRuns.

Variable ucd : UnicodeData.
Variables RunFmt ParFmt : Type.

Lemma ipv4_text_chars g1 g2 g3 g4 :
  digit_group ucd g1 = true -> digit_group ucd g2 = true ->
  digit_group ucd g3 = true -> digit_group ucd g4 = true ->
  forallb (digit_or_dot ucd) (ipv4_text g1 g2 g3 g4) = true.
Proof.
  intros G1 G2 G3 G4.
  assert (G : forall g, digit_group ucd g = true ->
                        forallb (digit_or_dot ucd) g = true).
  { intros g Hg. apply digit_group_inv in Hg as [_ Hg].
    apply forallb_forall. intros c Hc. rewrite forallb_forall in Hg.
    now apply digit_is_digit_or_dot, Hg. }
  unfold ipv4_text.
  repeat (rewrite forallb_app || rewrite forallb_cons).
  rewrite !G by assumption. reflexivity.
Qed.

(** X10: an IPv4 address that a paragraph holds in two runs, neither of
    which has all of its three dots, is left as it is, since each run is
    searched on its own; the same characters in one run are masked. *)
Theorem address_split_over_runs (g1 g2 g3 g4 a b : text)
    (f1 f2 : RunFmt) (pf : ParFmt) :
  digit_group ucd g1 = true -> digit_group ucd g2 = true ->
  digit_group ucd g3 = true -> digit_group ucd g4 = true ->
  a ++ b = ipv4_text g1 g2 g3 g4 -> dots a <= 2 -> dots b <= 2 ->
  _process_runs ucd
    {| par_runs := [ {| run_text := a; run_fmt := f1 |};
                     {| run_text := b; run_fmt := f2 |} ];
       par_fmt := pf |}
  = {| par_runs := [ {| run_text := a; run_fmt := f1 |};
                     {| run_text := b; run_fmt := f2 |} ];
       par_fmt := pf |}
  /\ anonymise_text ucd (a ++ b) = repeat (chr "x") (length (a ++ b)).
Proof.
  intros G1 G2 G3 G4 Hab Ha Hb.
  pose proof (ipv4_text_chars g1 g2 g3 g4 G1 G2 G3 G4) as Hall.
  rewrite <- Hab, forallb_app in Hall.
  apply andb_true_iff in Hall as [Ca Cb].
  split.
  - apply _process_runs_fixed. simpl. intros run [<-|[<-|[]]]; simpl;
      now apply dotted_fixed.
  - rewrite Hab. rewrite <- (anonymise_text_length ucd).
    apply all_x_repeat. intros p Hp. rewrite anonymise_text_length in Hp.
    pose proof (emb_masked ucd [] g1 g2 g3 g4 [] G1 G2 G3 G4 eq_refl eq_refl p)
      as Hx.
    simpl in Hx. rewrite app_nil_r in Hx. apply Hx. lia.
Qed.

End SplitRuns.

(** X10 at [192.168] and [.1.10]. *)
Lemma address_split_over_runs_witness :
  _process_runs ascii_only
    {| par_runs := [ {| run_text := str "192.168"; run_fmt := true |};
                     {| run_text := str ".1.10"; run_fmt := false |} ];
       par_fmt := tt |}
  = {| par_runs := [ {| run_text := str "192.168"; run_fmt := true |};
                     {| run_text := str ".1.10"; run_fmt := false |} ];
       par_fmt := tt |}
  /\ anonymise_text ascii_only (str "192.168" ++ str ".1.10")
     = repeat (chr "x") (length (str "192.168" ++ str ".1.10")).
Proof.
  apply (address_split_over_runs ascii_only bool unit
           (str "192") (str "168") (str "1") (str "10"));
    try reflexivity; vm_compute; lia.
Defined.


(** * Further properties of the batch *)

Lemma startswith_app pre rest : startswith pre (pre ++ rest) = true.
Proof.
  induction pre as [|c pre IH]; simpl; [reflexivity|].
  now rewrite N.eqb_refl, IH.
Qed.

Lemma path_parent_join folder name : path_parent (path_join folder name) = folder.
Proof. unfold path_parent, path_join. apply removelast_last. Qed.

Lemma path_name_new_file_path file :
  path_name (new_file_path file) = str "Anonymised_" ++ path_name file.
Proof. unfold new_file_path. apply path_name_join. Qed.

Lemma ascii_lower_dot c : ascii_lower c = chr "." -> c = chr ".".
Proof.
  unfold ascii_lower, in_range. intros H.
  destruct ((chr "A" <=? c)%N && (c <=? chr "Z")%N) eqn:E; [|exact H].
  apply andb_true_iff in E as [E1 E2].
  apply N.leb_le in E1, E2. unfold chr in *. simpl in *. lia.
Qed.

Lemma rfind_app_no c a b :
  ~ In c b -> rfind c (a ++ c :: b) = Some (length a).
Proof.
  intros Hb.
  assert (Hn : rfind c b = None).
  { induction b as [|x b IH]; simpl; [reflexivity|].
    rewrite IH by (intros H; apply Hb; now right).
    destruct (N.eqb_spec x c) as [->|]; [|reflexivity].
    exfalso. apply Hb. now left. }
  induction a as [|x a IH]; simpl.
  - now rewrite Hn, N.eqb_refl.
  - now rewrite IH.
Qed.

Lemma rfind_Some c t i :
  rfind c t = Some i -> nth_error t i = Some c /\ i < length t.
Proof.
  revert i. induction t as [|x t IH]; simpl; intros i; [discriminate|].
  destruct (rfind c t) as [j|] eqn:E.
  - intros [= <-]. destruct (IH j eq_refl). simpl. split; [assumption|lia].
  - destruct (N.eqb_spec x c) as [->|]; [|discriminate].
    intros [= <-]. simpl. split; [reflexivity|lia].
Qed.

Lemma forallb_skipn (A : Type) (f : A -> bool) i l :
  forallb f l = true -> forallb f (skipn i l) = true.
Proof.
  revert l. induction i as [|i IH]; intros [|x l]; simpl; auto.
  intros H. apply andb_true_iff in H as [_ H]. auto.
Qed.

Section BatchMore.

Variable ucd : UnicodeData.
Variables RunFmt ParFmt : Type.
Variable World : Type.
Variable path_exists : World -> Path -> bool.
Variable path_is_dir : World -> Path -> bool.
Variable path_is_file : World -> Path -> bool.
Variable listdir : World -> Path -> list text.
Variable load : World -> Path -> result (Document RunFmt ParFmt).
Variable save : World -> Path -> Document RunFmt ParFmt -> World * result unit.

Local Abbreviation anonymise_docx_try :=
  (anonymise_docx_try ucd RunFmt ParFmt World load save).
Local Abbreviation anonymise_docx :=
  (anonymise_docx ucd RunFmt ParFmt World load save).
Local Abbreviation for_each_file :=
  (for_each_file ucd RunFmt ParFmt World load save).
Local Abbreviation after_all :=
  (after_all ucd RunFmt ParFmt World load save).
Local Abbreviation eligible := (eligible ucd World path_is_file).
Local Abbreviation collect_files :=
  (collect_files ucd World path_is_file listdir).
Local Abbreviation process_folder :=
  (process_folder ucd RunFmt ParFmt World path_exists path_is_dir
     path_is_file listdir load save).

Lemma eligible_new_file_path w file : eligible w (new_file_path file) = false.
Proof.
  unfold eligible. rewrite path_name_new_file_path, startswith_app.
  apply andb_false_r.
Qed.

Lemma collect_files_in w folder f :
  In f (collect_files w folder) ->
  exists name, In name (listdir w folder) /\ f = path_join folder name
               /\ eligible w f = true.
Proof.
  unfold collect_files, iterdir. rewrite filter_In, in_map_iff.
  intros [(name & <- & Hin) He]. eauto.
Qed.

(** X11: a document that opens is saved, processed, beside the file it
    came from under the name [Anonymised_<name>].  That path is never
    among the selected files of the folder, whatever the folder holds, and
    two selected files never have the same copy path. *)
Theorem anonymised_copy_path :
  (forall file w doc,
      load w file = Ok doc ->
      anonymise_docx_try file w
      = save w (new_file_path file) (anonymise_document ucd doc))
  /\ (forall w folder f,
      In f (collect_files w folder) ->
      path_parent (new_file_path f) = folder
      /\ path_name (new_file_path f) = str "Anonymised_" ++ path_name f
      /\ forall w', ~ In (new_file_path f) (collect_files w' folder))
  /\ (forall w folder f1 f2,
      In f1 (collect_files w folder) -> In f2 (collect_files w folder) ->
      new_file_path f1 = new_file_path f2 -> f1 = f2).
Proof.
  split; [|split].
  - intros file w doc H. unfold anonymise_docx_try. now rewrite H.
  - intros w folder f Hin.
    apply collect_files_in in Hin as (name & _ & -> & _).
    split; [|split].
    + unfold new_file_path. now rewrite !path_parent_join.
    + apply path_name_new_file_path.
    + intros w' Hin'. apply collect_files_in in Hin' as (_ & _ & _ & He).
      rewrite eligible_new_file_path in He. discriminate.
  - intros w folder f1 f2 H1 H2 Heq.
    apply collect_files_in in H1 as (n1 & _ & -> & _).
    apply collect_files_in in H2 as (n2 & _ & -> & _).
    apply (f_equal path_name) in Heq.
    rewrite !path_name_new_file_path, !path_name_join in Heq.
    apply app_inv_head in Heq. now subst.
Qed.

(** *** The loop of [process_folder] *)

Lemma for_each_file_app files1 files2 st :
  (forall f w, In f files1 ->
               snd (anonymise_docx_try f w) <> Raise KeyboardInterrupt) ->
  for_each_file (files1 ++ files2) st
  = for_each_file files2 (after_all files1 st).
Proof.
  revert st. induction files1 as [|f files1 IH]; intros st Hno;
    [reflexivity|].
  simpl. unfold after_all. simpl.
  pose proof (Hno f (fst st) (or_introl eq_refl)) as Hf.
  unfold anonymise_docx in *.
  destruct (anonymise_docx_try f (fst st)) as [w [[]|[e|]]]; simpl in *;
    try (apply IH; intros; apply Hno; now right).
  contradiction.
Qed.

Lemma anonymise_docx_unreadable file w out e :
  load w file = Raise (Exception e) ->
  anonymise_docx file (w, out) = ((w, out ++ [error_line file e]), Ok tt).
Proof.
  intros H. unfold anonymise_docx, anonymise_docx_try.
  simpl. now rewrite H.
Qed.

Lemma anonymise_docx_saved file w out doc :
  load w file = Ok doc ->
  snd (save w (new_file_path file) (anonymise_document ucd doc)) = Ok tt ->
  anonymise_docx file (w, out)
  = ((fst (save w (new_file_path file) (anonymise_document ucd doc)), out),
     Ok tt).
Proof.
  intros H Hs. unfold anonymise_docx, anonymise_docx_try.
  cbn [fst snd]. rewrite H. cbv zeta. fold (new_file_path file).
  destruct (save w (new_file_path file) (anonymise_document ucd doc))
    as [w1 r1]. cbn [fst snd] in *. now subst r1.
Qed.

(** X12: the operator's interrupt during a file ends the loop there: what
    the loop returns does not depend on the files after it, which are
    never opened, and [process_folder] closes with the line that reports
    the interrupt. *)
Theorem interrupt_stops_batch :
  (forall files1 file files2 st w',
      (forall f w, In f files1 ->
                   snd (anonymise_docx_try f w) <> Raise KeyboardInterrupt) ->
      anonymise_docx_try file (fst (after_all files1 st))
      = (w', Raise KeyboardInterrupt) ->
      for_each_file (files1 ++ file :: files2) st
      = ((w', snd (after_all files1 st)), Raise KeyboardInterrupt))
  /\ (forall folder st files1 file files2 w',
      path_exists (fst st) folder = true ->
      path_is_dir (fst st) folder = true ->
      collect_files (fst st) folder = files1 ++ file :: files2 ->
      (forall f w, In f files1 ->
                   snd (anonymise_docx_try f w) <> Raise KeyboardInterrupt) ->
      anonymise_docx_try file (fst (after_all files1 st))
      = (w', Raise KeyboardInterrupt) ->
      process_folder folder st
      = (w', snd (after_all files1 st)
             ++ [newline :: str "Process interrupted by user."])).
Proof.
  assert (Loop : forall files1 file files2 st w',
      (forall f w, In f files1 ->
                   snd (anonymise_docx_try f w) <> Raise KeyboardInterrupt) ->
      anonymise_docx_try file (fst (after_all files1 st))
      = (w', Raise KeyboardInterrupt) ->
      for_each_file (files1 ++ file :: files2) st
      = ((w', snd (after_all files1 st)), Raise KeyboardInterrupt)).
  { intros files1 file files2 st w' Hno Hint.
    rewrite for_each_file_app by exact Hno. simpl.
    unfold anonymise_docx. now rewrite Hint. }
  split; [exact Loop|].
  intros folder st files1 file files2 w' He Hd Hfiles Hno Hint.
  unfold process_folder. rewrite He, Hd. simpl.
  fold (collect_files (fst st) folder). rewrite Hfiles.
  rewrite (Loop files1 file files2 st w' Hno Hint).
  destruct files1; reflexivity.
Qed.



(** X15: which names the selection takes.  A name of ASCII characters is
    selected exactly when the entry is a regular file, the name is a
    non-empty stem followed by [.docx] in any mix of cases, and the name
    does not start with [Anonymised_]; a file named just [.docx] is not
    taken. *)
Theorem eligible_names w folder (name : text) :
  forallb (fun c => (c <? 128)%N) name = true ->
  (eligible w (path_join folder name) = true
   <-> path_is_file w (path_join folder name) = true
       /\ (exists stem ext,
              name = stem ++ ext /\ stem <> []
              /\ map ascii_lower ext = str ".docx")
       /\ startswith (str "Anonymised_") name = false).
Proof.
  intros Hascii.
  assert (Hsuf : forallb (fun c => (c <? 128)%N) (suffix name) = true).
  { unfold suffix. destruct (rfind (chr ".") name) as [i|]; [|reflexivity].
    destruct ((0 <? i) && (i <? length name - 1)); [|reflexivity].
    now apply forallb_skipn. }
  unfold eligible. rewrite path_name_join.
  rewrite !andb_true_iff, text_eqb_eq, negb_true_iff.
  unfold lower. rewrite Hsuf.
  split.
  - intros [[Hf Hs] Hp]. split; [exact Hf|]. split; [|exact Hp].
    unfold suffix in Hs.
    destruct (rfind (chr ".") name) as [i|] eqn:Hr; [|discriminate].
    destruct ((0 <? i) && (i <? length name - 1)) eqn:Hi; [|discriminate].
    apply andb_true_iff in Hi as [H0 H1].
    apply Nat.ltb_lt in H0, H1.
    exists (firstn i name), (skipn i name). split; [|split].
    + symmetry. apply firstn_skipn.
    + intros Hnil. apply (f_equal (@length _)) in Hnil.
      rewrite length_firstn in Hnil. simpl in Hnil. lia.
    + exact Hs.
  - intros (Hf & (stem & ext & -> & Hstem & Hext) & Hp).
    split; [split; [exact Hf|]|exact Hp].
    destruct ext as [|c0 [|c1 [|c2 [|c3 [|c4 [|c5 ext]]]]]]; try discriminate.
    injection Hext as E0 E1 E2 E3 E4.
    apply ascii_lower_dot in E0. subst c0.
    assert (Hno : ~ In (chr ".") [c1; c2; c3; c4]).
    { simpl. intros [H|[H|[H|[H|[]]]]]; subst;
        (discriminate E1 || discriminate E2 || discriminate E3
         || discriminate E4). }
    unfold suffix. rewrite (rfind_app_no _ stem [c1; c2; c3; c4] Hno).
    assert (0 < length stem) by (destruct stem; [contradiction|simpl; lia]).
    replace ((0 <? length stem)
             && (length stem <? length (stem ++ [chr "."; c1; c2; c3; c4]) - 1))
      with true.
    2:{ symmetry. apply andb_true_iff. split; apply Nat.ltb_lt; [lia|].
        rewrite length_app. simpl. lia. }
    rewrite skipn_app, skipn_all, Nat.sub_diag. simpl.
    now rewrite E1, E2, E3, E4.
Qed.

End BatchMore.

(** X11 at [reports/a.docx]. *)
Lemma anonymised_copy_path_witness :
  path_parent (new_file_path [str "reports"; str "a.docx"]) = [str "reports"]
  /\ path_name (new_file_path [str "reports"; str "a.docx"])
     = str "Anonymised_a.docx".
Proof.
  destruct (proj1 (proj2 (anonymised_copy_path ascii_only unit unit unit
                            (fun _ _ => true) (fun _ _ => [str "a.docx"])
                            (fun _ _ => Raise KeyboardInterrupt)
                            (fun w _ _ => (w, Ok tt))))
              tt [str "reports"] [str "reports"; str "a.docx"]
              (or_introl eq_refl)) as (H1 & H2 & _).
  split; assumption.
Defined.

(** X12 at a batch of two files, interrupted while the first is opened. *)
Lemma interrupt_stops_batch_witness :
  for_each_file ascii_only unit unit unit
    (fun _ _ => Raise KeyboardInterrupt) (fun w _ _ => (w, Ok tt))
    ([] ++ [str "reports"; str "a.docx"] :: [[str "reports"; str "b.docx"]])
    (tt, [])
  = ((tt, []), Raise KeyboardInterrupt).
Proof.
  apply (proj1 (interrupt_stops_batch ascii_only unit unit unit
                  (fun _ _ => true) (fun _ _ => true) (fun _ _ => true)
                  (fun _ _ => [])
                  (fun _ _ => Raise KeyboardInterrupt)
                  (fun w _ _ => (w, Ok tt)))).
  - intros f w [].
  - reflexivity.
Defined.



(** X15 at [Report.DocX]. *)
Lemma eligible_names_witness :
  eligible ascii_only unit (fun _ _ => true) tt
    (path_join [str "reports"] (str "Report.DocX"))
  = true.
Proof.
  apply (proj2 (eligible_names ascii_only unit (fun _ _ => true) tt
                  [str "reports"] (str "Report.DocX") eq_refl)).
  split; [reflexivity|]. split; [|reflexivity].
  exists (str "Report"), (str ".DocX"). repeat split. discriminate.
Defined.
